(** * feediverse: a shallow embedding of [feediverse.py]

    The development follows the source file:
    - [Py]       the pieces of the Python runtime the program relies on
                 (exceptions, slices, tuple comparison, the stable
                 [list.sort]);
    - [Datetime] [datetime] values, their comparison, [max], [isoformat]
                 and the ISO-8601 reading of its output;
    - [Format]   [str.format] as the program calls it (keyword arguments
                 only);
    - then, under their own names, [cleanup], [get_entry], [get_feed],
      [read_config], [save_config] and [main] with its two loops;
    - [Demo]     a small concrete world for the examples;
    - the properties, and the claims C1 to C10 of the specification;
    - last, what the claims leave out: more of [cleanup], [get_entry],
      [get_feed] and [main], and the interactive [yes_no] and [setup].

    What the program calls but does not define (feedparser, dateutil,
    Mastodon.py, BeautifulSoup) is a parameter, collected in the class
    [Externals].  An exception is a value: every function that may raise
    returns a [result].  What a run does to the outside (fetches, posts,
    sleeps, the file it writes) is recorded as a list of events.

    Conventions.  A string is a Rocq [string], one [ascii] standing for one
    character (the code points below 256).  The configuration file is
    modelled by the dict that [yaml.load] returns for it and [yaml.dump]
    writes: for [main] it exists ([setup], which writes the first one,
    comes in the last part), it has the keys [url], [access_token] and
    [feeds], and [max_chars] and [visibility], when present, hold an
    integer and a string.  The [--sleep] interval is not negative. *)

From Stdlib Require Import ZArith List String Ascii Bool Lia.
From Stdlib Require Import Permutation Sorted.
Import ListNotations.

Open Scope Z_scope.

Infix "+++" := String.append (at level 60, right associativity).

(* ================================================================== *)
(** * The Python runtime                                                *)
(* ================================================================== *)

Module Py.

(** Exceptions the program can meet.  [KeyError] carries the missing key. *)
Inductive exn : Type :=
| KeyError (key : string)
| IndexError
| ValueError
| TypeError
| AttributeError
| ParserError
| MastodonError.

(** A computation either returns or raises. *)
Inductive result (A : Type) : Type :=
| Ok (a : A)
| Raise (e : exn).

Arguments Ok {A} a.
Arguments Raise {A} e.

Definition bind {A B : Type} (m : result A) (k : A -> result B) : result B :=
  match m with
  | Ok a => k a
  | Raise e => Raise e
  end.

Definition is_ok {A : Type} (m : result A) : bool :=
  match m with Ok _ => true | Raise _ => false end.

(** [obj.attr] / [d[key]] on a field that the lookup may not find. *)
Definition getattr {A : Type} (field : option A) : result A :=
  match field with Some a => Ok a | None => Raise AttributeError end.

Definition getitem {A : Type} (key : string) (field : option A) : result A :=
  match field with Some a => Ok a | None => Raise (KeyError key) end.

(** [d.get(key, default)] *)
Definition get {A : Type} (field : option A) (default : A) : A :=
  match field with Some a => a | None => default end.

(** [[f(x) for x in l]] with [f] that may raise: left to right, the first
    exception ends the evaluation. *)
Fixpoint mapM {A B : Type} (f : A -> result B) (l : list A) : result (list B) :=
  match l with
  | [] => Ok []
  | x :: l' =>
      bind (f x) (fun y => bind (mapM f l') (fun ys => Ok (y :: ys)))
  end.

(** [[x for x in l if p(x)]] with [p] that may raise. *)
Fixpoint filterM {A : Type} (p : A -> result bool) (l : list A) : result (list A) :=
  match l with
  | [] => Ok []
  | x :: l' =>
      bind (p x) (fun b =>
      bind (filterM p l') (fun ys => Ok (if b then x :: ys else ys)))
  end.

(** ** Strings *)

Fixpoint take (n : nat) (s : string) : string :=
  match n, s with
  | O, _ => EmptyString
  | S _, EmptyString => EmptyString
  | S n', String c s' => String c (take n' s')
  end.

(** [s[:n]] for an integer [n]: a negative bound counts from the end, and
    bounds outside the string are clipped. *)
Definition slice_to (s : string) (n : Z) : string :=
  if 0 <=? n then take (Z.to_nat n) s
  else take (String.length s - Z.to_nat (- n)) s.

(** [sep.join(l)] *)
Fixpoint join (sep : string) (l : list string) : string :=
  match l with
  | [] => EmptyString
  | [x] => x
  | x :: l' => x +++ sep +++ join sep l'
  end.

(** ** Tuples of integers, compared as Python compares tuples *)

Fixpoint tuple_ltb (a b : list Z) : bool :=
  match a, b with
  | [], [] => false
  | [], _ :: _ => true
  | _ :: _, [] => false
  | x :: a', y :: b' =>
      if x <? y then true
      else if y <? x then false
      else tuple_ltb a' b'
  end.

(** ** [list.sort(key=...)]

    Python's sort is stable and uses [<] on the keys only.  The result of a
    stable sort is unique, so insertion from the right computes it. *)
Section Sort.

Context {A K : Type}.
Variable key : A -> K.
Variable ltb : K -> K -> bool.

Fixpoint insert (x : A) (l : list A) : list A :=
  match l with
  | [] => [x]
  | y :: l' =>
      if ltb (key y) (key x) then y :: insert x l' else x :: y :: l'
  end.

Fixpoint sort (l : list A) : list A :=
  match l with
  | [] => []
  | x :: l' => insert x (sort l')
  end.

End Sort.

End Py.

Import Py.

Notation "x <- m ;; k" := (Py.bind m (fun x => k))
  (at level 61, m at next level, right associativity).

(* ================================================================== *)
(** * [datetime]                                                        *)
(* ================================================================== *)

Module Datetime.

(** A [datetime.datetime] value.  [tzinfo = None] is a naive value;
    [Some off] an aware one whose [utcoffset()] is [off] minutes (dateutil
    builds offsets from [+HH:MM], [timezone.utc] is [Some 0]). *)
Record datetime : Type := mkdt {
  year : Z;
  month : Z;
  day : Z;
  hour : Z;
  minute : Z;
  second : Z;
  microsecond : Z;
  tzinfo : option Z
}.

Definition MINYEAR : Z := 1.
Definition MAXYEAR : Z := 9999.

Definition is_leap (y : Z) : bool :=
  (y mod 4 =? 0) && (negb (y mod 100 =? 0) || (y mod 400 =? 0)).

Definition days_in_month (y m : Z) : Z :=
  if m =? 2 then (if is_leap y then 29 else 28)
  else if (m =? 4) || (m =? 6) || (m =? 9) || (m =? 11) then 30
  else 31.

(** The invariant the [datetime] constructor enforces. *)
Definition valid_datetimeb (d : datetime) : bool :=
  (MINYEAR <=? year d) && (year d <=? MAXYEAR) &&
  (1 <=? month d) && (month d <=? 12) &&
  (1 <=? day d) && (day d <=? days_in_month (year d) (month d)) &&
  (0 <=? hour d) && (hour d <? 24) &&
  (0 <=? minute d) && (minute d <? 60) &&
  (0 <=? second d) && (second d <? 60) &&
  (0 <=? microsecond d) && (microsecond d <? 1000000) &&
  match tzinfo d with
  | None => true
  | Some off => (-1440 <? off) && (off <? 1440)
  end.

Definition valid_datetime (d : datetime) : Prop := valid_datetimeb d = true.

Definition aware (d : datetime) : bool :=
  match tzinfo d with Some _ => true | None => false end.

(** Days before January 1st of year [y], and before the first of month [m]. *)
Definition days_before_year (y : Z) : Z :=
  let p := y - 1 in p * 365 + p / 4 - p / 100 + p / 400.

Fixpoint days_before_month_aux (y : Z) (m : nat) : Z :=
  match m with
  | O => 0
  | S m' => days_before_month_aux y m' + days_in_month y (Z.of_nat m)
  end.

Definition days_before_month (y m : Z) : Z :=
  days_before_month_aux y (Z.to_nat (m - 1)).

Definition toordinal (d : datetime) : Z :=
  days_before_year (year d) + days_before_month (year d) (month d) + day d.

(** The instant a value denotes, in microseconds, with the UTC offset
    subtracted (a naive value is read with offset 0). *)
Definition utc_micros (d : datetime) : Z :=
  ((((toordinal d * 24 + hour d) * 60 + minute d
     - match tzinfo d with Some off => off | None => 0 end) * 60)
   + second d) * 1000000 + microsecond d.

(** [a > b].  Ordering a naive value against an aware one raises
    [TypeError]; otherwise the instants are compared. *)
Definition gt (a b : datetime) : result bool :=
  if Bool.eqb (aware a) (aware b)
  then Ok (utc_micros b <? utc_micros a)
  else Raise TypeError.

(** [max(a, b)]: [b] when [b > a], else [a]. *)
Definition max (a b : datetime) : result datetime :=
  c <- gt b a ;; Ok (if c then b else a).

(** [datetime(MINYEAR, 1, 1, 0, 0, 0, 0, timezone.utc)] *)
Definition min_utc : datetime := mkdt MINYEAR 1 1 0 0 0 0 (Some 0).

(** ** [isoformat] *)

Definition digit (d : Z) : ascii := ascii_of_nat (48 + Z.to_nat d).

(** [n] in decimal on exactly [k] digits, zero filled: ["%0kd" % n] for a
    field within its range. *)
Fixpoint pad (k : nat) (n : Z) : string :=
  match k with
  | O => EmptyString
  | S k' => pad k' (n / 10) +++ String (digit (n mod 10)) EmptyString
  end.

Definition format_offset (off : Z) : string :=
  (if off <? 0 then "-"%string else "+"%string)
  +++ pad 2 (Z.abs off / 60) +++ ":"%string +++ pad 2 (Z.abs off mod 60).

(** [d.isoformat(sep)]: [YYYY-MM-DD<sep>HH:MM:SS], then [.ffffff] when the
    microseconds are not zero, then [+HH:MM] for an aware value. *)
Definition isoformat_sep (sep : ascii) (d : datetime) : string :=
  pad 4 (year d) +++ "-"%string +++ pad 2 (month d) +++ "-"%string
  +++ pad 2 (day d) +++ String sep
  (pad 2 (hour d) +++ ":"%string +++ pad 2 (minute d) +++ ":"%string
   +++ pad 2 (second d)
   +++ (if microsecond d =? 0 then EmptyString
        else "."%string +++ pad 6 (microsecond d))
   +++ match tzinfo d with
       | None => EmptyString
       | Some off => format_offset off
       end).

Definition isoformat (d : datetime) : string := isoformat_sep "T"%char d.

(** [str(d)] *)
Definition str (d : datetime) : string := isoformat_sep " "%char d.

(** ** Reading an ISO-8601 string

    [iso_parse] reads the strings of shape
    [YYYY-MM-DDTHH:MM:SS[.ffffff][(+|-)HH:MM]] that denote a valid
    [datetime], with their ISO-8601 meaning; it is the part of
    [dateutil.parser.parse] that reading a saved configuration relies on. *)

Definition digit_val (c : ascii) : option Z :=
  let n := Z.of_nat (nat_of_ascii c) in
  if (48 <=? n) && (n <=? 57) then Some (n - 48) else None.

Fixpoint read_num (k : nat) (acc : Z) (s : string) : option (Z * string) :=
  match k with
  | O => Some (acc, s)
  | S k' =>
      match s with
      | EmptyString => None
      | String c s' =>
          match digit_val c with
          | Some v => read_num k' (acc * 10 + v) s'
          | None => None
          end
      end
  end.

Definition expect (c : ascii) (s : string) : option string :=
  match s with
  | String c' s' => if Ascii.eqb c c' then Some s' else None
  | EmptyString => None
  end.

Definition obind {A B : Type} (m : option A) (k : A -> option B) : option B :=
  match m with Some a => k a | None => None end.

Definition read_fraction (s : string) : option (Z * string) :=
  match s with
  | String "." s' => read_num 6 0 s'
  | _ => Some (0, s)
  end.

Definition read_offset (s : string) : option (option Z) :=
  match s with
  | EmptyString => Some None
  | String c s' =>
      if Ascii.eqb c "+" || Ascii.eqb c "-" then
        obind (read_num 2 0 s') (fun '(hh, s1) =>
        obind (expect ":" s1) (fun s2 =>
        obind (read_num 2 0 s2) (fun '(mm, s3) =>
        match s3 with
        | EmptyString =>
            if (hh <? 24) && (mm <? 60) then
              Some (Some ((if Ascii.eqb c "-" then -1 else 1) * (hh * 60 + mm)))
            else None
        | _ => None
        end)))
      else None
  end.

Definition iso_parse (s : string) : option datetime :=
  obind (read_num 4 0 s) (fun '(y, s) =>
  obind (expect "-" s) (fun s =>
  obind (read_num 2 0 s) (fun '(mo, s) =>
  obind (expect "-" s) (fun s =>
  obind (read_num 2 0 s) (fun '(d, s) =>
  obind (expect "T" s) (fun s =>
  obind (read_num 2 0 s) (fun '(h, s) =>
  obind (expect ":" s) (fun s =>
  obind (read_num 2 0 s) (fun '(mi, s) =>
  obind (expect ":" s) (fun s =>
  obind (read_num 2 0 s) (fun '(sec, s) =>
  obind (read_fraction s) (fun '(us, s) =>
  obind (read_offset s) (fun tz =>
  let dt := mkdt y mo d h mi sec us tz in
  if valid_datetimeb dt then Some dt else None))))))))))))).

End Datetime.

(* ================================================================== *)
(** * [str.format]                                                      *)
(* ================================================================== *)

Module Format.

Import Datetime.

(** The values an entry holds: strings, and the [updated] datetime. *)
Inductive pyval : Type :=
| VStr (s : string)
| VDatetime (d : datetime).

(** [str(v)], which is also [format(v, "")] for both kinds of value. *)
Definition py_str (v : pyval) : string :=
  match v with
  | VStr s => s
  | VDatetime d => Datetime.str d
  end.

(** The keyword arguments of [template.format] called with [**entry]. *)
Definition kwargs : Type := list (string * pyval).

Fixpoint lookup (kw : kwargs) (name : string) : option pyval :=
  match kw with
  | [] => None
  | (k, v) :: kw' => if String.eqb k name then Some v else lookup kw' name
  end.

(** A replacement field [{field_name!conversion:format_spec}]. *)
Record field : Type := mkfield {
  field_name : string;
  conversion : option ascii;
  format_spec : string
}.

(** What the template is cut into.  [Malformed] stands for the
    [ValueError] the scanner raises on unbalanced braces or a misplaced
    character; it is met only after the pieces before it were rendered. *)
Inductive piece : Type :=
| Literal (s : string)
| Markup (f : field)
| Malformed.

(** The scanner's position in the template. *)
Inductive state : Type :=
| Lit (acc : string)
| Open (acc : string)
| Close (acc : string)
| Name (acc : string) (bracket : bool)
| Conv (name : string)
| ConvEnd (name : string) (c : ascii)
| Spec (name : string) (conv : option ascii) (acc : string) (depth : nat).

Definition snoc (s : string) (c : ascii) : string := s +++ String c EmptyString.

Definition ch (c : ascii) (x : string) : bool :=
  String.eqb (String c EmptyString) x.

(** [scan st s]: the pieces of [s], read from state [st]. *)
Fixpoint scan (st : state) (s : string) : list piece :=
  match s with
  | EmptyString =>
      match st with
      | Lit acc => [Literal acc]
      | _ => [Malformed]
      end
  | String c s' =>
      let in_name (acc : string) : list piece :=
        if ch c "{" then [Malformed]
        else if ch c "[" then scan (Name (snoc acc c) true) s'
        else if ch c "}" then
          Markup (mkfield acc None EmptyString) :: scan (Lit EmptyString) s'
        else if ch c ":" then scan (Spec acc None EmptyString 0) s'
        else if ch c "!" then scan (Conv acc) s'
        else scan (Name (snoc acc c) false) s' in
      match st with
      | Lit acc =>
          if ch c "{" then scan (Open acc) s'
          else if ch c "}" then scan (Close acc) s'
          else scan (Lit (snoc acc c)) s'
      | Open acc =>
          if ch c "{" then Literal (snoc acc c) :: scan (Lit EmptyString) s'
          else Literal acc :: in_name EmptyString
      | Close acc =>
          if ch c "}" then Literal (snoc acc c) :: scan (Lit EmptyString) s'
          else [Malformed]
      | Name acc true =>
          scan (Name (snoc acc c) (negb (ch c "]"))) s'
      | Name acc false => in_name acc
      | Conv name => scan (ConvEnd name c) s'
      | ConvEnd name cv =>
          if ch c "}" then
            Markup (mkfield name (Some cv) EmptyString) :: scan (Lit EmptyString) s'
          else if ch c ":" then scan (Spec name (Some cv) EmptyString 0) s'
          else [Malformed]
      | Spec name cv acc depth =>
          if ch c "{" then scan (Spec name cv (snoc acc c) (S depth)) s'
          else if ch c "}" then
            match depth with
            | O => Markup (mkfield name cv acc) :: scan (Lit EmptyString) s'
            | S d => scan (Spec name cv (snoc acc c) d) s'
            end
          else scan (Spec name cv (snoc acc c) depth) s'
      end
  end.

(** [field_name_split]: the argument name runs up to the first ['.'] or
    ['[']; what follows is a chain of attribute and index accesses. *)
Fixpoint field_name_split (name : string) : string * string :=
  match name with
  | EmptyString => (EmptyString, EmptyString)
  | String c s' =>
      if ch c "." || ch c "[" then (EmptyString, name)
      else let (first, rest) := field_name_split s' in (String c first, rest)
  end.

Definition PY_SSIZE_T_MAX : Z := 2 ^ 63 - 1.

(** [get_integer]: [Ok None] when the name is not a number, the number when
    it is one, [ValueError] when it has too many digits. *)
Fixpoint get_integer (acc : Z) (s : string) : result (option Z) :=
  match s with
  | EmptyString => Ok (Some acc)
  | String c s' =>
      match digit_val c with
      | None => Ok None
      | Some d =>
          if (PY_SSIZE_T_MAX - d) / 10 <? acc then Raise ValueError
          else get_integer (acc * 10 + d) s'
      end
  end.

(** The object a field names.  No positional argument is ever passed, so
    an empty or numeric name is out of range; any other name is a key of
    the keyword arguments. *)
Definition get_arg (kw : kwargs) (first : string) : result pyval :=
  if String.eqb first EmptyString then Raise IndexError
  else
    idx <- get_integer 0 first ;;
    match idx with
    | Some _ => Raise IndexError
    | None =>
        match lookup kw first with
        | Some v => Ok v
        | None => Raise (KeyError first)
        end
    end.

Definition valid_conversion (c : ascii) : bool :=
  ch c "r" || ch c "s" || ch c "a".

Section Render.

(** Attribute and index access, [repr], [ascii] and the format-spec
    mini-languages (with nested fields in the spec) belong to the objects
    and the interpreter: they are a parameter, consulted once the argument
    is found. *)
Variable render_other : kwargs -> pyval -> field -> result string.

Definition render_field (kw : kwargs) (f : field) : result string :=
  let (first, rest) := field_name_split (field_name f) in
  obj <- get_arg kw first ;;
  if String.eqb rest EmptyString then
    match conversion f with
    | None =>
        if String.eqb (format_spec f) EmptyString then Ok (py_str obj)
        else render_other kw obj f
    | Some c =>
        if negb (valid_conversion c) then Raise ValueError
        else if ch c "s" && String.eqb (format_spec f) EmptyString
             then Ok (py_str obj)
             else render_other kw obj f
    end
  else render_other kw obj f.

Fixpoint render (kw : kwargs) (ps : list piece) : result string :=
  match ps with
  | [] => Ok EmptyString
  | Literal s :: ps' => r <- render kw ps' ;; Ok (s +++ r)
  | Markup f :: ps' =>
      s <- render_field kw f ;; r <- render kw ps' ;; Ok (s +++ r)
  | Malformed :: _ => Raise ValueError
  end.

(** [template.format( **kw )] *)
Definition format (template : string) (kw : kwargs) : result string :=
  render kw (scan (Lit EmptyString) template).

End Render.

End Format.

Import Datetime Format.

(* ================================================================== *)
(** * Feed entries                                                      *)
(* ================================================================== *)

(** [time.struct_time], the 9-tuple feedparser gives as [updated_parsed]. *)
Record struct_time : Type := mktime {
  tm_year : Z;
  tm_mon : Z;
  tm_mday : Z;
  tm_hour : Z;
  tm_min : Z;
  tm_sec : Z;
  tm_wday : Z;
  tm_yday : Z;
  tm_isdst : Z
}.

Definition as_tuple (t : struct_time) : list Z :=
  [tm_year t; tm_mon t; tm_mday t; tm_hour t; tm_min t; tm_sec t;
   tm_wday t; tm_yday t; tm_isdst t].

Definition struct_time_ltb (a b : struct_time) : bool :=
  tuple_ltb (as_tuple a) (as_tuple b).

(** One element of [entry.tags], and one of [entry.content].  feedparser
    gives every tag the key [term]; it holds Python's [None] for a tag that
    has a scheme or a label only, and [None.replace] raises
    [AttributeError].  A content block may lack the key [value]. *)
Record Tag : Type := mktag { term : option string }.
Record ContentBlock : Type := mkblock { value : option string }.

(** An entry as feedparser returns it, seen through the lookups the program
    makes: [entry.get(key)], [entry[key]], [entry.key] and [hasattr] all go
    through the entry's [__getitem__].  A field holds what that lookup
    returns, and is [None] when the lookup raises ([KeyError], which the
    attribute access turns into [AttributeError]).  So [raw_updated] and
    [updated_parsed] stand for what [entry['updated']] and
    [entry.updated_parsed] answer, whatever key feedparser takes the answer
    from: for an entry that has no [updated] of its own it falls back on
    [published] and [published_parsed].  [updated_parsed] may be found and
    hold Python's [None] (a date feedparser could not read): [Some None]. *)
Record RawEntry : Type := mkraw {
  raw_id : option string;
  raw_link : option string;
  raw_title : option string;
  raw_summary : option string;
  raw_content : option (list ContentBlock);
  raw_tags : option (list Tag);
  raw_updated : option string;
  updated_parsed : option (option struct_time)
}.

(** The dict [get_entry] returns. *)
Record Entry : Type := mkentry {
  url : string;
  link : string;
  title : string;
  summary : string;
  content : string;
  hashtags : string;
  updated : datetime
}.

(** [**entry] *)
Definition entry_kwargs (e : Entry) : kwargs :=
  [ ("url"%string, VStr (url e));
    ("link"%string, VStr (link e));
    ("title"%string, VStr (title e));
    ("summary"%string, VStr (summary e));
    ("content"%string, VStr (content e));
    ("hashtags"%string, VStr (hashtags e));
    ("updated"%string, VDatetime (updated e)) ].

(* ================================================================== *)
(** * Configuration, statuses and what a run does to the world          *)
(* ================================================================== *)

Record Feed : Type := mkfeed {
  feed_url : string;
  feed_template : string
}.

(** The configuration dict.  [U] is what the key [updated] holds: an
    optional string in the file, a [datetime] once [read_config] has read
    it.  [cfg_other] are the keys the run does not look at ([name],
    [client_id], [client_secret]). *)
Record config_of (U : Type) : Type := mkconfig {
  cfg_url : string;
  cfg_access_token : string;
  cfg_feeds : list Feed;
  cfg_max_chars : option Z;
  cfg_visibility : option string;
  cfg_other : list (string * string);
  cfg_updated : U
}.

Arguments mkconfig {U}.
Arguments cfg_url {U}.
Arguments cfg_access_token {U}.
Arguments cfg_feeds {U}.
Arguments cfg_max_chars {U}.
Arguments cfg_visibility {U}.
Arguments cfg_other {U}.
Arguments cfg_updated {U}.

Definition ConfigFile : Type := config_of (option string).
Definition Config : Type := config_of datetime.

Definition set_updated {U V : Type} (c : config_of U) (v : V) : config_of V :=
  mkconfig (cfg_url c) (cfg_access_token c) (cfg_feeds c) (cfg_max_chars c)
           (cfg_visibility c) (cfg_other c) v.

(** The keyword arguments of [masto.status_post]. *)
Record Status : Type := mkstatus {
  status : string;
  visibility : option string
}.

(** The command line: [--dry-run] and [--verbose] ([--config] names the
    file, [--sleep] the pause after a post). *)
Record Args : Type := mkargs {
  dry_run : bool;
  verbose : bool
}.

(** What a run does, in the order it does it: fetching a feed, handing an
    entry to the loop body ([logger.debug(entry)]), printing a status,
    calling [status_post] (with how the call ended), sleeping, writing the
    configuration file. *)
Inductive Event : Type :=
| EvFetch (feed_url : string)
| EvEntry (e : Entry)
| EvPprint (s : Status)
| EvPost (s : Status) (r : result unit)
| EvSleep
| EvSave (file : ConfigFile).

(** The libraries behind the program.
    - [feedparser_parse url] are the entries of [feedparser.parse(url)].
    - [dateutil_parse] is [dateutil.parser.parse].
    - [html_get_text text] is [BeautifulSoup(text, 'html.parser').get_text()].
    - [status_post] is [masto.status_post]; it sees the events so far, so
      its answer may depend on what was posted before.
    - [render_other] renders the replacement fields that need more of
      Python than [str()] (see [Format.render_field]). *)
Class Externals : Type := {
  feedparser_parse : string -> list RawEntry;
  dateutil_parse : string -> result datetime;
  html_get_text : string -> string;
  status_post : list Event -> Status -> result unit;
  render_other : kwargs -> pyval -> field -> result string
}.

Section Program.

Context {ext : Externals}.

(* ================================================================== *)
(** * [cleanup]                                                         *)
(* ================================================================== *)

Definition space : ascii := " "%char.
Definition newline : ascii := ascii_of_nat 10.
Definition nbsp : ascii := ascii_of_nat 160.

Fixpoint repeat_char (c : ascii) (n : nat) : string :=
  match n with
  | O => EmptyString
  | S n' => String c (repeat_char c n')
  end.

(** [re.sub(c{least,}, replacement, text)] for a character [c]: every
    maximal run of [c] that is at least [least] long becomes [replacement];
    [run] counts the [c] just read. *)
Fixpoint sub_runs (c : ascii) (least : nat) (replacement : string)
                  (run : nat) (text : string) : string :=
  let flush :=
    match run with
    | O => EmptyString
    | S _ => if (least <=? run)%nat then replacement else repeat_char c run
    end in
  match text with
  | EmptyString => flush
  | String x text' =>
      if Ascii.eqb x c then sub_runs c least replacement (S run) text'
      else flush +++ String x (sub_runs c least replacement O text')
  end.

(** [re.sub(' +\n', '\n', text)]: the spaces that end a line go. *)
Fixpoint sub_spaces_newline (run : nat) (text : string) : string :=
  match text with
  | EmptyString => repeat_char space run
  | String x text' =>
      if Ascii.eqb x space then sub_spaces_newline (S run) text'
      else if Ascii.eqb x newline then String x (sub_spaces_newline O text')
      else repeat_char space run +++ String x (sub_spaces_newline O text')
  end.

(** [c.isspace()] *)
Definition isspace (c : ascii) : bool :=
  let n := nat_of_ascii c in
  ((9 <=? n) && (n <=? 13) || (28 <=? n) && (n <=? 32)
   || (n =? 133) || (n =? 160))%nat.

Fixpoint lstrip (text : string) : string :=
  match text with
  | EmptyString => EmptyString
  | String c text' => if isspace c then lstrip text' else text
  end.

Fixpoint rstrip (text : string) : string :=
  match text with
  | EmptyString => EmptyString
  | String c text' =>
      match rstrip text' with
      | EmptyString => if isspace c then EmptyString else String c EmptyString
      | rest => String c rest
      end
  end.

(** [text.strip()] *)
Definition strip (text : string) : string := rstrip (lstrip text).

Definition cleanup (text : string) : string :=
  let text := html_get_text text in
  let text := sub_runs nbsp 1 (String space EmptyString) O text in
  let text := sub_runs space 2 (String space EmptyString) O text in
  let text := sub_spaces_newline O text in
  let text := sub_runs newline 3 (String newline (String newline EmptyString))
                       O text in
  strip text.

(* ================================================================== *)
(** * [get_entry] and [get_feed]                                        *)
(* ================================================================== *)

Fixpoint replace_char (old new : ascii) (s : string) : string :=
  match s with
  | EmptyString => EmptyString
  | String c s' =>
      String (if Ascii.eqb c old then new else c) (replace_char old new s')
  end.

Fixpoint remove_char (old : ascii) (s : string) : string :=
  match s with
  | EmptyString => EmptyString
  | String c s' =>
      if Ascii.eqb c old then remove_char old s'
      else String c (remove_char old s')
  end.

(** ['#{}'.format(tag['term'].replace(' ', '_').replace('.', '').replace('-', ''))] *)
Definition hashtag (tag : Tag) : result string :=
  t <- getattr (term tag) ;;
  Ok ("#"%string +++ remove_char "-" (remove_char "." (replace_char " " "_" t))).

(** [dateutil.parser.parse(entry['updated'])] *)
Definition parsed_updated (entry : RawEntry) : result datetime :=
  text <- getitem "updated" (raw_updated entry) ;;
  dateutil_parse text.

Definition get_entry (entry : RawEntry) : result Entry :=
  tags <- mapM hashtag (get (raw_tags entry) []) ;;
  let summary := get (raw_summary entry) EmptyString in
  let content :=
    match raw_content entry with
    | Some (block :: _) => cleanup (get (value block) EmptyString)
    | _ => EmptyString
    end in
  url <- match raw_id entry with
         | Some i => Ok i
         | None => getattr (raw_link entry)
         end ;;
  link <- getattr (raw_link entry) ;;
  title <- getattr (raw_title entry) ;;
  updated <- parsed_updated entry ;;
  Ok (mkentry url link (cleanup title) (cleanup summary) content
              (join " " tags) updated).

(** [dateutil.parser.parse(e['updated']) > last_update] *)
Definition newer (last_update : datetime) (e : RawEntry) : result bool :=
  d <- parsed_updated e ;;
  Datetime.gt d last_update.

(** [lambda e: e.updated_parsed] *)
Definition sort_key (e : RawEntry) : result (option struct_time) :=
  getattr (updated_parsed e).

Definition key_of (e : RawEntry) : option struct_time :=
  match updated_parsed e with Some k => k | None => None end.

Definition key_ltb (a b : option struct_time) : bool :=
  match a, b with
  | Some x, Some y => struct_time_ltb x y
  | _, _ => false
  end.

Definition is_None {A : Type} (o : option A) : bool :=
  match o with None => true | Some _ => false end.

(** [entries.sort(key=lambda e: e.updated_parsed)].  The keys are computed
    first; a sort of two elements or more compares every key at least once,
    and comparing [None] raises [TypeError]. *)
Definition sort_entries (entries : list RawEntry) : result (list RawEntry) :=
  keys <- mapM sort_key entries ;;
  if (2 <=? List.length entries)%nat && existsb is_None keys then Raise TypeError
  else Ok (Py.sort key_of key_ltb entries).

(** [get_feed] is a generator.  Fetching, filtering and sorting run when the
    first entry is asked for and may raise; then each entry is built by
    [get_entry] when it is asked for, which may raise in turn. *)
Definition get_feed (feed_url : string) (last_update : option datetime)
  : result (list (result Entry)) :=
  let feed := feedparser_parse feed_url in
  entries <- match last_update with
             | Some w => filterM (newer w) feed
             | None => Ok feed
             end ;;
  sorted <- sort_entries entries ;;
  Ok (map get_entry sorted).

(** [list(get_feed(feed_url, last_update))] *)
Definition fetch (feed_url : string) (last_update : option datetime)
  : result (list Entry) :=
  items <- get_feed feed_url last_update ;;
  mapM (fun item => item) items.

(* ================================================================== *)
(** * [read_config], [save_config] and [main]                           *)
(* ================================================================== *)

Definition read_config (file : ConfigFile) : result Config :=
  match cfg_updated file with
  | None => Ok (set_updated file min_utc)
  | Some text => d <- dateutil_parse text ;; Ok (set_updated file d)
  end.

(** [config['updated'] = newest_post.isoformat()] followed by
    [save_config(config, config_file)]: the file now holds the dict. *)
Definition save_config (config : Config) (newest_post : datetime) : ConfigFile :=
  set_updated config (Some (isoformat newest_post)).

(** The variables of [main] that change, and the events so far. *)
Record State : Type := mkstate {
  has_error : bool;
  newest_post : datetime;
  trace : list Event
}.

Definition log (ev : Event) (st : State) : State :=
  mkstate (has_error st) (newest_post st) (trace st ++ [ev]).

(** How one turn of the inner loop ends. *)
Inductive Control : Type :=
| Continue
| Break
| Uncaught (e : exn).

(** [feed['template'].format( **entry )[:config.get('max_chars', 500)]] *)
Definition compose (config : Config) (feed : Feed) (entry : Entry) : result Status :=
  text <- format render_other (feed_template feed) (entry_kwargs entry) ;;
  Ok (mkstatus (slice_to text (get (cfg_max_chars config) 500))
               (cfg_visibility config)).

(** The body of [for entry in get_feed(...)]. *)
Definition body (args : Args) (config : Config) (feed : Feed)
                (entry : Entry) (st : State) : State * Control :=
  let st := log (EvEntry entry) st in
  match Datetime.max (newest_post st) (updated entry) with
  | Raise e => (st, Uncaught e)
  | Ok newest =>
      let st := mkstate (has_error st) newest (trace st) in
      match compose config feed entry with
      | Raise e => (st, Uncaught e)
      | Ok s =>
          if dry_run args then (log (EvPprint s) st, Continue)
          else
            match status_post (trace st) s with
            | Ok tt => (log EvSleep (log (EvPost s (Ok tt)) st), Continue)
            | Raise MastodonError =>
                let st := log (EvPost s (Raise MastodonError)) st in
                (mkstate true (newest_post st) (trace st), Break)
            | Raise e => (log (EvPost s (Raise e)) st, Uncaught e)
            end
      end
  end.

(** The inner loop over what the generator yields.  [None]: the loop ended
    (exhausted, or left by [break]); [Some e]: [e] was raised. *)
Fixpoint for_entries (args : Args) (config : Config) (feed : Feed)
                     (items : list (result Entry)) (st : State)
  : State * option exn :=
  match items with
  | [] => (st, None)
  | Raise e :: _ => (st, Some e)
  | Ok entry :: items' =>
      match body args config feed entry st with
      | (st', Continue) => for_entries args config feed items' st'
      | (st', Break) => (st', None)
      | (st', Uncaught e) => (st', Some e)
      end
  end.

(** One turn of [for feed in config['feeds']]. *)
Definition for_feed (args : Args) (config : Config) (feed : Feed) (st : State)
  : State * option exn :=
  let st := log (EvFetch (feed_url feed)) st in
  match get_feed (feed_url feed) (Some (cfg_updated config)) with
  | Raise e => (st, Some e)
  | Ok items => for_entries args config feed items st
  end.

Fixpoint for_feeds (args : Args) (config : Config) (feeds : list Feed) (st : State)
  : State * option exn :=
  match feeds with
  | [] => (st, None)
  | feed :: feeds' =>
      match for_feed args config feed st with
      | (st', None) => for_feeds args config feeds' st'
      | (st', Some e) => (st', Some e)
      end
  end.

(** How the process ends: [sys.exit(code)], or an exception nobody caught. *)
Inductive Outcome : Type :=
| Exit (code : Z)
| Crash (e : exn).

(** The status the process ends with: the argument of [sys.exit], or 1 when
    an exception that nobody caught ends it (the interpreter prints the
    traceback and exits with 1). *)
Definition exit_status (o : Outcome) : Z :=
  match o with
  | Exit code => code
  | Crash _ => 1
  end.

(** A run: what happened, what the configuration file holds afterwards,
    and how the process ended. *)
Record Run : Type := mkrun {
  events : list Event;
  file_after : ConfigFile;
  outcome : Outcome
}.

(** [main], from [read_config] on, for a configuration file that exists. *)
Definition main (args : Args) (file : ConfigFile) : Run :=
  match read_config file with
  | Raise e => mkrun [] file (Crash e)
  | Ok config =>
      match for_feeds args config (cfg_feeds config)
                      (mkstate false (cfg_updated config) []) with
      | (st, Some e) => mkrun (trace st) file (Crash e)
      | (st, None) =>
          let code := if has_error st then 1 else 0 in
          if dry_run args then mkrun (trace st) file (Exit code)
          else
            let saved := save_config config (newest_post st) in
            mkrun (trace st ++ [EvSave saved]) saved (Exit code)
      end
  end.

End Program.

(* ================================================================== *)
(** * A concrete world                                                  *)
(* ================================================================== *)

(** The examples below run the program in a small world: four feeds with
    ISO-8601 dates, listed newest first, a dateutil that reads exactly
    those, text without markup, and a server that refuses the status
    ["A1"]. *)

Module Demo.

Definition entry_at (name : string) (text : string) (h mi : Z) : RawEntry :=
  mkraw (Some name) (Some ("http://x/" +++ name)) (Some name) None None None
        (Some text) (Some (Some (mktime 2024 1 1 h mi 0 0 1 0))).

Definition a1 : RawEntry := entry_at "A1" "2024-01-01T10:00:00+00:00" 10 0.
Definition a2 : RawEntry := entry_at "A2" "2024-01-01T10:05:00+00:00" 10 5.
Definition b1 : RawEntry := entry_at "B1" "2024-01-01T10:20:00+00:00" 10 20.
Definition b2 : RawEntry := entry_at "B2" "2024-01-01T10:30:00+00:00" 10 30.
Definition t1 : RawEntry := entry_at "T1" "2024-01-01T10:00:00+00:00" 10 0.
Definition t2 : RawEntry := entry_at "T2" "2024-01-01T10:00:00+00:00" 10 0.

(** Two entries of the same second, newest first, as feedparser gives them:
    [updated_parsed] has no room for the fraction. *)
Definition s1 : RawEntry := entry_at "S1" "2024-01-01T10:00:00.900000+00:00" 10 0.
Definition s2 : RawEntry := entry_at "S2" "2024-01-01T10:00:00.100000+00:00" 10 0.

Definition feedparser (feed_url : string) : list RawEntry :=
  if String.eqb feed_url "A" then [a2; a1]
  else if String.eqb feed_url "B" then [b2; b1]
  else if String.eqb feed_url "T" then [t1; t2]
  else if String.eqb feed_url "S" then [s1; s2]
  else [].

Definition dateutil (text : string) : result datetime :=
  match iso_parse text with
  | Some d => Ok d
  | None => Raise ParserError
  end.

Definition server (history : list Event) (s : Status) : result unit :=
  if String.eqb (status s) "A1" then Raise MastodonError else Ok tt.

#[local] Instance world : Externals := {|
  feedparser_parse := feedparser;
  dateutil_parse := dateutil;
  html_get_text := fun text => text;
  status_post := server;
  render_other := fun _ _ _ => Raise TypeError
|}.

Definition at_time (h mi : Z) : datetime := mkdt 2024 1 1 h mi 0 0 (Some 0).

(** What [get_entry] makes of [entry_at name _ h mi]. *)
Definition entry (name : string) (h mi : Z) : Entry :=
  mkentry name ("http://x/" +++ name) name EmptyString EmptyString EmptyString
          (at_time h mi).

Definition config_file (feeds : list Feed) (max_chars : option Z)
                       (updated : option string) : ConfigFile :=
  mkconfig "https://social.example" "token" feeds max_chars
           (Some "unlisted"%string) [] updated.

Definition live : Args := mkargs false false.
Definition dry : Args := mkargs true false.

(** Feeds ["A"] and ["B"], each posting the title, no watermark yet. *)
Definition two_feeds : ConfigFile :=
  config_file [mkfeed "A" "{title}"; mkfeed "B" "{title}"] None None.

(** The same with a placeholder no entry has in the first template. *)
Definition unknown_field : ConfigFile :=
  config_file [mkfeed "A" "{foo}"; mkfeed "B" "{title}"] None None.

Definition unlisted (text : string) : Status :=
  mkstatus text (Some "unlisted"%string).

End Demo.

(** Two more small worlds: one with a feed that cannot be fetched, one with
    a server that accepts everything. *)

Module Broken.

(** Feed ["N"] gives a date without timezone; the other feeds are those of
    [Demo]. *)
Definition feedparser (feed_url : string) : list RawEntry :=
  if String.eqb feed_url "N"
  then [Demo.entry_at "N1" "2024-01-01T10:00:00" 10 0]
  else Demo.feedparser feed_url.

#[local] Instance world : Externals := {|
  feedparser_parse := feedparser;
  dateutil_parse := Demo.dateutil;
  html_get_text := fun text => text;
  status_post := Demo.server;
  render_other := fun _ _ _ => Raise TypeError
|}.

(** Feed ["B"], then the feed without timezone, then feed ["A"]. *)
Definition three_feeds : ConfigFile :=
  Demo.config_file [mkfeed "B" "{title}"; mkfeed "N" "{title}";
                    mkfeed "A" "{title}"] None None.

(** Feed ["A"], then the feed without timezone, then feed ["B"]. *)
Definition refused_first : ConfigFile :=
  Demo.config_file [mkfeed "A" "{title}"; mkfeed "N" "{title}";
                    mkfeed "B" "{title}"] None None.

End Broken.

(** A server that accepts every post; the rest is [Demo]. *)
Module Accepting.

#[local] Instance world : Externals := {|
  feedparser_parse := Demo.feedparser;
  dateutil_parse := Demo.dateutil;
  html_get_text := fun text => text;
  status_post := fun _ _ => Ok tt;
  render_other := fun _ _ _ => Raise TypeError
|}.

End Accepting.

(* ================================================================== *)
(** * Properties                                                        *)
(* ================================================================== *)

(** ** Reading back what [isoformat] writes *)

Lemma append_assoc (a b c : string) : (a +++ b) +++ c = a +++ (b +++ c).
Proof.
  induction a as [|x a IH]; simpl; [reflexivity | now rewrite IH].
Qed.

Lemma append_nil_r (a : string) : a +++ EmptyString = a.
Proof.
  induction a as [|x a IH]; simpl; [reflexivity | now rewrite IH].
Qed.

Lemma digit_val_digit (d : Z) : 0 <= d <= 9 -> digit_val (digit d) = Some d.
Proof.
  intros H.
  assert (C : d = 0 \/ d = 1 \/ d = 2 \/ d = 3 \/ d = 4 \/ d = 5 \/ d = 6
              \/ d = 7 \/ d = 8 \/ d = 9) by lia.
  repeat (destruct C as [C | C]; [subst d; reflexivity | ]).
  subst d; reflexivity.
Qed.

Lemma read_num_app (k j : nat) (acc : Z) (s : string) :
  read_num (k + j) acc s =
  obind (read_num k acc s) (fun '(a, s') => read_num j a s').
Proof.
  revert acc s.
  induction k as [|k IH]; intros acc s; simpl; [reflexivity | ].
  destruct s as [|c s]; [reflexivity | ].
  destruct (digit_val c); [apply IH | reflexivity].
Qed.

Lemma read_num_pad (k : nat) :
  forall n acc rest,
    0 <= n < 10 ^ Z.of_nat k ->
    read_num k acc (pad k n +++ rest) = Some (acc * 10 ^ Z.of_nat k + n, rest).
Proof.
  induction k as [|k IH]; intros n acc rest Hn.
  - cbn [pad read_num append Z.of_nat] in *. f_equal. f_equal. lia.
  - replace (S k) with (k + 1)%nat at 1 by lia.
    rewrite read_num_app. cbn [pad]. rewrite append_assoc.
    assert (Hpow : 10 ^ Z.of_nat (S k) = 10 * 10 ^ Z.of_nat k).
    { rewrite Nat2Z.inj_succ, Z.pow_succ_r; lia. }
    rewrite Hpow in *.
    assert (Hq : 0 <= n / 10 < 10 ^ Z.of_nat k).
    { split; [apply Z.div_pos; lia | apply Z.div_lt_upper_bound; lia]. }
    rewrite (IH (n / 10) acc _ Hq). cbn [obind read_num append].
    rewrite digit_val_digit by (pose proof (Z.mod_pos_bound n 10); lia).
    f_equal. f_equal.
    pose proof (Z.div_mod n 10). lia.
Qed.

Lemma read_num_pad0 (k : nat) (n : Z) (rest : string) :
  0 <= n < 10 ^ Z.of_nat k ->
  read_num k 0 (pad k n +++ rest) = Some (n, rest).
Proof.
  intros H. rewrite read_num_pad by assumption. reflexivity.
Qed.

Lemma read_num_pad_end (k : nat) (n : Z) :
  0 <= n < 10 ^ Z.of_nat k -> read_num k 0 (pad k n) = Some (n, EmptyString).
Proof.
  intros H. rewrite <- (append_nil_r (pad k n)).
  now apply read_num_pad0.
Qed.

Lemma valid_datetime_bounds (d : datetime) :
  valid_datetime d ->
  1 <= year d <= 9999 /\ 1 <= month d <= 12 /\
  1 <= day d <= days_in_month (year d) (month d) /\
  0 <= hour d < 24 /\ 0 <= minute d < 60 /\ 0 <= second d < 60 /\
  0 <= microsecond d < 1000000 /\
  (forall off, tzinfo d = Some off -> -1440 < off < 1440).
Proof.
  unfold valid_datetime, valid_datetimeb, MINYEAR, MAXYEAR. intros H.
  repeat (apply andb_prop in H; destruct H as [H ?]).
  repeat match goal with
         | h : (_ <=? _) = true |- _ => apply Z.leb_le in h
         | h : (_ <? _) = true |- _ => apply Z.ltb_lt in h
         end.
  repeat (split; [lia | ]).
  intros off E. rewrite E in *.
  match goal with h : (_ && _)%bool = true |- _ =>
    apply andb_prop in h; destruct h as [h1 h2];
    apply Z.ltb_lt in h1; apply Z.ltb_lt in h2; lia end.
Qed.

Lemma days_in_month_le (y m : Z) : days_in_month y m <= 31.
Proof.
  unfold days_in_month.
  repeat match goal with |- context [if ?b then _ else _] => destruct b end; lia.
Qed.


Lemma read_offset_format (off : Z) :
  -1440 < off < 1440 -> read_offset (format_offset off) = Some (Some off).
Proof.
  intros H. unfold format_offset.
  assert (Ha : 0 <= Z.abs off < 1440) by lia.
  assert (Hh : 0 <= Z.abs off / 60 < 24).
  { split; [apply Z.div_pos; lia | apply Z.div_lt_upper_bound; lia]. }
  assert (Hm : 0 <= Z.abs off mod 60 < 60) by (apply Z.mod_pos_bound; lia).
  assert (E : Z.abs off = 60 * (Z.abs off / 60) + Z.abs off mod 60)
    by (apply Z.div_mod; lia).
  assert (P2 : 10 ^ Z.of_nat 2 = 100) by reflexivity.
  assert (B1 : (Z.abs off / 60 <? 24) = true) by (apply Z.ltb_lt; lia).
  assert (B2 : (Z.abs off mod 60 <? 60) = true) by (apply Z.ltb_lt; lia).
  destruct (off <? 0) eqn:S;
    cbn [append read_offset Ascii.eqb orb Bool.eqb];
    rewrite read_num_pad0 by lia; cbn [obind expect append Ascii.eqb Bool.eqb];
    rewrite read_num_pad_end by lia; cbn [obind];
    rewrite B1, B2; cbn [andb];
    f_equal; f_equal;
    [apply Z.ltb_lt in S | apply Z.ltb_ge in S]; lia.
Qed.

Lemma read_fraction_format (us : Z) (tail : string) :
  0 <= us < 1000000 ->
  (forall t, tail <> String "." t) ->
  read_fraction
    ((if us =? 0 then EmptyString else "."%string +++ pad 6 us) +++ tail)
  = Some (us, tail).
Proof.
  intros Hus Ht.
  assert (P6 : 10 ^ Z.of_nat 6 = 1000000) by reflexivity.
  destruct (us =? 0) eqn:E.
  - apply Z.eqb_eq in E. subst us. cbn [append].
    destruct tail as [|c t]; [reflexivity | ].
    unfold read_fraction.
    destruct (Ascii.ascii_dec c ".") as [-> | Hc]; [now elim (Ht t) | ].
    destruct c as [[] [] [] [] [] [] [] []]; try reflexivity.
    now elim Hc.
  - cbn [append read_fraction]. now apply read_num_pad0; lia.
Qed.

Lemma iso_parse_isoformat (d : datetime) :
  valid_datetime d -> iso_parse (isoformat d) = Some d.
Proof.
  intros V. pose proof (valid_datetime_bounds d V) as B.
  destruct B as (By & Bmo & Bd & Bh & Bmi & Bs & Bus & Btz).
  pose proof (days_in_month_le (year d) (month d)) as Hdim.
  assert (P2 : 10 ^ Z.of_nat 2 = 100) by reflexivity.
  assert (P4 : 10 ^ Z.of_nat 4 = 10000) by reflexivity.
  unfold iso_parse, isoformat, isoformat_sep.
  do 6 (rewrite read_num_pad0 by lia;
        cbn [obind expect append Ascii.eqb Bool.eqb]).
  rewrite read_fraction_format; [ | assumption | ].
  - cbn [obind]. destruct d as [y mo dd h mi s us tz]. cbn in Btz |- *.
    unfold valid_datetime in V.
    destruct tz as [off|].
    + rewrite read_offset_format by (now apply Btz). cbn [obind].
      now rewrite V.
    + cbn [read_offset obind]. now rewrite V.
  - intros t. destruct (tzinfo d) as [off|]; [ | discriminate].
    unfold format_offset. destruct (off <? 0); discriminate.
Qed.


(** ** Tuple comparison is a strict order *)

Definition tuple_le (a b : list Z) : Prop := tuple_ltb b a = false.

Lemma tuple_ltb_irrefl (a : list Z) : tuple_ltb a a = false.
Proof.
  induction a as [|x a IH]; cbn [tuple_ltb]; [reflexivity | ].
  rewrite Z.ltb_irrefl. exact IH.
Qed.

Lemma tuple_ltb_asym (a b : list Z) :
  tuple_ltb a b = true -> tuple_ltb b a = false.
Proof.
  revert b. induction a as [|x a IH]; intros [|y b]; cbn [tuple_ltb];
    try congruence.
  destruct (x <? y) eqn:E1; destruct (y <? x) eqn:E2;
    try apply Z.ltb_lt in E1; try apply Z.ltb_lt in E2; try lia; auto.
Qed.

Lemma tuple_le_trans (a b c : list Z) :
  tuple_le a b -> tuple_le b c -> tuple_le a c.
Proof.
  unfold tuple_le. revert b c.
  induction a as [|x a IH]; intros [|y b] [|z c]; cbn [tuple_ltb];
    try congruence.
  destruct (y <? x) eqn:E1; [congruence | ].
  destruct (x <? y) eqn:E2; destruct (z <? y) eqn:E3; try congruence;
    destruct (y <? z) eqn:E4; destruct (z <? x) eqn:E5;
    destruct (x <? z) eqn:E6;
    repeat match goal with
           | h : (_ <? _) = true |- _ => apply Z.ltb_lt in h
           | h : (_ <? _) = false |- _ => apply Z.ltb_ge in h
           end; try lia; try congruence.
  intros H1 H2. eapply IH; eassumption.
Qed.

(** ** [list.sort]: a sorted permutation *)

Section SortFacts.

Context {A K : Type}.
Variable key : A -> K.
Variable ltb : K -> K -> bool.

(** [x] may stand before [y]: [y]'s key is not below [x]'s. *)
Definition key_le (x y : A) : Prop := ltb (key y) (key x) = false.

(** The elements whose keys can be compared. *)
Variable good : A -> Prop.
Hypothesis ltb_asym :
  forall x y, good x -> good y ->
              ltb (key x) (key y) = true -> ltb (key y) (key x) = false.
Hypothesis le_trans :
  forall x y z, good x -> good y -> good z ->
                key_le x y -> key_le y z -> key_le x z.

Lemma insert_Permutation (x : A) (l : list A) :
  Permutation (x :: l) (Py.insert key ltb x l).
Proof.
  induction l as [|y l IH]; cbn [Py.insert]; [reflexivity | ].
  destruct (ltb (key y) (key x)); [ | reflexivity].
  rewrite perm_swap. now apply perm_skip.
Qed.

Lemma sort_Permutation (l : list A) : Permutation l (Py.sort key ltb l).
Proof.
  induction l as [|x l IH]; cbn [Py.sort]; [reflexivity | ].
  rewrite <- insert_Permutation. now apply perm_skip.
Qed.

Lemma insert_Forall (P : A -> Prop) (x : A) (l : list A) :
  P x -> Forall P l -> Forall P (Py.insert key ltb x l).
Proof.
  intros Hx Hl.
  apply (Permutation_Forall (insert_Permutation x l)). now constructor.
Qed.

Lemma sort_Forall (P : A -> Prop) (l : list A) :
  Forall P l -> Forall P (Py.sort key ltb l).
Proof.
  intros H. exact (Permutation_Forall (sort_Permutation l) H).
Qed.

Lemma insert_sorted (x : A) (l : list A) :
  good x -> Forall good l ->
  StronglySorted key_le l -> StronglySorted key_le (Py.insert key ltb x l).
Proof.
  intros Gx. induction l as [|y l IH]; intros Gl S; cbn [Py.insert].
  - repeat constructor.
  - inversion Gl as [|? ? Gy Gl']; subst.
    inversion S as [|? ? S' Fy]; subst.
    destruct (ltb (key y) (key x)) eqn:E.
    + constructor; [now apply IH | ].
      apply insert_Forall; [ | assumption].
      unfold key_le. now apply ltb_asym.
    + constructor; [assumption | ].
      constructor; [exact E | ].
      rewrite Forall_forall in *. intros z Hz.
      apply (le_trans x y z); auto.
Qed.

Lemma sort_sorted (l : list A) :
  Forall good l -> StronglySorted key_le (Py.sort key ltb l).
Proof.
  induction l as [|x l IH]; intros G; cbn [Py.sort]; [constructor | ].
  inversion G; subst.
  apply insert_sorted; auto. now apply sort_Forall.
Qed.

(** Stability: elements that the order does not tell apart keep their
    places with respect to each other; here, for the elements selected by
    any test [p] that the keys decide. *)
Lemma insert_stable (p : A -> bool) (x : A) (l : list A) :
  Forall good (x :: l) ->
  StronglySorted key_le l ->
  (forall y, In y l -> p y = true -> p x = true -> key_le x y) ->
  filter p (Py.insert key ltb x l) = filter p (x :: l).
Proof.
  induction l as [|y l IH]; intros G S Hp; cbn [Py.insert]; [reflexivity | ].
  destruct (ltb (key y) (key x)) eqn:E; [ | reflexivity].
  inversion S; subst.
  assert (G' : Forall good (x :: l)).
  { inversion G as [|? ? ? G1]; inversion G1; subst. now constructor. }
  cbn [filter]. rewrite IH; auto.
  - cbn [filter]. destruct (p y) eqn:Py; destruct (p x) eqn:Px; try reflexivity.
    exfalso. specialize (Hp y (or_introl eq_refl) Py eq_refl).
    unfold key_le in Hp. congruence.
  - intros z Hz Pz Px. apply Hp; auto. now right.
Qed.

Hypothesis ltb_irrefl : forall x, good x -> ltb (key x) (key x) = false.

Lemma sort_stable (p : A -> bool) (l : list A) :
  Forall good l ->
  (forall x y, In x l -> In y l -> p x = true -> p y = true -> key x = key y) ->
  filter p (Py.sort key ltb l) = filter p l.
Proof.
  induction l as [|x l IH]; intros G Same; cbn [Py.sort]; [reflexivity | ].
  inversion G as [|? ? Gx Gl]; subst.
  rewrite insert_stable.
  - cbn [filter]. rewrite IH; [reflexivity | assumption | ].
    intros a b Ha Hb. apply Same; now right.
  - constructor; [assumption | now apply sort_Forall].
  - now apply sort_sorted.
  - intros y Hy Py Px. unfold key_le.
    apply (Permutation_in _ (Permutation_sym (sort_Permutation l))) in Hy.
    rewrite <- (Same x y (or_introl eq_refl) (or_intror Hy) Px Py).
    now apply ltb_irrefl.
Qed.

End SortFacts.

(** ** Comprehensions that may raise *)

Lemma bind_Ok {A B : Type} (m : result A) (k : A -> result B) (b : B) :
  Py.bind m k = Ok b -> exists a, m = Ok a /\ k a = Ok b.
Proof.
  destruct m as [a|e]; cbn [Py.bind]; [eauto | discriminate].
Qed.

Ltac bind_inv H :=
  let a := fresh "a" in
  let E := fresh "E" in
  apply bind_Ok in H; destruct H as (a & E & H).

Lemma mapM_Forall2 {A B : Type} (f : A -> result B) (l : list A) (l' : list B) :
  mapM f l = Ok l' <-> Forall2 (fun x y => f x = Ok y) l l'.
Proof.
  revert l'. induction l as [|x l IH]; intros l'; cbn [mapM]; split.
  - intros H. injection H as <-. constructor.
  - intros H. now inversion H.
  - intros H. bind_inv H. bind_inv H. injection H as <-.
    constructor; [assumption | now apply IH].
  - intros H. inversion H as [|? y ? ys Hy Hys]; subst.
    rewrite Hy. cbn [Py.bind]. apply IH in Hys. rewrite Hys. reflexivity.
Qed.

Lemma mapM_id_map {A B : Type} (f : A -> result B) (l : list A) :
  mapM (fun item => item) (map f l) = mapM f l.
Proof.
  induction l as [|x l IH]; cbn [mapM map]; [reflexivity | ].
  now rewrite IH.
Qed.

Definition holds {A : Type} (p : A -> result bool) (x : A) : bool :=
  match p x with Ok true => true | _ => false end.

Lemma filterM_filter {A : Type} (p : A -> result bool) (l l' : list A) :
  filterM p l = Ok l' ->
  l' = filter (holds p) l /\ Forall (fun x => exists b, p x = Ok b) l.
Proof.
  revert l'. induction l as [|x l IH]; intros l' H; cbn [filterM] in H.
  - injection H as <-. split; constructor.
  - bind_inv H. bind_inv H. injection H as <-.
    destruct (IH _ E0) as [-> F]. split.
    + cbn [filter]. replace (holds p x) with a; [reflexivity | ].
      unfold holds. rewrite E. now destruct a.
    + constructor; eauto.
Qed.

Lemma filterM_total {A : Type} (p : A -> result bool) (l : list A) :
  Forall (fun x => exists b, p x = Ok b) l ->
  filterM p l = Ok (filter (holds p) l).
Proof.
  induction 1 as [|x l [b Hb] _ IH]; cbn [filterM filter]; [reflexivity | ].
  replace (holds p x) with b by (unfold holds; rewrite Hb; now destruct b).
  rewrite Hb, IH. reflexivity.
Qed.

(** ** What [get_feed] yields *)

Definition dt_lt (a b : datetime) : Prop := utc_micros a < utc_micros b.
Definition dt_le (a b : datetime) : Prop := utc_micros a <= utc_micros b.

Section FetchFacts.

Context {ext : Externals}.

(** The entries the filter keeps: those whose parsed [updated] is strictly
    after the watermark. *)
Definition is_newer (w : datetime) (e : RawEntry) : bool :=
  match parsed_updated e with
  | Ok d => utc_micros w <? utc_micros d
  | Raise _ => false
  end.

Definition comparable (w : datetime) (e : RawEntry) : Prop :=
  exists d, parsed_updated e = Ok d /\ aware d = aware w.

Definition has_key (e : RawEntry) : Prop := exists k, key_of e = Some k.

Lemma gt_Ok (a b : datetime) (c : bool) :
  Datetime.gt a b = Ok c ->
  aware a = aware b /\ c = (utc_micros b <? utc_micros a).
Proof.
  unfold Datetime.gt. destruct (Bool.eqb (aware a) (aware b)) eqn:E;
    [ | discriminate].
  intros H. injection H as <-. split; [now apply Bool.eqb_prop | reflexivity].
Qed.

Lemma gt_comparable (a b : datetime) :
  aware a = aware b -> Datetime.gt a b = Ok (utc_micros b <? utc_micros a).
Proof.
  intros E. unfold Datetime.gt. rewrite E, Bool.eqb_reflx. reflexivity.
Qed.

Lemma newer_Ok (w : datetime) (e : RawEntry) (b : bool) :
  newer w e = Ok b -> comparable w e /\ b = is_newer w e.
Proof.
  unfold newer, is_newer, comparable. intros H. bind_inv H.
  apply gt_Ok in H. destruct H as [Ha ->]. rewrite E. eauto.
Qed.

Lemma holds_newer (w : datetime) (l : list RawEntry) :
  Forall (fun e => exists b, newer w e = Ok b) l ->
  filter (holds (newer w)) l = filter (is_newer w) l.
Proof.
  induction 1 as [|e l [b Hb] _ IH]; cbn [filter]; [reflexivity | ].
  rewrite IH. unfold holds. rewrite Hb.
  apply newer_Ok in Hb. destruct Hb as [_ ->]. now destruct (is_newer w e).
Qed.

Lemma get_entry_updated (r : RawEntry) (e : Entry) :
  get_entry r = Ok e -> parsed_updated r = Ok (updated e).
Proof.
  unfold get_entry. intros H. do 5 bind_inv H.
  injection H as <-. assumption.
Qed.

Lemma sort_entries_Ok (l l' : list RawEntry) :
  sort_entries l = Ok l' ->
  l' = Py.sort key_of key_ltb l /\
  ((List.length l < 2)%nat \/ Forall has_key l).
Proof.
  unfold sort_entries. intros H. bind_inv H.
  destruct ((2 <=? List.length l)%nat && existsb is_None a) eqn:C;
    [discriminate | ].
  injection H as <-. split; [reflexivity | ].
  apply andb_false_iff in C. destruct C as [C | C].
  - left. apply Nat.leb_gt in C. exact C.
  - right. apply mapM_Forall2 in E. clear - E C.
    induction E as [|x k l ks Hx _ IH]; constructor.
    + cbn [existsb] in C. apply orb_false_iff in C. destruct C as [C _].
      unfold sort_key, getattr in Hx. unfold has_key, key_of.
      destruct (updated_parsed x) as [o|]; [ | discriminate].
      injection Hx as ->. destruct k; [eauto | discriminate].
    + apply IH. cbn [existsb] in C. apply orb_false_iff in C. tauto.
Qed.

(** The raw entries a fetch is made of, in the order they are yielded. *)
Definition selected (feed_url : string) (last_update : option datetime)
  : list RawEntry :=
  Py.sort key_of key_ltb
    match last_update with
    | Some w => filter (is_newer w) (feedparser_parse feed_url)
    | None => feedparser_parse feed_url
    end.

Definition few_or_keyed (l : list RawEntry) : Prop :=
  (List.length l < 2)%nat \/ Forall has_key l.

Lemma get_feed_Ok (feed_url : string) (last_update : option datetime)
                  (items : list (result Entry)) :
  get_feed feed_url last_update = Ok items ->
  items = map get_entry (selected feed_url last_update) /\
  few_or_keyed (selected feed_url last_update) /\
  match last_update with
  | Some w => Forall (comparable w) (feedparser_parse feed_url)
  | None => True
  end.
Proof.
  unfold get_feed, selected. intros H. bind_inv H. bind_inv H.
  injection H as <-. apply sort_entries_Ok in E0. destruct E0 as [-> K].
  assert (K' : few_or_keyed (Py.sort key_of key_ltb a)).
  { destruct K as [K | K]; [left | right].
    - now rewrite <- (Permutation_length (sort_Permutation key_of key_ltb a)).
    - now apply sort_Forall. }
  destruct last_update as [w|].
  - apply filterM_filter in E. destruct E as [-> F].
    rewrite holds_newer in * by assumption.
    split; [reflexivity | split; [exact K' | ]].
    rewrite Forall_forall in *. intros e He.
    destruct (F e He) as [b Hb]. now apply newer_Ok in Hb.
  - injection E as <-. split; [reflexivity | split; [exact K' | exact I]].
Qed.

Lemma fetch_Ok (feed_url : string) (last_update : option datetime)
               (out : list Entry) :
  fetch feed_url last_update = Ok out ->
  Forall2 (fun r e => get_entry r = Ok e) (selected feed_url last_update) out /\
  few_or_keyed (selected feed_url last_update) /\
  match last_update with
  | Some w => Forall (comparable w) (feedparser_parse feed_url)
  | None => True
  end.
Proof.
  unfold fetch. intros H. bind_inv H.
  apply get_feed_Ok in E. destruct E as (-> & K & F).
  rewrite mapM_id_map in H. apply mapM_Forall2 in H. now repeat split.
Qed.

Lemma selected_Permutation (feed_url : string) (last_update : option datetime) :
  Permutation (selected feed_url last_update)
    match last_update with
    | Some w => filter (is_newer w) (feedparser_parse feed_url)
    | None => feedparser_parse feed_url
    end.
Proof.
  unfold selected. symmetry. apply sort_Permutation.
Qed.


Lemma key_ltb_asym (x y : RawEntry) :
  has_key x -> has_key y ->
  key_ltb (key_of x) (key_of y) = true -> key_ltb (key_of y) (key_of x) = false.
Proof.
  intros [kx ->] [ky ->]. apply tuple_ltb_asym.
Qed.

Lemma key_le_trans (x y z : RawEntry) :
  has_key x -> has_key y -> has_key z ->
  key_le key_of key_ltb x y -> key_le key_of key_ltb y z ->
  key_le key_of key_ltb x z.
Proof.
  unfold key_le. intros [kx ->] [ky ->] [kz ->]. cbn [key_ltb].
  unfold struct_time_ltb. intros H1 H2.
  exact (tuple_le_trans (as_tuple kx) (as_tuple ky) (as_tuple kz) H1 H2).
Qed.


Lemma key_ltb_irrefl (x : RawEntry) :
  has_key x -> key_ltb (key_of x) (key_of x) = false.
Proof.
  intros [k ->]. apply tuple_ltb_irrefl.
Qed.

(** Entries that share a key are yielded in the order of the feed. *)
Lemma selected_stable (feed_url : string) (last_update : option datetime)
      (p : RawEntry -> bool) :
  few_or_keyed (selected feed_url last_update) ->
  (forall x y, p x = true -> p y = true -> key_of x = key_of y) ->
  filter p (selected feed_url last_update)
  = filter p match last_update with
             | Some w => filter (is_newer w) (feedparser_parse feed_url)
             | None => feedparser_parse feed_url
             end.
Proof.
  unfold selected.
  set (kept := match last_update with
               | Some w => filter (is_newer w) (feedparser_parse feed_url)
               | None => feedparser_parse feed_url
               end).
  intros [Short | Keyed] Same.
  - rewrite <- (Permutation_length (sort_Permutation key_of key_ltb kept))
      in Short.
    destruct kept as [|x [|y l]]; [reflexivity | reflexivity | ].
    cbn [List.length] in Short. lia.
  - apply (sort_stable key_of key_ltb has_key key_ltb_asym key_le_trans
                       key_ltb_irrefl).
    + exact (Permutation_Forall
               (Permutation_sym (sort_Permutation key_of key_ltb kept)) Keyed).
    + intros x y _ _. apply Same.
Qed.

Lemma is_newer_lt (w : datetime) (r : RawEntry) (d : datetime) :
  parsed_updated r = Ok d -> (is_newer w r = true <-> dt_lt w d).
Proof.
  intros H. unfold is_newer, dt_lt. rewrite H. apply Z.ltb_lt.
Qed.

End FetchFacts.

(** ** Sorted lists *)



Lemma Forall2_In_r {A B : Type} (R : A -> B -> Prop) (l : list A) (l' : list B) :
  Forall2 R l l' -> forall y, In y l' -> exists x, In x l /\ R x y.
Proof.
  induction 1 as [|x x' l l' Hx _ IH]; intros y Hy; [easy | ].
  destruct Hy as [<- | Hy]; [exists x; simpl; auto | ].
  destruct (IH y Hy) as (x0 & ? & ?). exists x0; simpl; auto.
Qed.

(** ** The trace of a run *)

Definition entries_of (t : list Event) : list Entry :=
  flat_map (fun ev => match ev with EvEntry e => [e] | _ => [] end) t.

Definition fetches (t : list Event) : list string :=
  flat_map (fun ev => match ev with EvFetch u => [u] | _ => [] end) t.

Definition posts (t : list Event) : list (Status * result unit) :=
  flat_map (fun ev => match ev with EvPost s r => [(s, r)] | _ => [] end) t.

Definition pprints (t : list Event) : list Status :=
  flat_map (fun ev => match ev with EvPprint s => [s] | _ => [] end) t.

Definition saves (t : list Event) : list ConfigFile :=
  flat_map (fun ev => match ev with EvSave f => [f] | _ => [] end) t.

Definition is_failure (ev : Event) : bool :=
  match ev with
  | EvPost _ (Raise MastodonError) => true
  | _ => false
  end.

(** [max] without its [TypeError], for values that can be compared. *)
Definition later (a b : datetime) : datetime :=
  if utc_micros a <? utc_micros b then b else a.

(** The newest of a watermark and the entries seen after it. *)
Definition newest (w : datetime) (seen : list Entry) : datetime :=
  fold_left later (map updated seen) w.

Section RunFacts.

Context {ext : Externals}.

(** What the loop over one feed's entries does when it ends without an
    exception: in a dry run every entry is composed and printed; in a live
    run every entry is composed and posted, up to the first post the server
    refuses, where the loop stops. The flag tells whether it did. *)
Inductive entries_trace (dry : bool) (config : Config) (feed : Feed)
  : list (result Entry) -> list Event -> bool -> Prop :=
| trace_end :
    entries_trace dry config feed [] [] false
| trace_printed entry items s evs failed :
    dry = true ->
    compose config feed entry = Ok s ->
    entries_trace dry config feed items evs failed ->
    entries_trace dry config feed (Ok entry :: items)
                  (EvEntry entry :: EvPprint s :: evs) failed
| trace_posted entry items s evs failed :
    dry = false ->
    compose config feed entry = Ok s ->
    entries_trace dry config feed items evs failed ->
    entries_trace dry config feed (Ok entry :: items)
                  (EvEntry entry :: EvPost s (Ok tt) :: EvSleep :: evs) failed
| trace_refused entry items s :
    dry = false ->
    compose config feed entry = Ok s ->
    entries_trace dry config feed (Ok entry :: items)
                  [EvEntry entry; EvPost s (Raise MastodonError)] true.

(** The same for the loop over the feeds: each feed is fetched with the
    watermark of the configuration and its entries are gone through, whatever
    happened to the feeds before it. *)
Inductive feeds_trace (dry : bool) (config : Config)
  : list Feed -> list Event -> bool -> Prop :=
| feeds_end :
    feeds_trace dry config [] [] false
| feeds_next feed feeds items evs failed evs' failed' :
    get_feed (feed_url feed) (Some (cfg_updated config)) = Ok items ->
    entries_trace dry config feed items evs failed ->
    feeds_trace dry config feeds evs' failed' ->
    feeds_trace dry config (feed :: feeds)
                (EvFetch (feed_url feed) :: evs ++ evs') (failed || failed').

End RunFacts.

(** ** The loops of [main] *)

Section LoopFacts.

Context {ext : Externals}.

Lemma max_Ok (a b m : datetime) :
  Datetime.max a b = Ok m -> m = later a b /\ aware b = aware a.
Proof.
  unfold Datetime.max, later. intros H. bind_inv H.
  apply gt_Ok in E. destruct E as [Aw ->]. injection H as <-. now split.
Qed.

Lemma max_comparable (a b : datetime) :
  aware b = aware a -> Datetime.max a b = Ok (later a b).
Proof.
  intros Aw. unfold Datetime.max, later. now rewrite (gt_comparable b a Aw).
Qed.

(** One turn of the inner loop, case by case. *)
Lemma body_spec (args : Args) (config : Config) (feed : Feed) (entry : Entry)
      (st st' : State) (c : Control) :
  body args config feed entry st = (st', c) ->
  match c with
  | Continue =>
      exists s,
        compose config feed entry = Ok s /\
        newest_post st' = later (newest_post st) (updated entry) /\
        has_error st' = has_error st /\
        trace st' = trace st ++
          (if dry_run args then [EvEntry entry; EvPprint s]
           else [EvEntry entry; EvPost s (Ok tt); EvSleep])
  | Break =>
      exists s,
        compose config feed entry = Ok s /\
        newest_post st' = later (newest_post st) (updated entry) /\
        has_error st' = true /\ dry_run args = false /\
        trace st' = trace st ++ [EvEntry entry; EvPost s (Raise MastodonError)]
  | Uncaught e =>
      has_error st' = has_error st /\
      (Datetime.max (newest_post st) (updated entry) = Raise e /\
       trace st' = trace st ++ [EvEntry entry]
       \/ compose config feed entry = Raise e /\
          trace st' = trace st ++ [EvEntry entry]
       \/ exists s, compose config feed entry = Ok s /\ dry_run args = false /\
                    e <> MastodonError /\
                    trace st' = trace st ++ [EvEntry entry; EvPost s (Raise e)])
  end.
Proof.
  unfold body, log. cbn [newest_post has_error trace].
  destruct (Datetime.max (newest_post st) (updated entry)) as [m|e0] eqn:M.
  - apply max_Ok in M. destruct M as [-> _].
    destruct (compose config feed entry) as [s|e0] eqn:C.
    + destruct (dry_run args) eqn:D.
      * intros H. injection H as <- <-. exists s. cbn.
        rewrite <- app_assoc. auto.
      * cbn [newest_post has_error trace].
        destruct (status_post (trace st ++ [EvEntry entry]) s) as [[]|e0] eqn:P.
        -- intros H. injection H as <- <-. exists s. cbn.
           rewrite <- !app_assoc. auto.
        -- destruct e0; intros H; injection H as <- <-; cbn;
             try (split; [reflexivity | ]; right; right; exists s;
                  rewrite <- app_assoc;
                  repeat split; try reflexivity; discriminate).
           exists s. rewrite <- app_assoc. auto.
    + intros H. injection H as <- <-. cbn. auto.
  - intros H. injection H as <- <-. cbn. auto.
Qed.

Lemma newest_app (w : datetime) (l1 l2 : list Entry) :
  newest w (l1 ++ l2) = newest (newest w l1) l2.
Proof.
  unfold newest. now rewrite map_app, fold_left_app.
Qed.

Lemma entries_of_app (t1 t2 : list Event) :
  entries_of (t1 ++ t2) = entries_of t1 ++ entries_of t2.
Proof. apply flat_map_app. Qed.

(** The inner loop, when it ends without an exception. *)
Lemma for_entries_None (args : Args) (config : Config) (feed : Feed)
      (items : list (result Entry)) :
  forall st st',
    for_entries args config feed items st = (st', None) ->
    exists evs failed,
      entries_trace (dry_run args) config feed items evs failed /\
      trace st' = trace st ++ evs /\
      has_error st' = (has_error st || failed)%bool /\
      newest_post st' = newest (newest_post st) (entries_of evs).
Proof.
  induction items as [|item items IH]; intros st st' H; cbn [for_entries] in H.
  - injection H as <-. exists [], false.
    rewrite app_nil_r, orb_false_r. repeat split. constructor.
  - destruct item as [entry|e]; [ | discriminate].
    destruct (body args config feed entry st) as [st1 c] eqn:B.
    apply body_spec in B. destruct c as [ | | e].
    + destruct B as (s & C & N & E & T).
      destruct (IH _ _ H) as (evs & failed & R & T' & E' & N').
      destruct (dry_run args) eqn:D.
      * exists (EvEntry entry :: EvPprint s :: evs), failed.
        split; [now apply trace_printed | ].
        rewrite T', T, <- app_assoc, E', E, N', N. repeat split.
      * exists (EvEntry entry :: EvPost s (Ok tt) :: EvSleep :: evs), failed.
        split; [now apply trace_posted | ].
        rewrite T', T, <- app_assoc, E', E, N', N. repeat split.
    + injection H as <-. destruct B as (s & C & N & E & D & T).
      exists [EvEntry entry; EvPost s (Raise MastodonError)], true.
      rewrite D. split; [now apply trace_refused | ].
      rewrite T, E, N, orb_true_r. repeat split.
    + discriminate.
Qed.

Lemma for_feed_None (args : Args) (config : Config) (feed : Feed)
      (st st' : State) :
  for_feed args config feed st = (st', None) ->
  exists items evs failed,
    get_feed (feed_url feed) (Some (cfg_updated config)) = Ok items /\
    entries_trace (dry_run args) config feed items evs failed /\
    trace st' = trace st ++ EvFetch (feed_url feed) :: evs /\
    has_error st' = (has_error st || failed)%bool /\
    newest_post st' = newest (newest_post st) (entries_of evs).
Proof.
  unfold for_feed.
  destruct (get_feed (feed_url feed) (Some (cfg_updated config)))
    as [items|e]; [ | discriminate].
  intros H. apply for_entries_None in H.
  destruct H as (evs & failed & R & T & E & N).
  exists items, evs, failed. cbn in T, E, N.
  rewrite <- app_assoc in T. repeat split; assumption.
Qed.

Lemma for_feeds_None (args : Args) (config : Config) (feeds : list Feed) :
  forall st st',
    for_feeds args config feeds st = (st', None) ->
    exists evs failed,
      feeds_trace (dry_run args) config feeds evs failed /\
      trace st' = trace st ++ evs /\
      has_error st' = (has_error st || failed)%bool /\
      newest_post st' = newest (newest_post st) (entries_of evs).
Proof.
  induction feeds as [|feed feeds IH]; intros st st' H; cbn [for_feeds] in H.
  - injection H as <-. exists [], false.
    rewrite app_nil_r, orb_false_r. repeat split. constructor.
  - destruct (for_feed args config feed st) as [st1 [e|]] eqn:F;
      [discriminate | ].
    apply for_feed_None in F.
    destruct F as (items & evs & failed & G & R & T & E & N).
    destruct (IH _ _ H) as (evs' & failed' & R' & T' & E' & N').
    exists (EvFetch (feed_url feed) :: evs ++ evs'), (failed || failed')%bool.
    split; [now apply feeds_next with (items := items) | ].
    rewrite T', T, <- app_assoc, E', E, N', N, orb_assoc.
    repeat split.
    change (EvFetch (feed_url feed) :: evs ++ evs')
      with ([EvFetch (feed_url feed)] ++ evs ++ evs').
    rewrite !entries_of_app. cbn [entries_of flat_map app].
    now rewrite newest_app.
Qed.

End LoopFacts.

(** ** What the traces tell *)

Section TraceFacts.

Context {ext : Externals}.

Variable dry : bool.
Variable config : Config.

(** The entries gone through are the first ones the generator yields: all
    of them, unless a post was refused. *)
Lemma entries_trace_prefix (feed : Feed) (items : list (result Entry))
      (evs : list Event) (failed : bool) :
  entries_trace dry config feed items evs failed ->
  exists rest,
    items = map Ok (entries_of evs) ++ rest /\
    (failed = false -> rest = []).
Proof.
  induction 1 as [ | entry items s evs failed D C R (rest & -> & IH)
                   | entry items s evs failed D C R (rest & -> & IH)
                   | entry items s D C ].
  - exists []. split; [reflexivity | reflexivity].
  - exists rest. split; [reflexivity | exact IH].
  - exists rest. split; [reflexivity | exact IH].
  - exists items. split; [reflexivity | discriminate].
Qed.

Lemma entries_trace_fetches (feed : Feed) (items : list (result Entry))
      (evs : list Event) (failed : bool) :
  entries_trace dry config feed items evs failed ->
  fetches evs = [] /\ saves evs = [].
Proof.
  induction 1; cbn; auto.
Qed.

Lemma entries_trace_failed (feed : Feed) (items : list (result Entry))
      (evs : list Event) (failed : bool) :
  entries_trace dry config feed items evs failed ->
  existsb is_failure evs = failed.
Proof.
  induction 1; cbn; auto.
Qed.

Lemma entries_trace_dry (feed : Feed) (items : list (result Entry))
      (evs : list Event) (failed : bool) :
  entries_trace dry config feed items evs failed ->
  dry = true -> failed = false /\ posts evs = [].
Proof.
  induction 1; intros D; cbn; auto; congruence.
Qed.

(** Every entry gone through was composed, and in a dry run printed. *)
Lemma entries_trace_composed (feed : Feed) (items : list (result Entry))
      (evs : list Event) (failed : bool) :
  entries_trace dry config feed items evs failed ->
  Forall (fun e => exists s, compose config feed e = Ok s) (entries_of evs) /\
  (dry = true ->
   mapM (compose config feed) (entries_of evs) = Ok (pprints evs)).
Proof.
  unfold entries_of, pprints.
  induction 1 as [ | entry items s evs failed D C R [IH1 IH2]
                   | entry items s evs failed D C R [IH1 IH2]
                   | entry items s D C ]; cbn [flat_map app mapM].
  - split; [constructor | reflexivity].
  - split; [constructor; eauto | ].
    intros _. rewrite C, (IH2 D). reflexivity.
  - split; [constructor; eauto | congruence].
  - split; [repeat constructor; eauto | congruence].
Qed.

Lemma cons_eq_app {A : Type} (a x : A) (l pre post : list A) :
  a :: l = pre ++ x :: post ->
  (pre = [] /\ a = x /\ l = post) \/
  (exists pre', pre = a :: pre' /\ l = pre' ++ x :: post).
Proof.
  destruct pre as [|b pre]; cbn; intros H; injection H as -> ->; eauto.
Qed.

(** In the events of one feed, a refused post is the last event. *)
Lemma entries_trace_stops (feed : Feed) (items : list (result Entry))
      (evs : list Event) (failed : bool) :
  entries_trace dry config feed items evs failed ->
  forall pre s post,
    evs = pre ++ EvPost s (Raise MastodonError) :: post -> post = [].
Proof.
  induction 1 as [ | entry items s0 evs failed D C R IH
                   | entry items s0 evs failed D C R IH
                   | entry items s0 D C ]; intros pre s post E.
  - destruct pre; discriminate.
  - apply cons_eq_app in E. destruct E as [(_ & E & _) | (p1 & -> & E)];
      [discriminate | ].
    apply cons_eq_app in E. destruct E as [(_ & E & _) | (p2 & -> & E)];
      [discriminate | ].
    eapply IH; eassumption.
  - apply cons_eq_app in E. destruct E as [(_ & E & _) | (p1 & -> & E)];
      [discriminate | ].
    apply cons_eq_app in E. destruct E as [(_ & E & _) | (p2 & -> & E)];
      [discriminate | ].
    apply cons_eq_app in E. destruct E as [(_ & E & _) | (p3 & -> & E)];
      [discriminate | ].
    eapply IH; eassumption.
  - apply cons_eq_app in E. destruct E as [(_ & E & _) | (p1 & -> & E)];
      [discriminate | ].
    apply cons_eq_app in E. destruct E as [(_ & _ & E) | (p2 & -> & E)];
      [now symmetry | ].
    destruct p2; discriminate.
Qed.

Lemma feeds_trace_fetches (feeds : list Feed) (evs : list Event)
      (failed : bool) :
  feeds_trace dry config feeds evs failed ->
  fetches evs = map feed_url feeds /\ saves evs = [].
Proof.
  induction 1 as [ | feed feeds items evs failed evs' failed' G R _ [IH1 IH2]].
  - split; reflexivity.
  - apply entries_trace_fetches in R. destruct R as [R1 R2].
    unfold fetches, saves in *. cbn [flat_map map app].
    rewrite !flat_map_app, R1, R2, IH1, IH2. split; reflexivity.
Qed.

Lemma feeds_trace_failed (feeds : list Feed) (evs : list Event)
      (failed : bool) :
  feeds_trace dry config feeds evs failed ->
  existsb is_failure evs = failed.
Proof.
  induction 1 as [ | feed feeds items evs failed evs' failed' G R _ IH].
  - reflexivity.
  - cbn [existsb is_failure]. rewrite existsb_app, IH.
    now rewrite (entries_trace_failed _ _ _ _ R).
Qed.

Lemma feeds_trace_dry (feeds : list Feed) (evs : list Event) (failed : bool) :
  feeds_trace dry config feeds evs failed ->
  dry = true -> failed = false /\ posts evs = [].
Proof.
  induction 1 as [ | feed feeds items evs failed evs' failed' G R _ IH];
    intros D.
  - split; reflexivity.
  - destruct (entries_trace_dry _ _ _ _ R D) as [-> P].
    destruct (IH D) as [-> P'].
    unfold posts in *. cbn [flat_map app]. now rewrite flat_map_app, P, P'.
Qed.

Lemma feeds_trace_head (feeds : list Feed) (evs : list Event) (failed : bool) :
  feeds_trace dry config feeds evs failed ->
  evs = [] \/ exists u evs', evs = EvFetch u :: evs'.
Proof.
  destruct 1; [left | right]; eauto.
Qed.

(** After a refused post, the run goes on with the next feed, if any. *)
Lemma feeds_trace_stops (feeds : list Feed) (evs : list Event)
      (failed : bool) :
  feeds_trace dry config feeds evs failed ->
  forall pre s post,
    evs = pre ++ EvPost s (Raise MastodonError) :: post ->
    post = [] \/ exists u post', post = EvFetch u :: post'.
Proof.
  induction 1 as [ | feed feeds items evs failed evs' failed' G R F IH];
    intros pre s post E.
  - destruct pre; discriminate.
  - apply cons_eq_app in E. destruct E as [(_ & E & _) | (p1 & -> & E)];
      [discriminate | ].
    apply app_eq_app in E. destruct E as [m [[E1 E2] | [E1 E2]]].
    + destruct m as [|x m].
      * cbn in E2. exact (IH [] s post (eq_sym E2)).
      * cbn in E2. injection E2 as <- ->.
        pose proof (entries_trace_stops _ _ _ _ R p1 s m E1) as ->.
        cbn. exact (feeds_trace_head _ _ _ F).
    + exact (IH m s post E2).
Qed.

End TraceFacts.

(** ** The newest timestamp *)

Lemma later_cases (a b : datetime) :
  (later a b = a /\ dt_le b a) \/ (later a b = b /\ dt_lt a b).
Proof.
  unfold later, dt_le, dt_lt.
  destruct (utc_micros a <? utc_micros b) eqn:E;
    [right; apply Z.ltb_lt in E | left; apply Z.ltb_ge in E]; auto.
Qed.

Lemma newest_In (w : datetime) (seen : list Entry) :
  In (newest w seen) (w :: map updated seen).
Proof.
  unfold newest. revert w.
  induction seen as [|e seen IH]; intros w; cbn [map fold_left].
  - now left.
  - specialize (IH (later w (updated e))).
    destruct (later_cases w (updated e)) as [[L _] | [L _]];
      rewrite L in *; destruct IH as [H | H]; cbn; auto.
Qed.

Lemma newest_upper (w : datetime) (seen : list Entry) :
  dt_le w (newest w seen) /\
  Forall (fun e => dt_le (updated e) (newest w seen)) seen.
Proof.
  unfold newest. revert w.
  induction seen as [|e seen IH]; intros w; cbn [map fold_left].
  - split; [unfold dt_le; lia | constructor].
  - destruct (IH (later w (updated e))) as [H1 H2].
    unfold dt_le, dt_lt in *.
    destruct (later_cases w (updated e)) as [[L B] | [L B]];
      unfold dt_le, dt_lt in B; rewrite L in *;
      (split; [lia | constructor; [lia | assumption]]).
Qed.

Lemma newest_seen (w : datetime) (seen : list Entry) :
  seen <> [] ->
  Forall (fun e => dt_lt w (updated e)) seen ->
  In (newest w seen) (map updated seen).
Proof.
  destruct seen as [|e seen]; [congruence | ]. intros _ F.
  inversion F as [|? ? Lt _]; subst.
  change (newest w (e :: seen)) with (newest (later w (updated e)) seen).
  destruct (later_cases w (updated e)) as [[_ B] | [-> _]].
  - unfold dt_le, dt_lt in *. lia.
  - apply (newest_In (updated e) seen).
Qed.

Section MainFacts.

Context {ext : Externals}.

(** Every entry a run goes through is strictly newer than the watermark of
    the configuration, and can be compared with it. *)
Lemma yielded_newer (feed_url : string) (w : datetime)
      (items : list (result Entry)) (e : Entry) :
  get_feed feed_url (Some w) = Ok items -> In (Ok e) items ->
  dt_lt w (updated e) /\ aware (updated e) = aware w.
Proof.
  intros G I. apply get_feed_Ok in G. destruct G as (-> & _ & C).
  apply in_map_iff in I. destruct I as (r & Gr & Ir).
  apply get_entry_updated in Gr.
  apply (Permutation_in _ (selected_Permutation _ _)), filter_In in Ir.
  destruct Ir as [Ir N]. rewrite Forall_forall in C.
  destruct (C r Ir) as (d & Hd & Aw).
  rewrite Hd in Gr. injection Gr as ->.
  split; [now apply (is_newer_lt w r _ Hd) | exact Aw].
Qed.

Lemma feeds_trace_newer (dry : bool) (config : Config) (feeds : list Feed)
      (evs : list Event) (failed : bool) :
  feeds_trace dry config feeds evs failed ->
  Forall (fun e => dt_lt (cfg_updated config) (updated e))
         (entries_of evs).
Proof.
  induction 1 as [ | feed feeds items evs failed evs' failed' G R _ IH].
  - constructor.
  - change (EvFetch (feed_url feed) :: evs ++ evs')
      with ([EvFetch (feed_url feed)] ++ evs ++ evs').
    rewrite !entries_of_app. cbn [entries_of flat_map app].
    apply Forall_app. split; [ | exact IH].
    destruct (entries_trace_prefix _ _ _ _ _ _ R) as (rest & -> & _).
    rewrite Forall_forall. intros e He.
    apply (yielded_newer _ _ _ e G).
    apply in_or_app. left. now apply in_map.
Qed.

(** A run that reaches [sys.exit]. *)
Lemma main_Exit (args : Args) (file : ConfigFile) (code : Z) :
  outcome (main args file) = Exit code ->
  exists config evs failed,
    read_config file = Ok config /\
    feeds_trace (dry_run args) config (cfg_feeds config) evs failed /\
    code = (if failed then 1 else 0) /\
    if dry_run args
    then events (main args file) = evs /\ file_after (main args file) = file
    else
      let saved :=
        save_config config (newest (cfg_updated config) (entries_of evs)) in
      events (main args file) = evs ++ [EvSave saved] /\
      file_after (main args file) = saved.
Proof.
  unfold main.
  destruct (read_config file) as [config|e]; [ | discriminate].
  destruct (for_feeds args config (cfg_feeds config)
                      (mkstate false (cfg_updated config) []))
    as [st [e|]] eqn:F; [discriminate | ].
  apply for_feeds_None in F. destruct F as (evs & failed & R & T & E & N).
  cbn in T, E, N. rewrite E, N, T.
  intros H. exists config, evs, failed.
  split; [reflexivity | split; [exact R | ]].
  destruct (dry_run args); cbn in H |- *; injection H as <-; auto.
Qed.

(** ** Runs that an exception ends, and dry runs *)

Definition quiet (dry : bool) (ev : Event) : bool :=
  match ev with
  | EvSave _ => false
  | EvPost _ _ | EvSleep => negb dry
  | _ => true
  end.

Lemma body_quiet (args : Args) (config : Config) (feed : Feed) (entry : Entry)
      (st st' : State) (c : Control) :
  body args config feed entry st = (st', c) ->
  exists evs, trace st' = trace st ++ evs /\
              forallb (quiet (dry_run args)) evs = true.
Proof.
  intros B. apply body_spec in B. destruct c as [ | | e].
  - destruct B as (s & _ & _ & _ & T). eexists. split; [exact T | ].
    now destruct (dry_run args).
  - destruct B as (s & _ & _ & _ & D & T). eexists. split; [exact T | ].
    now rewrite D.
  - destruct B as (_ & [(_ & T) | [(_ & T) | (s & _ & D & _ & T)]]);
      eexists; (split; [exact T | ]); [reflexivity | reflexivity | ].
    now rewrite D.
Qed.

Lemma for_entries_quiet (args : Args) (config : Config) (feed : Feed)
      (items : list (result Entry)) :
  forall st st' r,
    for_entries args config feed items st = (st', r) ->
    exists evs, trace st' = trace st ++ evs /\
                forallb (quiet (dry_run args)) evs = true.
Proof.
  induction items as [|item items IH]; intros st st' r H;
    cbn [for_entries] in H.
  - injection H as <- <-. exists []. now rewrite app_nil_r.
  - destruct item as [entry|e].
    + destruct (body args config feed entry st) as [st1 c] eqn:B.
      apply body_quiet in B. destruct B as (evs & T & Q).
      destruct c as [ | | e].
      * destruct (IH _ _ _ H) as (evs' & T' & Q').
        exists (evs ++ evs'). rewrite T', T, <- app_assoc, forallb_app, Q, Q'.
        now split.
      * injection H as <- <-. eauto.
      * injection H as <- <-. eauto.
    + injection H as <- <-. exists []. now rewrite app_nil_r.
Qed.

Lemma for_feeds_quiet (args : Args) (config : Config) (feeds : list Feed) :
  forall st st' r,
    for_feeds args config feeds st = (st', r) ->
    exists evs, trace st' = trace st ++ evs /\
                forallb (quiet (dry_run args)) evs = true.
Proof.
  induction feeds as [|feed feeds IH]; intros st st' r H;
    cbn [for_feeds] in H.
  - injection H as <- <-. exists []. now rewrite app_nil_r.
  - destruct (for_feed args config feed st) as [st1 r1] eqn:F.
    assert (Q1 : exists evs, trace st1 = trace st ++ evs /\
                             forallb (quiet (dry_run args)) evs = true).
    { unfold for_feed in F.
      destruct (get_feed (feed_url feed) (Some (cfg_updated config)))
        as [items|e].
      - apply for_entries_quiet in F. destruct F as (evs & T & Q).
        cbn in T. rewrite <- app_assoc in T.
        eexists. split; [exact T | exact Q].
      - injection F as <- <-. cbn. eexists. split; reflexivity. }
    destruct Q1 as (evs & T & Q).
    destruct r1 as [e|].
    + injection H as <- <-. eauto.
    + destruct (IH _ _ _ H) as (evs' & T' & Q').
      exists (evs ++ evs'). rewrite T', T, <- app_assoc, forallb_app, Q, Q'.
      now split.
Qed.

Lemma quiet_saves (dry : bool) (evs : list Event) :
  forallb (quiet dry) evs = true -> saves evs = [].
Proof.
  induction evs as [|ev evs IH]; cbn [forallb]; [reflexivity | ].
  intros H. apply andb_prop in H. destruct H as [Q H].
  unfold saves in *. cbn [flat_map]. rewrite (IH H).
  now destruct ev.
Qed.

Lemma quiet_posts (evs : list Event) :
  forallb (quiet true) evs = true ->
  posts evs = [] /\ ~ In EvSleep evs.
Proof.
  induction evs as [|ev evs IH]; cbn [forallb]; [now split | ].
  intros H. apply andb_prop in H. destruct H as [Q H].
  destruct (IH H) as [P S]. unfold posts in *. cbn [flat_map].
  rewrite P. destruct ev; try discriminate Q; (split; [reflexivity | ]);
    intros [C | C]; try discriminate C; now apply S.
Qed.

(** What [main] leaves behind when an exception ends it: the configuration
    file as it was. *)
Lemma main_Crash (args : Args) (file : ConfigFile) (e : exn) :
  outcome (main args file) = Crash e ->
  file_after (main args file) = file /\ saves (events (main args file)) = [].
Proof.
  unfold main.
  destruct (read_config file) as [config|e0]; [ | now split].
  destruct (for_feeds args config (cfg_feeds config)
                      (mkstate false (cfg_updated config) []))
    as [st [e0|]] eqn:F.
  - intros _. apply for_feeds_quiet in F. destruct F as (evs & T & Q).
    cbn in T |- *. rewrite T. split; [reflexivity | ].
    exact (quiet_saves _ _ Q).
  - destruct (dry_run args); discriminate.
Qed.

(** A dry run, however it ends. *)
Lemma main_dry (args : Args) (file : ConfigFile) :
  dry_run args = true ->
  posts (events (main args file)) = [] /\
  ~ In EvSleep (events (main args file)) /\
  saves (events (main args file)) = [] /\
  file_after (main args file) = file.
Proof.
  intros D. unfold main.
  destruct (read_config file) as [config|e0]; [ | cbn; tauto].
  destruct (for_feeds args config (cfg_feeds config)
                      (mkstate false (cfg_updated config) []))
    as [st r] eqn:F.
  apply for_feeds_quiet in F. destruct F as (evs & T & Q).
  cbn in T. rewrite D in *.
  destruct (quiet_posts _ Q) as [P S]. pose proof (quiet_saves _ _ Q) as V.
  destruct r as [e|]; cbn; rewrite T; tauto.
Qed.

End MainFacts.

Section PostFacts.

Context {ext : Externals}.

(** In a live run every entry gone through has its post, accepted or
    refused, in the same order. *)
Lemma entries_trace_posts (config : Config) (feed : Feed)
      (items : list (result Entry)) (evs : list Event) (failed : bool) :
  entries_trace false config feed items evs failed ->
  Forall2 (fun e p => compose config feed e = Ok (fst p))
          (entries_of evs) (posts evs).
Proof.
  unfold entries_of, posts.
  induction 1; cbn [flat_map app]; try discriminate; repeat constructor; auto.
Qed.

Lemma feeds_trace_posts (config : Config) (feeds : list Feed)
      (evs : list Event) (failed : bool) :
  feeds_trace false config feeds evs failed ->
  Forall2 (fun e p => exists feed, In feed feeds /\
                                   compose config feed e = Ok (fst p))
          (entries_of evs) (posts evs).
Proof.
  induction 1 as [ | feed feeds items evs failed evs' failed' G R _ IH].
  - constructor.
  - unfold entries_of, posts in *. cbn [flat_map app].
    rewrite !flat_map_app. apply Forall2_app.
    + apply entries_trace_posts in R. unfold entries_of, posts in R.
      eapply Forall2_impl; [ | exact R].
      intros e p C. exists feed. split; [now left | exact C].
    + eapply Forall2_impl; [ | exact IH].
      intros e p (f & I & C). exists f. split; [now right | exact C].
Qed.

End PostFacts.

(** ** Runs that reach their end *)

Section Completion.

Context {ext : Externals}.

(** Nothing raises an exception that [main] does not catch: every feed can
    be fetched and every fetched entry composed, and in a live run the
    server answers or refuses with [MastodonError]. *)
Definition no_exception (args : Args) (config : Config) : Prop :=
  (forall feed, In feed (cfg_feeds config) ->
     exists entries,
       fetch (feed_url feed) (Some (cfg_updated config)) = Ok entries /\
       Forall (fun e => is_ok (compose config feed e) = true) entries) /\
  (dry_run args = false ->
   forall history s, status_post history s = Ok tt \/
                     status_post history s = Raise MastodonError).

Lemma mapM_id_inv {A : Type} (items : list (result A)) (l : list A) :
  mapM (fun item => item) items = Ok l -> items = map Ok l.
Proof.
  revert l. induction items as [|item items IH]; intros l H; cbn [mapM] in H.
  - injection H as <-. reflexivity.
  - bind_inv H. bind_inv H. injection H as <-. subst item.
    cbn [map]. now rewrite (IH _ E0).
Qed.

Lemma later_aware (a b : datetime) :
  aware b = aware a -> aware (later a b) = aware a.
Proof.
  unfold later. now destruct (utc_micros a <? utc_micros b).
Qed.

Lemma for_entries_completes (args : Args) (config : Config) (feed : Feed)
      (w : datetime) (entries : list Entry) :
  Forall (fun e => aware (updated e) = aware w) entries ->
  Forall (fun e => is_ok (compose config feed e) = true) entries ->
  (dry_run args = false ->
   forall history s, status_post history s = Ok tt \/
                     status_post history s = Raise MastodonError) ->
  forall st,
    aware (newest_post st) = aware w ->
    exists st',
      for_entries args config feed (map Ok entries) st = (st', None) /\
      aware (newest_post st') = aware w.
Proof.
  intros Aw Co Po.
  induction entries as [|e entries IH]; intros st Ast; cbn [map for_entries].
  - eauto.
  - inversion Aw as [|? ? Ae Aw']; subst.
    inversion Co as [|? ? Ce Co']; subst.
    destruct (compose config feed e) as [s|x] eqn:C; [ | discriminate].
    assert (M : Datetime.max (newest_post st) (updated e)
                = Ok (later (newest_post st) (updated e))).
    { apply max_comparable. congruence. }
    assert (Al : aware (later (newest_post st) (updated e)) = aware w).
    { rewrite later_aware; congruence. }
    unfold body. cbn [log newest_post has_error trace]. rewrite M, C.
    destruct (dry_run args) eqn:D.
    + apply (IH Aw' Co'). exact Al.
    + cbn [newest_post has_error trace].
      destruct (Po eq_refl (trace st ++ [EvEntry e]) s) as [P | P];
        rewrite P.
      * apply (IH Aw' Co'). exact Al.
      * eexists. split; [reflexivity | exact Al].
Qed.

Lemma for_feeds_completes (args : Args) (config : Config) (feeds : list Feed) :
  (forall feed, In feed feeds ->
     exists entries,
       fetch (feed_url feed) (Some (cfg_updated config)) = Ok entries /\
       Forall (fun e => is_ok (compose config feed e) = true) entries) ->
  (dry_run args = false ->
   forall history s, status_post history s = Ok tt \/
                     status_post history s = Raise MastodonError) ->
  forall st,
    aware (newest_post st) = aware (cfg_updated config) ->
    exists st', for_feeds args config feeds st = (st', None).
Proof.
  intros Fe Po.
  induction feeds as [|feed feeds IH]; intros st Ast; cbn [for_feeds].
  - eauto.
  - destruct (Fe feed (or_introl eq_refl)) as (entries & F & Co).
    unfold fetch in F. bind_inv F. apply mapM_id_inv in F. subst a.
    assert (Aw : Forall (fun e => aware (updated e)
                                  = aware (cfg_updated config)) entries).
    { rewrite Forall_forall. intros e He.
      apply (yielded_newer _ _ _ e E). now apply in_map. }
    destruct (for_entries_completes args config feed (cfg_updated config)
                entries Aw Co Po (log (EvFetch (feed_url feed)) st) Ast)
      as (st1 & L & A1).
    unfold for_feed. rewrite E, L.
    apply IH; [ | exact A1].
    intros f I. apply Fe. now right.
Qed.

(** A run in which nothing raises reaches [sys.exit]. *)
Lemma main_completes (args : Args) (file : ConfigFile) (config : Config) :
  read_config file = Ok config ->
  no_exception args config ->
  exists code, outcome (main args file) = Exit code.
Proof.
  intros RC [Fe Po]. unfold main. rewrite RC.
  destruct (for_feeds_completes args config (cfg_feeds config) Fe Po
              (mkstate false (cfg_updated config) []) eq_refl) as (st & F).
  rewrite F. destruct (dry_run args); cbn; eauto.
Qed.

End Completion.

(** ** Reading the watermark back *)

(** What reading a saved configuration asks of dateutil: a string that is a
    valid ISO-8601 date and time is read as that date and time. *)
Definition reads_iso_8601 (ext : Externals) : Prop :=
  forall text d, iso_parse text = Some d -> dateutil_parse text = Ok d.

(** dateutil returns [datetime] objects, which are valid by construction. *)
Definition parses_valid (ext : Externals) : Prop :=
  forall text d, dateutil_parse text = Ok d -> valid_datetime d.

Lemma demo_reads_iso_8601 : reads_iso_8601 Demo.world.
Proof.
  intros text d H. cbn. unfold Demo.dateutil. now rewrite H.
Qed.

Lemma obind_Some {A B : Type} (m : option A) (k : A -> option B) (b : B) :
  obind m k = Some b -> exists a, m = Some a /\ k a = Some b.
Proof.
  destruct m as [a|]; cbn [obind]; [eauto | discriminate].
Qed.

Lemma iso_parse_valid (text : string) (d : datetime) :
  iso_parse text = Some d -> valid_datetime d.
Proof.
  unfold iso_parse. intros H.
  repeat (apply obind_Some in H; destruct H as (? & _ & H);
          try match goal with p : (Z * string)%type |- _ => destruct p end).
  match type of H with
  | (if ?b then _ else _) = _ => destruct b eqn:V; [ | discriminate]
  end.
  injection H as <-. exact V.
Qed.

Lemma demo_parses_valid : parses_valid Demo.world.
Proof.
  intros text d. cbn. unfold Demo.dateutil.
  destruct (iso_parse text) as [d'|] eqn:E; [ | discriminate].
  intros H. injection H as <-. exact (iso_parse_valid _ _ E).
Qed.

Lemma read_saved {ext : Externals} (config : Config) (w : datetime) :
  reads_iso_8601 ext -> valid_datetime w ->
  read_config (save_config config w) = Ok (set_updated config w).
Proof.
  intros R V. unfold read_config, save_config, set_updated.
  cbn [cfg_updated cfg_url cfg_access_token cfg_feeds cfg_max_chars
       cfg_visibility cfg_other].
  rewrite (R _ _ (iso_parse_isoformat w V)). reflexivity.
Qed.

Section NextRun.

Context {ext : Externals}.


Lemma read_config_valid (file : ConfigFile) (config : Config) :
  parses_valid ext -> read_config file = Ok config ->
  valid_datetime (cfg_updated config).
Proof.
  intros PV. unfold read_config.
  destruct (cfg_updated file) as [text|].
  - intros H. bind_inv H. injection H as <-. cbn. exact (PV _ _ E).
  - intros H. injection H as <-. reflexivity.
Qed.

Lemma yielded_valid (feed_url : string) (last_update : option datetime)
      (items : list (result Entry)) (e : Entry) :
  parses_valid ext ->
  get_feed feed_url last_update = Ok items -> In (Ok e) items ->
  valid_datetime (updated e).
Proof.
  intros PV G I. apply get_feed_Ok in G. destruct G as (-> & _ & _).
  apply in_map_iff in I. destruct I as (r & Gr & _).
  apply get_entry_updated in Gr. unfold parsed_updated in Gr.
  bind_inv Gr. exact (PV _ _ Gr).
Qed.

Lemma feeds_trace_valid (dry : bool) (config : Config) (feeds : list Feed)
      (evs : list Event) (failed : bool) :
  parses_valid ext ->
  feeds_trace dry config feeds evs failed ->
  Forall (fun e => valid_datetime (updated e)) (entries_of evs).
Proof.
  intros PV.
  induction 1 as [ | feed feeds items evs failed evs' failed' G R _ IH].
  - constructor.
  - change (EvFetch (feed_url feed) :: evs ++ evs')
      with ([EvFetch (feed_url feed)] ++ evs ++ evs').
    rewrite !entries_of_app. cbn [entries_of flat_map app].
    apply Forall_app. split; [ | exact IH].
    destruct (entries_trace_prefix _ _ _ _ _ _ R) as (rest & -> & _).
    rewrite Forall_forall. intros e He.
    apply (yielded_valid _ _ _ e PV G).
    apply in_or_app. left. now apply in_map.
Qed.

Lemma newest_valid (w : datetime) (seen : list Entry) :
  valid_datetime w ->
  Forall (fun e => valid_datetime (updated e)) seen ->
  valid_datetime (newest w seen).
Proof.
  intros Vw Vs. destruct (newest_In w seen) as [<- | I]; [exact Vw | ].
  apply in_map_iff in I. destruct I as (e & <- & I).
  rewrite Forall_forall in Vs. now apply Vs.
Qed.

End NextRun.

(** ** Runs that an exception ends, step by step *)

Lemma app_split {A : Type} (pre post a b : list A) (x : A) :
  pre ++ x :: post = a ++ b ->
  (exists m, a = pre ++ x :: m /\ post = m ++ b) \/
  (exists m, pre = a ++ m /\ b = m ++ x :: post).
Proof.
  intros H. apply app_eq_app in H. destruct H as [m [[E1 E2] | [E1 E2]]].
  - right. now exists m.
  - destruct m as [|y m].
    + right. exists []. rewrite app_nil_r in E1. cbn in E2. subst.
      rewrite app_nil_r. now split.
    + left. cbn in E2. injection E2 as <- ->. now exists m.
Qed.

Section RaiseFacts.

Context {ext : Externals}.

(** The step on which an exception ends the loop over a feed's entries: the
    generator raises while it builds the next entry, or the next entry
    cannot be composed, or the server fails otherwise than by
    [MastodonError]. *)
Inductive raised_at (dry : bool) (config : Config) (feed : Feed)
  : list (result Entry) -> list Event -> exn -> Prop :=
| raised_yield rest x :
    raised_at dry config feed (Raise x :: rest) [] x
| raised_compose entry rest x :
    compose config feed entry = Raise x ->
    raised_at dry config feed (Ok entry :: rest) [EvEntry entry] x
| raised_post entry rest s x :
    dry = false ->
    compose config feed entry = Ok s ->
    x <> MastodonError ->
    raised_at dry config feed (Ok entry :: rest)
              [EvEntry entry; EvPost s (Raise x)] x.

(** The loop over one feed's entries when an exception ends it: the entries
    in [done] went through, none of their posts refused, and the next step
    raised. *)
Definition entries_raise (dry : bool) (config : Config) (feed : Feed)
           (items : list (result Entry)) (evs : list Event) (x : exn) : Prop :=
  exists done rest evs0 last,
    items = map Ok done ++ rest /\
    entries_trace dry config feed (map Ok done) evs0 false /\
    raised_at dry config feed rest last x /\
    evs = evs0 ++ last.

(** The loop over the feeds when an exception ends it: the feeds in [done]
    went through; the next feed could not be fetched, or the loop over its
    entries raised. *)
Definition feeds_raise (dry : bool) (config : Config) (feeds : list Feed)
           (evs : list Event) (x : exn) : Prop :=
  exists done feed rest evs0 failed evs1,
    feeds = done ++ feed :: rest /\
    feeds_trace dry config done evs0 failed /\
    evs = evs0 ++ EvFetch (feed_url feed) :: evs1 /\
    match get_feed (feed_url feed) (Some (cfg_updated config)) with
    | Raise x' => x' = x /\ evs1 = []
    | Ok items => entries_raise dry config feed items evs1 x
    end.

Definition aware_as (w : datetime) (item : result Entry) : Prop :=
  match item with
  | Ok e => aware (updated e) = aware w
  | Raise _ => True
  end.

Lemma for_entries_Some (args : Args) (config : Config) (feed : Feed)
      (w : datetime) (items : list (result Entry)) (x : exn) :
  Forall (aware_as w) items ->
  forall st st',
    aware (newest_post st) = aware w ->
    for_entries args config feed items st = (st', Some x) ->
    exists evs,
      entries_raise (dry_run args) config feed items evs x /\
      trace st' = trace st ++ evs.
Proof.
  induction 1 as [|item items A _ IH]; intros st st' Aw H;
    cbn [for_entries] in H; [discriminate | ].
  destruct item as [entry|e].
  - cbn [aware_as] in A.
    destruct (body args config feed entry st) as [st1 c] eqn:B.
    apply body_spec in B. destruct c as [ | | e].
    + destruct B as (s & C & N & _ & T).
      assert (Aw1 : aware (newest_post st1) = aware w).
      { rewrite N, later_aware; congruence. }
      destruct (IH _ _ Aw1 H) as (evs & (done & rest & evs0 & last & -> & R & L & ->) & T').
      exists ((if dry_run args then [EvEntry entry; EvPprint s]
               else [EvEntry entry; EvPost s (Ok tt); EvSleep]) ++ evs0 ++ last).
      split.
      * exists (entry :: done), rest,
          ((if dry_run args then [EvEntry entry; EvPprint s]
            else [EvEntry entry; EvPost s (Ok tt); EvSleep]) ++ evs0), last.
        rewrite <- app_assoc. repeat split; try assumption.
        cbn [map]. destruct (dry_run args) eqn:D; cbn [app].
        -- now apply trace_printed.
        -- now apply trace_posted.
      * now rewrite T', T, <- app_assoc.
    + discriminate.
    + injection H as <- <-. destruct B as (_ & [(M & T) | [(C & T) | (s & C & D & N & T)]]).
      * rewrite max_comparable in M by congruence. discriminate.
      * exists [EvEntry entry]. split; [ | exact T].
        exists [], (Ok entry :: items), [], [EvEntry entry].
        repeat split; [constructor | now constructor].
      * exists [EvEntry entry; EvPost s (Raise e)]. split; [ | exact T].
        exists [], (Ok entry :: items), [], [EvEntry entry; EvPost s (Raise e)].
        repeat split; [constructor | now constructor].
  - injection H as <- <-. exists []. split; [ | now rewrite app_nil_r].
    exists [], (Raise e :: items), [], []. repeat split; constructor.
Qed.

Lemma newest_aware (w : datetime) (seen : list Entry) (start : datetime) :
  aware start = aware w ->
  Forall (fun e => aware (updated e) = aware w) seen ->
  aware (newest start seen) = aware w.
Proof.
  intros S F. destruct (newest_In start seen) as [<- | I]; [exact S | ].
  apply in_map_iff in I. destruct I as (e & <- & I).
  rewrite Forall_forall in F. now apply F.
Qed.

Lemma yielded_aware (feed_url : string) (w : datetime)
      (items : list (result Entry)) :
  get_feed feed_url (Some w) = Ok items -> Forall (aware_as w) items.
Proof.
  intros G. rewrite Forall_forall. intros [e|x] I; [ | exact Logic.I].
  exact (proj2 (yielded_newer _ _ _ e G I)).
Qed.

Lemma for_feeds_Some (args : Args) (config : Config) (feeds : list Feed)
      (x : exn) :
  forall st st',
    aware (newest_post st) = aware (cfg_updated config) ->
    for_feeds args config feeds st = (st', Some x) ->
    exists evs,
      feeds_raise (dry_run args) config feeds evs x /\
      trace st' = trace st ++ evs.
Proof.
  induction feeds as [|feed feeds IH]; intros st st' Aw H;
    cbn [for_feeds] in H; [discriminate | ].
  destruct (for_feed args config feed st) as [st1 [e|]] eqn:F.
  - injection H as <- <-. unfold for_feed in F.
    destruct (get_feed (feed_url feed) (Some (cfg_updated config)))
      as [items|e0] eqn:G.
    + apply (for_entries_Some _ _ _ (cfg_updated config)) in F;
        [ | now apply (yielded_aware (feed_url feed)) | exact Aw].
      destruct F as (evs & R & T). cbn [log trace] in T.
      rewrite <- app_assoc in T.
      exists (EvFetch (feed_url feed) :: evs). split; [ | exact T].
      exists [], feed, feeds, [], false, evs. rewrite G.
      repeat split; [constructor | exact R].
    + injection F as <- <-. exists [EvFetch (feed_url feed)].
      split; [ | reflexivity].
      exists [], feed, feeds, [], false, []. rewrite G.
      repeat split. constructor.
  - apply for_feed_None in F.
    destruct F as (items & evs & failed & G & R & T & _ & N).
    assert (Aw1 : aware (newest_post st1) = aware (cfg_updated config)).
    { rewrite N. apply newest_aware; [exact Aw | ].
      destruct (entries_trace_prefix _ _ _ _ _ _ R) as (rest & -> & _).
      rewrite Forall_forall. intros e I.
      apply (yielded_newer _ _ _ e G). apply in_or_app. left. now apply in_map. }
    destruct (IH _ _ Aw1 H)
      as (evs' & (done & feed' & rest & evs0 & failed' & evs1 & -> & R' & -> & L)
          & T').
    exists (EvFetch (feed_url feed) :: evs ++ evs0
            ++ EvFetch (feed_url feed') :: evs1).
    split.
    + exists (feed :: done), feed', rest,
        (EvFetch (feed_url feed) :: evs ++ evs0), (failed || failed')%bool, evs1.
      repeat split.
      * now apply feeds_next with (items := items).
      * cbn [app]. now rewrite <- app_assoc.
      * exact L.
    + rewrite T', T, <- app_assoc. reflexivity.
Qed.

(** A run that an exception ends: the configuration could not be read, or
    the loop over the feeds raised; the file is as it was. *)
Lemma main_Crash_trace (args : Args) (file : ConfigFile) (x : exn) :
  outcome (main args file) = Crash x ->
  file_after (main args file) = file /\
  (read_config file = Raise x /\ events (main args file) = [] \/
   exists config,
     read_config file = Ok config /\
     feeds_raise (dry_run args) config (cfg_feeds config)
                 (events (main args file)) x).
Proof.
  unfold main.
  destruct (read_config file) as [config|e0].
  - destruct (for_feeds args config (cfg_feeds config)
                        (mkstate false (cfg_updated config) []))
      as [st [e0|]] eqn:F.
    + intros H. injection H as ->. split; [reflexivity | ]. right.
      exists config. split; [reflexivity | ].
      apply for_feeds_Some in F; [ | reflexivity].
      destruct F as (evs & R & T). cbn in T |- *. now rewrite T.
    + destruct (dry_run args); discriminate.
  - intros H. injection H as ->. split; [reflexivity | now left].
Qed.

End RaiseFacts.

(** ** What the server answered *)

Section Answers.

Context {ext : Externals}.

(** Every post of the trace records what [status_post] answered to that
    status, the events before it being the history. *)
Definition answered (evs : list Event) : Prop :=
  forall pre s r post, evs = pre ++ EvPost s r :: post -> status_post pre s = r.

Lemma answered_nil : answered [].
Proof. intros [|ev pre] s r post H; discriminate H. Qed.

Lemma answered_snoc (evs : list Event) (ev : Event) :
  answered evs ->
  match ev with
  | EvPost s r => status_post evs s = r
  | _ => True
  end ->
  answered (evs ++ [ev]).
Proof.
  intros A E pre s r post H.
  destruct post as [|y post0].
  - apply app_inj_tail in H. destruct H as [-> ->]. exact E.
  - assert (P : y :: post0 <> []) by discriminate.
    destruct (exists_last P) as (post' & z & Ez). rewrite Ez in H.
    change (pre ++ EvPost s r :: post' ++ [z])
      with (pre ++ (EvPost s r :: post') ++ [z]) in H.
    rewrite app_assoc in H. apply app_inj_tail in H. destruct H as [-> _].
    now apply (A pre s r post').
Qed.

Lemma body_answered (args : Args) (config : Config) (feed : Feed)
      (entry : Entry) (st st' : State) (c : Control) :
  body args config feed entry st = (st', c) ->
  answered (trace st) -> answered (trace st').
Proof.
  intros B A.
  assert (A1 : answered (trace st ++ [EvEntry entry]))
    by now apply answered_snoc.
  revert B. unfold body, log. cbn [newest_post has_error trace].
  destruct (Datetime.max (newest_post st) (updated entry)) as [m|e0].
  - destruct (compose config feed entry) as [s|e0].
    + destruct (dry_run args).
      * intros H. injection H as <- <-. cbn [trace].
        now apply answered_snoc.
      * cbn [newest_post has_error trace].
        destruct (status_post (trace st ++ [EvEntry entry]) s) as [[]|e0] eqn:P.
        -- intros H. injection H as <- <-. cbn [trace].
           apply answered_snoc; [ | exact I]. now apply answered_snoc.
        -- destruct e0; intros H; injection H as <- <-; cbn [trace];
             now apply answered_snoc.
    + intros H. injection H as <- <-. exact A1.
  - intros H. injection H as <- <-. exact A1.
Qed.

Lemma for_entries_answered (args : Args) (config : Config) (feed : Feed)
      (items : list (result Entry)) :
  forall st st' r,
    for_entries args config feed items st = (st', r) ->
    answered (trace st) -> answered (trace st').
Proof.
  induction items as [|item items IH]; intros st st' r H A;
    cbn [for_entries] in H.
  - now injection H as <- <-.
  - destruct item as [entry|e]; [ | now injection H as <- <-].
    destruct (body args config feed entry st) as [st1 c] eqn:B.
    apply body_answered in B; [ | exact A].
    destruct c as [ | | e].
    + exact (IH _ _ _ H B).
    + now injection H as <- <-.
    + now injection H as <- <-.
Qed.

Lemma for_feeds_answered (args : Args) (config : Config) (feeds : list Feed) :
  forall st st' r,
    for_feeds args config feeds st = (st', r) ->
    answered (trace st) -> answered (trace st').
Proof.
  induction feeds as [|feed feeds IH]; intros st st' r H A;
    cbn [for_feeds] in H.
  - now injection H as <- <-.
  - destruct (for_feed args config feed st) as [st1 r1] eqn:F.
    assert (A1 : answered (trace st1)).
    { unfold for_feed in F.
      assert (A0 : answered (trace (log (EvFetch (feed_url feed)) st)))
        by now apply answered_snoc.
      destruct (get_feed (feed_url feed) (Some (cfg_updated config)))
        as [items|e].
      - exact (for_entries_answered _ _ _ _ _ _ _ F A0).
      - now injection F as <- <-. }
    destruct r1 as [e|].
    + now injection H as <- <-.
    + exact (IH _ _ _ H A1).
Qed.

(** In every run, however it ends. *)
Lemma main_answered (args : Args) (file : ConfigFile) :
  answered (events (main args file)).
Proof.
  unfold main. destruct (read_config file) as [config|e];
    [ | exact answered_nil].
  destruct (for_feeds args config (cfg_feeds config)
                      (mkstate false (cfg_updated config) []))
    as [st r] eqn:F.
  apply for_feeds_answered in F; [ | exact answered_nil].
  destruct r as [e|]; [exact F | ].
  destruct (dry_run args); [exact F | ].
  cbn [events]. now apply answered_snoc.
Qed.

End Answers.

(** ** After a refused post *)

Section Refused.

Context {ext : Externals}.

Lemma no_failure_split (evs pre post : list Event) (s : Status) :
  existsb is_failure evs = false ->
  evs <> pre ++ EvPost s (Raise MastodonError) :: post.
Proof.
  intros N ->. rewrite existsb_app in N. cbn [existsb is_failure] in N.
  rewrite orb_true_r in N. discriminate.
Qed.

Lemma raised_at_failure (dry : bool) (config : Config) (feed : Feed)
      (rest : list (result Entry)) (last : list Event) (x : exn) :
  raised_at dry config feed rest last x -> existsb is_failure last = false.
Proof.
  destruct 1 as [ | | entry rest s x D C N]; try reflexivity.
  cbn. now destruct x.
Qed.

(** In a run that an exception ends, what follows a refused post is the
    fetch of the next feed. *)
Lemma feeds_raise_stops (dry : bool) (config : Config) (feeds : list Feed)
      (evs : list Event) (x : exn) :
  feeds_raise dry config feeds evs x ->
  forall pre s post,
    evs = pre ++ EvPost s (Raise MastodonError) :: post ->
    exists u post', post = EvFetch u :: post'.
Proof.
  intros (done & feed & rest & evs0 & failed & evs1 & -> & R & -> & L)
         pre s post H.
  symmetry in H. apply app_split in H.
  destruct H as [(m & -> & ->) | (m & -> & H)].
  - destruct (feeds_trace_stops _ _ _ _ _ R pre s m eq_refl)
      as [-> | (u & m' & ->)]; cbn [app]; eauto.
  - exfalso. revert H. apply no_failure_split. cbn [existsb is_failure orb].
    destruct (get_feed (feed_url feed) (Some (cfg_updated config)))
      as [items|e].
    + destruct L as (done' & rest' & evs10 & last & _ & R' & L & ->).
      rewrite existsb_app, (entries_trace_failed _ _ _ _ _ _ R').
      exact (raised_at_failure _ _ _ _ _ _ L).
    + now destruct L as [_ ->].
Qed.

End Refused.

(** ** What follows an entry *)

(** The feed a run is going through after the events [pre]: the n-th of the
    feeds once n feeds have been fetched. *)
Definition current_feed (feeds : list Feed) (pre : list Event) : option Feed :=
  match List.length (fetches pre) with
  | O => None
  | S n => nth_error feeds n
  end.

(** The event that shows a status: its print, or its post. *)
Definition shows (s : Status) (ev : Event) : Prop :=
  ev = EvPprint s \/ exists r, ev = EvPost s r.

Section Follows.

Context {ext : Externals}.

Lemma entries_trace_follows (dry : bool) (config : Config) (feed : Feed)
      (items : list (result Entry)) (evs : list Event) (failed : bool) :
  entries_trace dry config feed items evs failed ->
  forall pre e post,
    evs = pre ++ EvEntry e :: post ->
    fetches pre = [] /\
    exists s ev post',
      compose config feed e = Ok s /\ post = ev :: post' /\ shows s ev.
Proof.
  induction 1 as [ | entry items s0 evs failed D C R IH
                   | entry items s0 evs failed D C R IH
                   | entry items s0 D C ]; intros pre e post E.
  - destruct pre; discriminate.
  - apply cons_eq_app in E. destruct E as [(-> & E & <-) | (p1 & -> & E)].
    + injection E as <-. split; [reflexivity | ].
      exists s0, (EvPprint s0), evs. repeat split; [exact C | now left].
    + apply cons_eq_app in E. destruct E as [(_ & E & _) | (p2 & -> & E)];
        [discriminate | ].
      exact (IH _ _ _ E).
  - apply cons_eq_app in E. destruct E as [(-> & E & <-) | (p1 & -> & E)].
    + injection E as <-. split; [reflexivity | ].
      exists s0, (EvPost s0 (Ok tt)), (EvSleep :: evs).
      repeat split; [exact C | right; eauto].
    + apply cons_eq_app in E. destruct E as [(_ & E & _) | (p2 & -> & E)];
        [discriminate | ].
      apply cons_eq_app in E. destruct E as [(_ & E & _) | (p3 & -> & E)];
        [discriminate | ].
      exact (IH _ _ _ E).
  - apply cons_eq_app in E. destruct E as [(-> & E & <-) | (p1 & -> & E)].
    + injection E as <-. split; [reflexivity | ].
      exists s0, (EvPost s0 (Raise MastodonError)), [].
      repeat split; [exact C | right; eauto].
    + apply cons_eq_app in E. destruct E as [(_ & E & _) | (p2 & -> & E)];
        [discriminate | ].
      destruct p2; discriminate.
Qed.

Lemma current_feed_first (feed : Feed) (feeds : list Feed) (pre : list Event) :
  fetches pre = [] ->
  current_feed (feed :: feeds) (EvFetch (feed_url feed) :: pre) = Some feed.
Proof.
  intros F. unfold current_feed, fetches in *. cbn [flat_map app].
  now rewrite F.
Qed.

Lemma current_feed_later (feed f : Feed) (feeds : list Feed)
      (evs pre : list Event) :
  fetches evs = [] ->
  current_feed feeds pre = Some f ->
  current_feed (feed :: feeds) (EvFetch (feed_url feed) :: evs ++ pre) = Some f.
Proof.
  intros F. unfold current_feed, fetches in *. cbn [flat_map app].
  rewrite flat_map_app, F. cbn [app List.length].
  now destruct (List.length
                  (flat_map (fun ev => match ev with
                                       | EvFetch u => [u]
                                       | _ => []
                                       end) pre)).
Qed.

(** In a loop over the feeds that ends, every entry gone through belongs
    to the feed fetched last, was composed for it, and its status is shown
    next. *)
Lemma feeds_trace_follows (dry : bool) (config : Config) (feeds : list Feed)
      (evs : list Event) (failed : bool) :
  feeds_trace dry config feeds evs failed ->
  forall pre e post,
    evs = pre ++ EvEntry e :: post ->
    exists feed s ev post',
      current_feed feeds pre = Some feed /\
      compose config feed e = Ok s /\ post = ev :: post' /\ shows s ev.
Proof.
  induction 1 as [ | feed feeds items evs failed evs' failed' G R F IH];
    intros pre e post E.
  - destruct pre; discriminate.
  - apply cons_eq_app in E. destruct E as [(_ & E & _) | (p1 & -> & E)];
      [discriminate | ].
    symmetry in E. apply app_split in E.
    destruct E as [(m & E & ->) | (m & -> & E)].
    + destruct (entries_trace_follows _ _ _ _ _ _ R _ _ _ E)
        as (Fp & s & ev & post' & C & -> & S).
      exists feed, s, ev, (post' ++ evs').
      repeat split; try assumption. now apply current_feed_first.
    + destruct (IH _ _ _ E) as (f & s & ev & post' & Cf & C & -> & S).
      exists f, s, ev, post'. repeat split; try assumption.
      apply current_feed_later; [ | exact Cf].
      apply (entries_trace_fetches _ _ _ _ _ _ R).
Qed.

Lemma current_feed_app (done rest : list Feed) (pre : list Event) (f : Feed) :
  current_feed done pre = Some f -> current_feed (done ++ rest) pre = Some f.
Proof.
  unfold current_feed. destruct (List.length (fetches pre)) as [|n];
    [discriminate | ].
  intros H. rewrite nth_error_app1; [exact H | ].
  apply nth_error_Some. congruence.
Qed.

Lemma current_feed_next (dry : bool) (config : Config)
      (done rest : list Feed) (feed : Feed) (evs0 pre : list Event)
      (failed : bool) :
  feeds_trace dry config done evs0 failed ->
  fetches pre = [] ->
  current_feed (done ++ feed :: rest) (evs0 ++ EvFetch (feed_url feed) :: pre)
  = Some feed.
Proof.
  intros R F. unfold current_feed.
  assert (E : fetches (evs0 ++ EvFetch (feed_url feed) :: pre)
              = map feed_url done ++ [feed_url feed]).
  { unfold fetches in *. rewrite flat_map_app. cbn [flat_map app].
    rewrite F. f_equal. apply (feeds_trace_fetches _ _ _ _ _ R). }
  rewrite E, length_app, length_map. cbn [List.length].
  rewrite Nat.add_1_r, nth_error_app2 by lia.
  now rewrite Nat.sub_diag.
Qed.

(** In a loop over the feeds that an exception ends, the same holds, but
    for the last entry when it is the one that could not be composed:
    nothing follows it. *)
Lemma feeds_raise_follows (dry : bool) (config : Config) (feeds : list Feed)
      (evs : list Event) (x : exn) :
  feeds_raise dry config feeds evs x ->
  forall pre e post,
    evs = pre ++ EvEntry e :: post ->
    exists feed,
      current_feed feeds pre = Some feed /\
      match compose config feed e with
      | Ok s => exists ev post', post = ev :: post' /\ shows s ev
      | Raise x' => post = [] /\ x' = x
      end.
Proof.
  intros (done & feed & rest & evs0 & failed & evs1 & -> & R & -> & L)
         pre e post E.
  symmetry in E. apply app_split in E.
  destruct E as [(m & E & ->) | (m & -> & E)].
  - destruct (feeds_trace_follows _ _ _ _ _ R _ _ _ E)
      as (f & s & ev & post' & Cf & C & -> & S).
    exists f. split; [now apply current_feed_app | ].
    rewrite C. exists ev, (post' ++ EvFetch (feed_url feed) :: evs1).
    now split.
  - apply cons_eq_app in E. destruct E as [(_ & E & _) | (m' & -> & E)];
      [discriminate | ].
    exists feed.
    destruct (get_feed (feed_url feed) (Some (cfg_updated config)))
      as [items|e0]; [ | destruct L as [_ ->]; destruct m'; discriminate].
    destruct L as (done' & rest' & evs10 & last & _ & R' & L & ->).
    symmetry in E. apply app_split in E.
    destruct E as [(m2 & E & ->) | (m2 & -> & E)].
    + destruct (entries_trace_follows _ _ _ _ _ _ R' _ _ _ E)
        as (Fp & s & ev & post' & C & -> & S).
      split; [now apply (current_feed_next dry config _ _ _ _ _ failed) | ].
      rewrite C. exists ev, (post' ++ last). now split.
    + assert (Fp : fetches (evs10 ++ m2) = [] -> 
                   current_feed (done ++ feed :: rest)
                     (evs0 ++ EvFetch (feed_url feed) :: evs10 ++ m2)
                   = Some feed)
        by (intros Fp; now apply (current_feed_next dry config _ _ _ _ _ failed)).
      assert (F10 : fetches evs10 = [])
        by apply (entries_trace_fetches _ _ _ _ _ _ R').
      destruct L as [rest'' x | entry rest'' x C | entry rest'' s x D C N].
      * destruct m2; discriminate.
      * apply cons_eq_app in E. destruct E as [(-> & E & <-) | (p & -> & E)];
          [ | destruct p; discriminate].
        injection E as <-. rewrite app_nil_r in *.
        split; [now apply Fp | ]. rewrite C. now split.
      * apply cons_eq_app in E. destruct E as [(-> & E & <-) | (p & -> & E)].
        -- injection E as <-. rewrite app_nil_r in *.
           split; [now apply Fp | ]. rewrite C.
           exists (EvPost s (Raise x)), []. split; [reflexivity | right; eauto].
        -- apply cons_eq_app in E.
           destruct E as [(_ & E & _) | (p' & -> & E)]; [discriminate | ].
           destruct p'; discriminate.
Qed.

End Follows.

(** ** Every run *)

Section EveryRun.

Context {ext : Externals}.

Lemma feeds_raise_fetches (dry : bool) (config : Config) (feeds : list Feed)
      (evs : list Event) (x : exn) :
  feeds_raise dry config feeds evs x ->
  exists done feed rest,
    feeds = done ++ feed :: rest /\
    fetches evs = map feed_url done ++ [feed_url feed].
Proof.
  intros (done & feed & rest & evs0 & failed & evs1 & -> & R & -> & L).
  exists done, feed, rest. split; [reflexivity | ].
  unfold fetches. rewrite flat_map_app. cbn [flat_map app].
  change (flat_map _ evs0) with (fetches evs0).
  rewrite (proj1 (feeds_trace_fetches _ _ _ _ _ R)). do 2 f_equal.
  change (fetches evs1 = []).
  destruct (get_feed (feed_url feed) (Some (cfg_updated config)))
    as [items|e]; [ | now destruct L as [_ ->]].
  destruct L as (done' & rest' & evs10 & last & _ & R' & L & ->).
  unfold fetches. rewrite flat_map_app.
  change (flat_map _ evs10) with (fetches evs10).
  rewrite (proj1 (entries_trace_fetches _ _ _ _ _ _ R')).
  now destruct L.
Qed.

(** The feeds are fetched in the order of the configuration: all of them
    in a run that reaches its end, those up to the one on which the
    exception was raised otherwise. *)
Lemma main_fetches (args : Args) (file : ConfigFile) (config : Config) :
  read_config file = Ok config ->
  exists done rest,
    cfg_feeds config = done ++ rest /\
    fetches (events (main args file)) = map feed_url done /\
    ((exists code, outcome (main args file) = Exit code) -> rest = []).
Proof.
  intros RC. destruct (outcome (main args file)) as [code|x] eqn:O.
  - apply main_Exit in O.
    destruct O as (config' & evs & failed & RC' & R & _ & Ev).
    rewrite RC in RC'. injection RC' as <-.
    exists (cfg_feeds config), []. rewrite app_nil_r.
    split; [reflexivity | split; [ | reflexivity]].
    pose proof (proj1 (feeds_trace_fetches _ _ _ _ _ R)) as F.
    destruct (dry_run args); destruct Ev as [-> _]; [exact F | ].
    unfold fetches in *. rewrite flat_map_app, F. cbn. apply app_nil_r.
  - apply main_Crash_trace in O.
    destruct O as [_ [[RC' _] | (config' & RC' & R)]]; [congruence | ].
    rewrite RC in RC'. injection RC' as <-.
    apply feeds_raise_fetches in R. destruct R as (done & feed & rest & E & F).
    exists (done ++ [feed]), rest. rewrite <- app_assoc, map_app.
    split; [exact E | split; [exact F | ]]. intros [code C]. discriminate C.
Qed.

(** After a refused post comes the fetch of the next feed, or the end of
    the run. *)
Lemma main_stops (args : Args) (file : ConfigFile) :
  forall pre s post,
    events (main args file) = pre ++ EvPost s (Raise MastodonError) :: post ->
    post = [] \/ (exists u post', post = EvFetch u :: post') \/
    (exists saved, post = [EvSave saved]).
Proof.
  intros pre s post E.
  destruct (outcome (main args file)) as [code|x] eqn:O.
  - apply main_Exit in O.
    destruct O as (config & evs & failed & _ & R & _ & Ev).
    pose proof (feeds_trace_stops _ _ _ _ _ R) as S.
    destruct (dry_run args); destruct Ev as [Ev _]; rewrite Ev in E.
    + destruct (S _ _ _ E) as [-> | H]; auto.
    + symmetry in E. apply app_split in E.
      destruct E as [(m & E & ->) | (m & -> & E)].
      * destruct (S _ _ _ E) as [-> | (u & m' & ->)]; cbn [app]; eauto.
      * apply cons_eq_app in E.
        destruct E as [(_ & E & _) | (m' & -> & E)]; [discriminate | ].
        destruct m'; discriminate.
  - apply main_Crash_trace in O.
    destruct O as [_ [[_ Ev] | (config & _ & R)]].
    + rewrite Ev in E. destruct pre; discriminate.
    + right. left. exact (feeds_raise_stops _ _ _ _ _ R _ _ _ E).
Qed.

(** Every entry gone through belongs to the feed fetched last.  Its status
    is composed and shown next; or it cannot be composed, and then nothing
    follows: the exception ends the run. *)
Lemma main_follows (args : Args) (file : ConfigFile) (config : Config) :
  read_config file = Ok config ->
  forall pre e post,
    events (main args file) = pre ++ EvEntry e :: post ->
    exists feed,
      current_feed (cfg_feeds config) pre = Some feed /\
      match compose config feed e with
      | Ok s => exists ev post', post = ev :: post' /\ shows s ev
      | Raise x => post = [] /\ outcome (main args file) = Crash x
      end.
Proof.
  intros RC pre e post E.
  destruct (outcome (main args file)) as [code|x] eqn:O.
  - apply main_Exit in O.
    destruct O as (config' & evs & failed & RC' & R & _ & Ev).
    rewrite RC in RC'. injection RC' as <-.
    pose proof (feeds_trace_follows _ _ _ _ _ R) as S.
    assert (K : forall m, evs = pre ++ EvEntry e :: m ->
                exists feed,
                  current_feed (cfg_feeds config) pre = Some feed /\
                  match compose config feed e with
                  | Ok s => exists ev post', m = ev :: post' /\ shows s ev
                  | Raise x => m = [] /\ Exit code = Crash x
                  end).
    { intros m Em.
      destruct (S _ _ _ Em) as (f & s & ev & post' & Cf & C & -> & Sh).
      exists f. split; [exact Cf | ]. rewrite C. eauto. }
    destruct (dry_run args); destruct Ev as [Ev _]; rewrite Ev in E.
    + exact (K _ E).
    + symmetry in E. apply app_split in E.
      destruct E as [(m & E & ->) | (m & -> & E)].
      * destruct (K _ E) as (f & Cf & M). exists f. split; [exact Cf | ].
        destruct (compose config f e) as [s|x].
        -- destruct M as (ev & post' & -> & Sh). cbn [app]. eauto.
        -- destruct M as [_ M]. discriminate M.
      * apply cons_eq_app in E.
        destruct E as [(_ & E & _) | (m' & -> & E)]; [discriminate | ].
        destruct m'; discriminate.
  - apply main_Crash_trace in O.
    destruct O as [_ [[RC' _] | (config' & RC' & R)]]; [congruence | ].
    rewrite RC in RC'. injection RC' as <-.
    destruct (feeds_raise_follows _ _ _ _ _ R _ _ _ E) as (f & Cf & M).
    exists f. split; [exact Cf | ].
    destruct (compose config f e) as [s|x']; [exact M | ].
    destruct M as [-> ->]. now split.
Qed.

End EveryRun.

(** ** [cleanup] on an example *)

(** Runs of non-breaking spaces and of spaces become one space, the spaces
    that end a line go, four newlines become two, and the ends are
    trimmed. *)
Example cleanup_scenario :
  let nl := String newline EmptyString in
  let nb := String nbsp EmptyString in
  @cleanup Demo.world
           (" a  b   " +++ nl +++ nl +++ nl +++ nl +++ nb +++ nb +++ "c d  ")
  = ("a b" +++ nl +++ nl +++ " c d")%string.
Proof. reflexivity. Qed.

(* ================================================================== *)
(** * The claims                                                        *)
(* ================================================================== *)

(** ** C1: the watermark a run persists *)

(** C1, as stated, fails for a run that an exception ends.  Both entries of
    feed ["B"] are posted, then feed ["N"] cannot be fetched: nothing is
    saved, and the watermark of the configuration is after the run what it
    was before, below the entries the run went through.  The next run posts
    them again. *)
Lemma watermark_not_persisted :
  let run := @main Broken.world Demo.live Broken.three_feeds in
  events run
  = [ EvFetch "B";
      EvEntry (Demo.entry "B1" 10 20);
      EvPost (Demo.unlisted "B1") (Ok tt); EvSleep;
      EvEntry (Demo.entry "B2" 10 30);
      EvPost (Demo.unlisted "B2") (Ok tt); EvSleep;
      EvFetch "N" ] /\
  outcome run = Crash TypeError /\
  saves (events run) = [] /\
  file_after run = Broken.three_feeds /\
  @read_config Broken.world (file_after run)
  = Ok (set_updated Broken.three_feeds min_utc) /\
  dt_lt min_utc (updated (Demo.entry "B2" 10 30)) /\
  @main Broken.world Demo.live (file_after run) = run.
Proof.
  intros run.
  split; [vm_compute; reflexivity | ].
  split; [vm_compute; reflexivity | ].
  split; [vm_compute; reflexivity | ].
  split; [vm_compute; reflexivity | ].
  split; [vm_compute; reflexivity | ].
  split; [unfold dt_lt; vm_compute; reflexivity | ].
  vm_compute; reflexivity.
Qed.

(** C1, amended.  A live run in which nothing raises but the server's
    [MastodonError] reaches its end.  A live run that reaches its end has
    fetched every feed and gone through the entries the fetches yield, each
    feed up to its first refused post ([feeds_trace]), every post recording
    what the server answered; as the last thing it does, it persists the
    greatest [updated] among the watermark it started with and the entries
    it went through, whatever the exit code: the next [read_config] reads
    that value.  It is the [updated] of one of the entries when there is
    any, and never less than the starting watermark.  A run that an
    exception ends persists nothing. *)
Theorem watermark_persisted :
  forall (ext : Externals) (args : Args) (file : ConfigFile),
    reads_iso_8601 ext ->
    parses_valid ext ->
    dry_run args = false ->
    answered (events (main args file)) /\
    (forall config,
        read_config file = Ok config -> no_exception args config ->
        exists code, outcome (main args file) = Exit code) /\
    (forall code,
        outcome (main args file) = Exit code ->
        exists (config : Config) (evs : list Event) (m : datetime),
          read_config file = Ok config /\
          events (main args file)
          = evs ++ [EvSave (file_after (main args file))] /\
          feeds_trace false config (cfg_feeds config) evs
                      (existsb is_failure evs) /\
          fetches evs = map feed_url (cfg_feeds config) /\
          saves evs = [] /\
          Forall2 (fun e p => exists feed, In feed (cfg_feeds config) /\
                                           compose config feed e = Ok (fst p))
                  (entries_of evs) (posts evs) /\
          m = newest (cfg_updated config) (entries_of evs) /\
          file_after (main args file) = save_config config m /\
          cfg_updated (file_after (main args file)) = Some (isoformat m) /\
          read_config (file_after (main args file))
          = Ok (set_updated config m) /\
          In m (cfg_updated config :: map updated (entries_of evs)) /\
          Forall (fun e => dt_le (updated e) m) (entries_of evs) /\
          (entries_of evs <> [] -> In m (map updated (entries_of evs))) /\
          dt_le (cfg_updated config) m /\
          code = (if existsb is_failure evs then 1 else 0)) /\
    (forall x,
        outcome (main args file) = Crash x ->
        file_after (main args file) = file /\
        saves (events (main args file)) = []).
Proof.
  intros ext args file RI PV D.
  split; [apply main_answered | ]. split; [ | split].
  - intros config RC NE. exact (main_completes args file config RC NE).
  - intros code H.
    apply main_Exit in H. rewrite D in H.
    destruct H as (config & evs & failed & RC & R & C & Ev & FA).
    exists config, evs, (newest (cfg_updated config) (entries_of evs)).
    pose proof (feeds_trace_fetches _ _ _ _ _ R) as [Fe Sa].
    pose proof (newest_upper (cfg_updated config) (entries_of evs)) as [U1 U2].
    rewrite (feeds_trace_failed _ _ _ _ _ R), FA.
    repeat split; auto.
    + now apply feeds_trace_posts with (failed := failed).
    + apply read_saved; [exact RI | ].
      apply newest_valid.
      * now apply (read_config_valid file).
      * now apply (feeds_trace_valid _ _ _ _ _ PV R).
    + apply newest_In.
    + intros NE. apply newest_seen; [exact NE | ].
      now apply feeds_trace_newer with (dry := false)
                                       (feeds := cfg_feeds config)
                                       (failed := failed).
  - intros x H. exact (main_Crash args file x H).
Qed.

(** The scenario of the specification: the post of feed A's first entry is
    refused, both entries of feed B are posted; the exit code is 1 and the
    persisted watermark is the newest [updated] seen, 10:30. *)
Example two_feeds_scenario :
  @main Demo.world Demo.live Demo.two_feeds =
  mkrun [ EvFetch "A";
          EvEntry (Demo.entry "A1" 10 0);
          EvPost (Demo.unlisted "A1") (Raise MastodonError);
          EvFetch "B";
          EvEntry (Demo.entry "B1" 10 20);
          EvPost (Demo.unlisted "B1") (Ok tt); EvSleep;
          EvEntry (Demo.entry "B2" 10 30);
          EvPost (Demo.unlisted "B2") (Ok tt); EvSleep;
          EvSave (set_updated Demo.two_feeds
                              (Some "2024-01-01T10:30:00+00:00"%string)) ]
        (set_updated Demo.two_feeds (Some "2024-01-01T10:30:00+00:00"%string))
        (Exit 1).
Proof. vm_compute. reflexivity. Qed.

(** In the small world nothing raises that [main] does not catch. *)
Example demo_no_exception (args : Args) :
  @no_exception Demo.world args (set_updated Demo.two_feeds min_utc).
Proof.
  split.
  - intros feed [<- | [<- | []]]; eexists;
      (split; [vm_compute; reflexivity | repeat constructor]).
  - intros _ history s. cbn. unfold Demo.server.
    destruct (String.eqb (status s) "A1"); auto.
Qed.

Lemma watermark_persisted_witness :
  let run := @main Demo.world Demo.live Demo.two_feeds in
  reads_iso_8601 Demo.world /\
  parses_valid Demo.world /\
  dry_run Demo.live = false /\
  outcome run = Exit 1 /\
  entries_of (events run)
  = [Demo.entry "A1" 10 0; Demo.entry "B1" 10 20; Demo.entry "B2" 10 30] /\
  cfg_updated (file_after run) = Some "2024-01-01T10:30:00+00:00"%string /\
  exists (config : Config) (evs : list Event) (m : datetime),
    @read_config Demo.world Demo.two_feeds = Ok config /\
    events run = evs ++ [EvSave (file_after run)] /\
    @feeds_trace Demo.world false config (cfg_feeds config) evs
                 (existsb is_failure evs) /\
    fetches evs = map feed_url (cfg_feeds config) /\
    saves evs = [] /\
    Forall2 (fun e p => exists feed, In feed (cfg_feeds config) /\
                                     @compose Demo.world config feed e
                                     = Ok (fst p))
            (entries_of evs) (posts evs) /\
    m = newest (cfg_updated config) (entries_of evs) /\
    file_after run = save_config config m /\
    cfg_updated (file_after run) = Some (isoformat m) /\
    @read_config Demo.world (file_after run) = Ok (set_updated config m) /\
    In m (cfg_updated config :: map updated (entries_of evs)) /\
    Forall (fun e => dt_le (updated e) m) (entries_of evs) /\
    (entries_of evs <> [] -> In m (map updated (entries_of evs))) /\
    dt_le (cfg_updated config) m /\
    1 = (if existsb is_failure evs then 1 else 0).
Proof.
  intros run.
  split; [exact demo_reads_iso_8601 | ].
  split; [exact demo_parses_valid | ].
  split; [reflexivity | ]. split; [vm_compute; reflexivity | ].
  split; [vm_compute; reflexivity | ]. split; [vm_compute; reflexivity | ].
  destruct (watermark_persisted Demo.world Demo.live Demo.two_feeds
              demo_reads_iso_8601 demo_parses_valid eq_refl)
    as (_ & _ & E & _).
  apply (E 1). vm_compute. reflexivity.
Defined.

(** ** C2 and C3: what a fetch returns, and in which order *)

(** C2. Fetching with watermark [w] returns exactly the entries whose
    parsed update timestamp is strictly greater than [w]: the result is
    built, one entry for one, from a permutation of the feed entries that
    pass the test, every returned entry is strictly newer than [w], and a
    feed entry is among them if and only if its timestamp is strictly
    greater than [w] (so one equal to [w] is not).  Fetching with no
    watermark returns the entries of the whole feed. *)
Theorem fetch_newer_than_watermark :
  forall (ext : Externals) (feed_url : string)
         (last_update : option datetime) (out : list Entry),
    fetch feed_url last_update = Ok out ->
    exists raws : list RawEntry,
      Forall2 (fun r e => get_entry r = Ok e) raws out /\
      match last_update with
      | Some w =>
          Permutation raws (filter (is_newer w) (feedparser_parse feed_url)) /\
          Forall (fun e => dt_lt w (updated e)) out /\
          (forall r, In r (feedparser_parse feed_url) ->
                     exists d, parsed_updated r = Ok d /\
                               (In r raws <-> dt_lt w d))
      | None => Permutation raws (feedparser_parse feed_url)
      end.
Proof.
  intros ext feed_url last_update out H.
  apply fetch_Ok in H. destruct H as (F2 & _ & C).
  exists (selected feed_url last_update). split; [exact F2 | ].
  pose proof (selected_Permutation feed_url last_update) as P.
  destruct last_update as [w|]; [ | exact P].
  split; [exact P | split].
  - rewrite Forall_forall. intros e He.
    destruct (Forall2_In_r _ _ _ F2 e He) as (r & Hr & Ge).
    apply get_entry_updated in Ge.
    apply (Permutation_in _ P), filter_In in Hr.
    now apply (is_newer_lt w r (updated e) Ge).
  - intros r Hr. rewrite Forall_forall in C.
    destruct (C r Hr) as (d & Hd & _). exists d. split; [exact Hd | ].
    rewrite <- (is_newer_lt w r d Hd). split.
    + intros I. apply (Permutation_in _ P), filter_In in I. tauto.
    + intros N. apply (Permutation_in _ (Permutation_sym P)), filter_In. tauto.
Qed.

Lemma fetch_newer_than_watermark_witness :
  @fetch Demo.world "A" (Some (Demo.at_time 10 2)) = Ok [Demo.entry "A2" 10 5] /\
  exists raws : list RawEntry,
    Forall2 (fun r e => @get_entry Demo.world r = Ok e) raws
            [Demo.entry "A2" 10 5] /\
    Permutation raws
      (filter (@is_newer Demo.world (Demo.at_time 10 2))
              (@feedparser_parse Demo.world "A")) /\
    Forall (fun e => dt_lt (Demo.at_time 10 2) (updated e))
           [Demo.entry "A2" 10 5] /\
    (forall r, In r (@feedparser_parse Demo.world "A") ->
               exists d, @parsed_updated Demo.world r = Ok d /\
                         (In r raws <-> dt_lt (Demo.at_time 10 2) d)).
Proof.
  split; [reflexivity | ].
  apply (fetch_newer_than_watermark Demo.world "A" (Some (Demo.at_time 10 2))).
  reflexivity.
Defined.

(** The scenario of the specification: entries at 10:00 and 10:05, watermark
    10:02; only the 10:05 entry is fetched. *)
Example fetch_scenario :
  @fetch Demo.world "A" (Some (Demo.at_time 10 2)) = Ok [Demo.entry "A2" 10 5].
Proof. reflexivity. Qed.


(** The whole seconds of a timestamp, in UTC. *)
Definition utc_seconds (d : datetime) : Z := utc_micros d / 1000000.

(** What the sort asks of feedparser: [updated_parsed] is the time that
    [updated] tells, in UTC, as a [struct_time], which has whole seconds.
    Stated on the order: the keys of two entries of the feed compare as the
    whole seconds of their parsed [updated]. *)
Definition keys_in_seconds {ext : Externals} (feed : list RawEntry) : Prop :=
  forall r1 r2 k1 k2 d1 d2,
    In r1 feed -> In r2 feed ->
    key_of r1 = Some k1 -> key_of r2 = Some k2 ->
    parsed_updated r1 = Ok d1 -> parsed_updated r2 = Ok d2 ->
    (struct_time_ltb k1 k2 = true <-> utc_seconds d1 < utc_seconds d2).









(** Feed ["S"] meets what is asked of feedparser too; its two entries fall
    within one second, and of their order the theorem says nothing. *)
Example keys_in_seconds_S :
  @keys_in_seconds Demo.world (@feedparser_parse Demo.world "S").
Proof.
  intros r1 r2 k1 k2 d1 d2 H1 H2 K1 K2 P1 P2.
  cbn in H1, H2.
  destruct H1 as [<- | [<- | []]]; destruct H2 as [<- | [<- | []]];
    vm_compute in K1, K2, P1, P2;
    injection K1 as <-; injection K2 as <-;
    injection P1 as <-; injection P2 as <-;
    vm_compute; split; intros H; congruence.
Qed.

(** The two entries of feed ["S"] as the fetch yields them. *)
Example fetch_same_second :
  exists e1 e2,
    @fetch Demo.world "S" (Some (Demo.at_time 9 0)) = Ok [e1; e2] /\
    dt_lt (updated e2) (updated e1).
Proof.
  eexists. eexists. split; [reflexivity | ].
  unfold dt_lt. vm_compute. reflexivity.
Qed.

(** ** C4: a refused post *)

(** C4, as stated, fails when an exception is raised that is not the
    server's [MastodonError]: [main] does not catch it.  After the refused
    post of A1 the run goes on with feed ["N"], cannot fetch it and ends
    there: feed ["B"], which has two entries to post, is never fetched.
    And the run that starts with feed ["B"] posts both entries, no post
    is refused, and it ends with status 1 all the same, on feed ["N"]. *)
Lemma later_feed_not_processed :
  let run := @main Broken.world Demo.live Broken.refused_first in
  let run' := @main Broken.world Demo.live Broken.three_feeds in
  map feed_url (cfg_feeds Broken.refused_first)
  = ["A"; "N"; "B"]%string /\
  events run
  = [ EvFetch "A";
      EvEntry (Demo.entry "A1" 10 0);
      EvPost (Demo.unlisted "A1") (Raise MastodonError);
      EvFetch "N" ] /\
  outcome run = Crash TypeError /\
  ~ In "B"%string (fetches (events run)) /\
  @fetch Broken.world "B" (Some min_utc)
  = Ok [Demo.entry "B1" 10 20; Demo.entry "B2" 10 30] /\
  posts (events run')
  = [(Demo.unlisted "B1", Ok tt); (Demo.unlisted "B2", Ok tt)] /\
  existsb is_failure (events run') = false /\
  outcome run' = Crash TypeError /\
  exit_status (outcome run') = 1.
Proof.
  intros run run'.
  split; [reflexivity | ].
  split; [vm_compute; reflexivity | ].
  split; [vm_compute; reflexivity | ].
  split.
  - assert (E : fetches (events run) = ["A"; "N"]%string)
      by (vm_compute; reflexivity).
    rewrite E. intros [H | [H | []]]; discriminate H.
  - split; [vm_compute; reflexivity | ].
    split; [vm_compute; reflexivity | ].
    split; [vm_compute; reflexivity | ].
    split; vm_compute; reflexivity.
Qed.

(** C4, amended.  In every live run, however it ends: every post records
    what the server answered; what follows a refused post is the fetch of
    the next feed, or the end of the run, so the entries after it in its
    feed are not gone through; and when a post was refused the process ends
    with status 1.  A run in which nothing is raised but [MastodonError]
    reaches its end; a run that reaches its end has fetched every feed, each
    gone through up to its first refused post ([feeds_trace]), and exits
    with code 1 when a post was refused, with code 0 when none was.  Any
    other exception ends the run: the configuration could not be read, or
    the feeds after the one it was raised on are not fetched; the status
    is 1. *)
Theorem refused_post_ends_feed :
  forall (ext : Externals) (args : Args) (file : ConfigFile),
    dry_run args = false ->
    answered (events (main args file)) /\
    (forall pre s post,
        events (main args file)
        = pre ++ EvPost s (Raise MastodonError) :: post ->
        post = [] \/ (exists u post', post = EvFetch u :: post') \/
        (exists saved, post = [EvSave saved])) /\
    (existsb is_failure (events (main args file)) = true ->
     exit_status (outcome (main args file)) = 1) /\
    (forall config,
        read_config file = Ok config -> no_exception args config ->
        exists code, outcome (main args file) = Exit code) /\
    (forall code,
        outcome (main args file) = Exit code ->
        exists (config : Config) (evs : list Event),
          read_config file = Ok config /\
          events (main args file)
          = evs ++ [EvSave (file_after (main args file))] /\
          feeds_trace false config (cfg_feeds config) evs
                      (existsb is_failure evs) /\
          fetches evs = map feed_url (cfg_feeds config) /\
          code = (if existsb is_failure evs then 1 else 0)) /\
    (forall x,
        outcome (main args file) = Crash x ->
        exit_status (outcome (main args file)) = 1 /\
        (read_config file = Raise x /\ events (main args file) = [] \/
         exists config done feed rest,
           read_config file = Ok config /\
           cfg_feeds config = done ++ feed :: rest /\
           fetches (events (main args file))
           = map feed_url done ++ [feed_url feed])).
Proof.
  intros ext args file D.
  split; [apply main_answered | ].
  split; [apply main_stops | ].
  split; [ | split; [ | split]].
  - intros F. destruct (outcome (main args file)) as [code|x] eqn:O;
      [ | reflexivity].
    apply main_Exit in O. rewrite D in O.
    destruct O as (config & evs & failed & _ & R & -> & Ev & _).
    rewrite Ev, existsb_app, (feeds_trace_failed _ _ _ _ _ R) in F.
    cbn in F. rewrite orb_false_r in F. now rewrite F.
  - intros config RC NE. exact (main_completes args file config RC NE).
  - intros code H.
    apply main_Exit in H. rewrite D in H.
    destruct H as (config & evs & failed & RC & R & C & Ev & FA).
    exists config, evs.
    rewrite (feeds_trace_failed _ _ _ _ _ R), FA.
    repeat split; auto.
    apply (feeds_trace_fetches _ _ _ _ _ R).
  - intros x H. rewrite H. split; [reflexivity | ].
    apply main_Crash_trace in H.
    destruct H as [_ [H | (config & RC & R)]]; [now left | right].
    apply feeds_raise_fetches in R. destruct R as (done & feed & rest & E & F).
    now exists config, done, feed, rest.
Qed.

Lemma refused_post_ends_feed_witness :
  let run := @main Demo.world Demo.live Demo.two_feeds in
  dry_run Demo.live = false /\
  events run
  = [ EvFetch "A";
      EvEntry (Demo.entry "A1" 10 0);
      EvPost (Demo.unlisted "A1") (Raise MastodonError);
      EvFetch "B";
      EvEntry (Demo.entry "B1" 10 20);
      EvPost (Demo.unlisted "B1") (Ok tt); EvSleep;
      EvEntry (Demo.entry "B2" 10 30);
      EvPost (Demo.unlisted "B2") (Ok tt); EvSleep;
      EvSave (file_after run) ] /\
  outcome run = Exit 1 /\
  @answered Demo.world (events run) /\
  (forall pre s post,
      events run = pre ++ EvPost s (Raise MastodonError) :: post ->
      post = [] \/ (exists u post', post = EvFetch u :: post') \/
      (exists saved, post = [EvSave saved])) /\
  (existsb is_failure (events run) = true -> exit_status (outcome run) = 1) /\
  exists (config : Config) (evs : list Event),
    @read_config Demo.world Demo.two_feeds = Ok config /\
    events run = evs ++ [EvSave (file_after run)] /\
    @feeds_trace Demo.world false config (cfg_feeds config) evs
                 (existsb is_failure evs) /\
    fetches evs = map feed_url (cfg_feeds config) /\
    1 = (if existsb is_failure evs then 1 else 0).
Proof.
  intros run. split; [reflexivity | ].
  split; [vm_compute; reflexivity | ]. split; [vm_compute; reflexivity | ].
  destruct (refused_post_ends_feed Demo.world Demo.live Demo.two_feeds
                                   eq_refl) as (A & S & F & _ & E & _).
  split; [exact A | ]. split; [exact S | ]. split; [exact F | ].
  apply (E 1). vm_compute. reflexivity.
Defined.

(** With no refused post the same run exits with code 0: feed ["B"] alone. *)
Example one_feed_scenario :
  outcome (@main Demo.world Demo.live
                 (Demo.config_file [mkfeed "B" "{title}"] None None))
  = Exit 0.
Proof. vm_compute. reflexivity. Qed.

(** ** C5 and C9: dry runs *)

Section DryFacts.

Context {ext : Externals}.

(** The statuses of a feed: those of its fetched entries, composed. *)
Definition statuses_of (config : Config) (feed : Feed) : result (list Status) :=
  es <- fetch (feed_url feed) (Some (cfg_updated config)) ;;
  mapM (compose config feed) es.

Lemma mapM_id_Ok {A : Type} (l : list A) :
  mapM (fun item => item) (map Ok l) = Ok l.
Proof.
  induction l as [|x l IH]; cbn [map mapM Py.bind]; [reflexivity | ].
  now rewrite IH.
Qed.

Lemma pprints_app (t1 t2 : list Event) :
  pprints (t1 ++ t2) = pprints t1 ++ pprints t2.
Proof. apply flat_map_app. Qed.

Lemma feeds_trace_statuses (config : Config) (feeds : list Feed)
      (evs : list Event) (failed : bool) :
  feeds_trace true config feeds evs failed ->
  exists per_feed,
    mapM (statuses_of config) feeds = Ok per_feed /\
    List.concat per_feed = pprints evs.
Proof.
  induction 1 as [ | feed feeds items evs failed evs' failed' G R _ IH].
  - exists []. split; reflexivity.
  - destruct IH as (per & M & C).
    destruct (entries_trace_dry _ _ _ _ _ _ R eq_refl) as [-> _].
    destruct (entries_trace_prefix _ _ _ _ _ _ R) as (rest & EI & RE).
    rewrite (RE eq_refl), app_nil_r in EI.
    destruct (entries_trace_composed _ _ _ _ _ _ R) as [_ CO].
    exists (pprints evs :: per). split.
    + cbn [mapM]. unfold statuses_of at 1, fetch.
      rewrite G. cbn [Py.bind]. rewrite EI, mapM_id_Ok. cbn [Py.bind].
      rewrite (CO eq_refl). cbn [Py.bind]. now rewrite M.
    + cbn [List.concat]. rewrite C.
      change (EvFetch (feed_url feed) :: evs ++ evs')
        with ([EvFetch (feed_url feed)] ++ evs ++ evs').
      now rewrite !pprints_app.
Qed.

End DryFacts.

(** C5. A dry run calls the server for no entry of no feed, does not sleep,
    and leaves the configuration file, watermark included, as it was,
    however the run ends.  A dry run in which nothing raises reaches its
    end; when it does, it has fetched every feed and composed and printed
    the status of every fetched entry. *)
Theorem dry_run_changes_nothing :
  forall (ext : Externals) (args : Args) (file : ConfigFile),
    dry_run args = true ->
    posts (events (main args file)) = [] /\
    ~ In EvSleep (events (main args file)) /\
    saves (events (main args file)) = [] /\
    file_after (main args file) = file /\
    (forall config,
        read_config file = Ok config -> no_exception args config ->
        exists code, outcome (main args file) = Exit code) /\
    (forall code,
        outcome (main args file) = Exit code ->
        exists config per_feed,
          read_config file = Ok config /\
          fetches (events (main args file)) = map feed_url (cfg_feeds config) /\
          mapM (statuses_of config) (cfg_feeds config) = Ok per_feed /\
          pprints (events (main args file)) = List.concat per_feed).
Proof.
  intros ext args file D.
  destruct (main_dry args file D) as (P & S & V & F).
  repeat split; auto.
  - intros config RC NE. exact (main_completes args file config RC NE).
  - intros code H. apply main_Exit in H. rewrite D in H.
    destruct H as (config & evs & failed & RC & R & _ & Ev & _).
    rewrite Ev.
    destruct (feeds_trace_statuses _ _ _ _ R) as (per & M & C).
    exists config, per. repeat split; auto.
    apply (feeds_trace_fetches _ _ _ _ _ R).
Qed.

Lemma dry_run_changes_nothing_witness :
  let run := @main Demo.world Demo.dry Demo.two_feeds in
  dry_run Demo.dry = true /\
  outcome run = Exit 0 /\
  pprints (events run)
  = [Demo.unlisted "A1"; Demo.unlisted "A2";
     Demo.unlisted "B1"; Demo.unlisted "B2"] /\
  posts (events run) = [] /\
  ~ In EvSleep (events run) /\
  saves (events run) = [] /\
  file_after run = Demo.two_feeds /\
  (forall config,
      @read_config Demo.world Demo.two_feeds = Ok config ->
      @no_exception Demo.world Demo.dry config ->
      exists code, outcome run = Exit code) /\
  (forall code,
      outcome run = Exit code ->
      exists config per_feed,
        @read_config Demo.world Demo.two_feeds = Ok config /\
        fetches (events run) = map feed_url (cfg_feeds config) /\
        mapM (@statuses_of Demo.world config) (cfg_feeds config)
        = Ok per_feed /\
        pprints (events run) = List.concat per_feed).
Proof.
  intros run. split; [reflexivity | ]. split; [vm_compute; reflexivity | ].
  split; [vm_compute; reflexivity | ].
  apply (dry_run_changes_nothing Demo.world Demo.dry Demo.two_feeds).
  reflexivity.
Defined.

(** C9, as stated, fails: a dry run does not always end with status 0.  An
    exception is not caught in a dry run either; with a template that
    names an unknown field the first entry cannot be composed and the
    process ends with the traceback and status 1. *)
Lemma dry_run_exits_with_1 :
  let run := @main Demo.world Demo.dry Demo.unknown_field in
  dry_run Demo.dry = true /\
  run = mkrun [EvFetch "A"; EvEntry (Demo.entry "A1" 10 0)]
              Demo.unknown_field (Crash (KeyError "foo")) /\
  exit_status (outcome run) = 1.
Proof.
  intros run. split; [reflexivity | ].
  split; vm_compute; reflexivity.
Qed.

(** C9, amended.  In a dry run the error flag is never set: no post is
    attempted, let alone refused, and [sys.exit] is reached with code 0
    only, for every configuration and every feed content.  A dry run in
    which nothing raises does reach it.  The process ends with status 0
    exactly when it does, and with status 1 when an exception ends the
    run. *)
Theorem dry_run_exit_code :
  forall (ext : Externals) (args : Args) (file : ConfigFile),
    dry_run args = true ->
    posts (events (main args file)) = [] /\
    existsb is_failure (events (main args file)) = false /\
    outcome (main args file) <> Exit 1 /\
    (forall code, outcome (main args file) = Exit code -> code = 0) /\
    (forall config,
        read_config file = Ok config -> no_exception args config ->
        outcome (main args file) = Exit 0) /\
    (exit_status (outcome (main args file)) = 0
     <-> outcome (main args file) = Exit 0) /\
    (exit_status (outcome (main args file)) = 1
     <-> exists x, outcome (main args file) = Crash x) /\
    (exit_status (outcome (main args file)) = 0 \/
     exit_status (outcome (main args file)) = 1).
Proof.
  intros ext args file D.
  assert (Z0 : forall code, outcome (main args file) = Exit code -> code = 0).
  { intros code H. apply main_Exit in H. rewrite D in H.
    destruct H as (config & evs & failed & _ & R & -> & _).
    now destruct (feeds_trace_dry _ _ _ _ _ R eq_refl) as [-> _]. }
  destruct (main_dry args file D) as (P & _).
  split; [exact P | ]. split; [ | split; [ | split; [exact Z0 | split]]].
  - clear - P. induction (events (main args file)) as [|ev evs IH];
      [reflexivity | ].
    unfold posts in *. cbn [flat_map] in P. cbn [existsb].
    destruct ev; cbn in P; try discriminate P; cbn [is_failure orb];
      now apply IH.
  - intros H. apply Z0 in H. discriminate.
  - intros config RC NE.
    destruct (main_completes args file config RC NE) as [code H].
    now rewrite H, (Z0 code H).
  - destruct (outcome (main args file)) as [code|x] eqn:O; cbn [exit_status].
    + rewrite (Z0 code eq_refl). repeat split; auto.
      * discriminate.
      * intros [x H]. discriminate H.
    + repeat split; auto; try discriminate. eauto.
Qed.

Lemma dry_run_exit_code_witness :
  let run := @main Demo.world Demo.dry Demo.two_feeds in
  dry_run Demo.dry = true /\
  outcome run = Exit 0 /\
  pprints (events run)
  = [Demo.unlisted "A1"; Demo.unlisted "A2";
     Demo.unlisted "B1"; Demo.unlisted "B2"] /\
  posts (events run) = [] /\
  existsb is_failure (events run) = false /\
  outcome run <> Exit 1 /\
  (forall code, outcome run = Exit code -> code = 0) /\
  (forall config,
      @read_config Demo.world Demo.two_feeds = Ok config ->
      @no_exception Demo.world Demo.dry config ->
      outcome run = Exit 0) /\
  (exit_status (outcome run) = 0 <-> outcome run = Exit 0) /\
  (exit_status (outcome run) = 1 <-> exists x, outcome run = Crash x) /\
  (exit_status (outcome run) = 0 \/ exit_status (outcome run) = 1).
Proof.
  intros run. split; [reflexivity | ]. split; [vm_compute; reflexivity | ].
  split; [vm_compute; reflexivity | ].
  apply (dry_run_exit_code Demo.world Demo.dry Demo.two_feeds).
  reflexivity.
Defined.

(** ** C6: the length of a status *)

Lemma take_length (n : nat) (s : string) :
  (String.length (take n s) <= n)%nat.
Proof.
  revert s. induction n as [|n IH]; intros s; cbn [take].
  - cbn. lia.
  - destruct s as [|c s]; cbn [String.length]; [lia | ].
    specialize (IH s). lia.
Qed.

Lemma take_prefix (n : nat) (s : string) :
  exists rest, s = take n s +++ rest.
Proof.
  revert s. induction n as [|n IH]; intros s; cbn [take].
  - exists s. reflexivity.
  - destruct s as [|c s]; [exists EmptyString; reflexivity | ].
    destruct (IH s) as [rest E]. exists rest. cbn. now rewrite <- E.
Qed.

Lemma compose_Ok {ext : Externals} (config : Config) (feed : Feed)
      (entry : Entry) (s : Status) :
  compose config feed entry = Ok s ->
  exists text,
    format render_other (feed_template feed) (entry_kwargs entry) = Ok text /\
    s = mkstatus (slice_to text (get (cfg_max_chars config) 500))
                 (cfg_visibility config).
Proof.
  unfold compose. intros H. bind_inv H. injection H as <-. eauto.
Qed.

(** C6. The status is the formatted template cut at the limit, which is
    [max_chars], or 500 when the configuration has none.  A character limit
    is a number of characters, so it is not negative: the cut keeps the
    first [limit] characters, wherever words end, and the status is no
    longer than the limit. *)
Theorem status_within_limit :
  forall (ext : Externals) (config : Config) (feed : Feed) (entry : Entry)
         (s : Status),
    compose config feed entry = Ok s ->
    exists text : string,
      format render_other (feed_template feed) (entry_kwargs entry) = Ok text /\
      status s = slice_to text (get (cfg_max_chars config) 500) /\
      (cfg_max_chars config = None -> status s = slice_to text 500) /\
      (0 <= get (cfg_max_chars config) 500 ->
       Z.of_nat (String.length (status s)) <= get (cfg_max_chars config) 500 /\
       status s = take (Z.to_nat (get (cfg_max_chars config) 500)) text /\
       exists rest, text = status s +++ rest).
Proof.
  intros ext config feed entry s H.
  apply compose_Ok in H. destruct H as (text & F & ->).
  exists text. cbn [status]. repeat split; auto.
  - intros N. now rewrite N.
  - unfold slice_to. apply Z.leb_le in H. rewrite H.
    pose proof (take_length (Z.to_nat (get (cfg_max_chars config) 500)) text).
    apply Z.leb_le in H. lia.
  - unfold slice_to. apply Z.leb_le in H. now rewrite H.
  - unfold slice_to. apply Z.leb_le in H. rewrite H. apply take_prefix.
Qed.

Lemma status_within_limit_witness :
  let config := set_updated (Demo.config_file [] (Some 1) None) min_utc in
  let feed := mkfeed "A" "{title}" in
  let entry := Demo.entry "A1" 10 0 in
  @compose Demo.world config feed entry = Ok (Demo.unlisted "A") /\
  exists text : string,
    format (@render_other Demo.world) (feed_template feed) (entry_kwargs entry)
    = Ok text /\
    status (Demo.unlisted "A") = slice_to text (get (cfg_max_chars config) 500) /\
    (cfg_max_chars config = None ->
     status (Demo.unlisted "A") = slice_to text 500) /\
    (0 <= get (cfg_max_chars config) 500 ->
     Z.of_nat (String.length (status (Demo.unlisted "A")))
     <= get (cfg_max_chars config) 500 /\
     status (Demo.unlisted "A")
     = take (Z.to_nat (get (cfg_max_chars config) 500)) text /\
     exists rest, text = status (Demo.unlisted "A") +++ rest).
Proof.
  intros config feed entry. split; [reflexivity | ].
  apply (status_within_limit Demo.world config feed entry).
  reflexivity.
Defined.

(** The scenario of the specification: title and link on two lines, within
    the default limit. *)
Example compose_scenario :
  let nl := String (ascii_of_nat 10) EmptyString in
  @compose Demo.world
           (set_updated (Demo.config_file [] None None) min_utc)
           (mkfeed "A" ("{title}" +++ nl +++ "{link}"))
           (mkentry "1" "http://x/1" "Hello World" "" "" "" min_utc)
  = Ok (Demo.unlisted ("Hello World" +++ nl +++ "http://x/1")).
Proof. reflexivity. Qed.

(** A negative [max_chars] is no character limit: Python's slice then
    counts from the end, and [text[:-1]] drops the last character. *)
Example negative_max_chars :
  @compose Demo.world
           (set_updated (Demo.config_file [] (Some (-1)) None) min_utc)
           (mkfeed "A" "{title}") (Demo.entry "A1" 10 0)
  = Ok (Demo.unlisted "A").
Proof. reflexivity. Qed.

(** ** C7: templates *)

(** The placeholders an entry offers. *)
Definition known_fields : list string :=
  ["url"; "link"; "title"; "summary"; "content"; "hashtags"; "updated"]%string.

(** A plain piece: literal text, or a field that is a bare name, with no
    conversion, no format spec and no attribute or index access. *)
Definition plain (p : piece) : bool :=
  match p with
  | Literal _ => true
  | Markup f =>
      is_None (conversion f)
      && String.eqb (format_spec f) EmptyString
      && String.eqb (snd (field_name_split (field_name f))) EmptyString
  | Malformed => false
  end.

(** A template with balanced braces and plain fields only. *)
Definition plain_template (template : string) : Prop :=
  forallb plain (scan (Lit EmptyString) template) = true.

(** The field names a template refers to. *)
Definition field_names (template : string) : list string :=
  flat_map (fun p => match p with Markup f => [field_name f] | _ => [] end)
           (scan (Lit EmptyString) template).

Lemma field_name_split_plain (name : string) :
  snd (field_name_split name) = EmptyString ->
  fst (field_name_split name) = name.
Proof.
  induction name as [|c name IH]; cbn [field_name_split]; [reflexivity | ].
  destruct (ch c "." || ch c "["); [discriminate | ].
  destruct (field_name_split name) as [first rest]. cbn [fst snd] in *.
  intros H. now rewrite (IH H).
Qed.

Lemma lookup_known (e : Entry) (name : string) :
  In name known_fields <-> exists v, lookup (entry_kwargs e) name = Some v.
Proof.
  split.
  - intros H. unfold known_fields in H. cbn [In] in H.
    repeat (destruct H as [<- | H]; [eexists; reflexivity | ]).
    destruct H.
  - intros [v H]. unfold entry_kwargs in H. cbn [lookup] in H.
    unfold known_fields. cbn [In].
    repeat match type of H with
           | (if String.eqb ?k name then _ else _) = _ =>
               destruct (String.eqb_spec k name); [tauto | ]
           end.
    discriminate.
Qed.

Lemma get_arg_known (e : Entry) (name : string) :
  In name known_fields -> exists v, get_arg (entry_kwargs e) name = Ok v.
Proof.
  intros H. unfold known_fields in H. cbn [In] in H.
  repeat (destruct H as [<- | H]; [eexists; reflexivity | ]).
  destruct H.
Qed.

Lemma get_arg_unknown (e : Entry) (name : string) :
  ~ In name known_fields -> exists x, get_arg (entry_kwargs e) name = Raise x.
Proof.
  intros H. unfold get_arg.
  destruct (String.eqb name EmptyString); [eauto | ].
  destruct (get_integer 0 name) as [[n|]|x]; cbn [Py.bind]; eauto.
  destruct (lookup (entry_kwargs e) name) as [v|] eqn:L; [ | eauto].
  exfalso. apply H. apply (proj2 (lookup_known e name)). eauto.
Qed.

Lemma render_field_plain (ro : kwargs -> pyval -> field -> result string)
      (e : Entry) (f : field) :
  plain (Markup f) = true ->
  (is_ok (render_field ro (entry_kwargs e) f) = true
   <-> In (field_name f) known_fields).
Proof.
  cbn [plain]. intros P.
  apply andb_prop in P. destruct P as [P R].
  apply andb_prop in P. destruct P as [C S].
  apply String.eqb_eq in R, S.
  pose proof (field_name_split_plain _ R) as F.
  unfold render_field.
  destruct (field_name_split (field_name f)) as [first rest].
  cbn [fst snd] in *. subst first rest.
  destruct (conversion f); [discriminate | ]. rewrite S. cbn [String.eqb].
  split.
  - intros H.
    destruct (in_dec string_dec (field_name f) known_fields) as [I | N];
      [exact I | ].
    destruct (get_arg_unknown e _ N) as [x X]. rewrite X in H. discriminate.
  - intros I. destruct (get_arg_known e _ I) as [v V]. now rewrite V.
Qed.

Lemma render_plain (ro : kwargs -> pyval -> field -> result string)
      (e : Entry) (ps : list piece) :
  forallb plain ps = true ->
  (is_ok (render ro (entry_kwargs e) ps) = true
   <-> Forall (fun name => In name known_fields)
              (flat_map (fun p => match p with
                                  | Markup f => [field_name f]
                                  | _ => []
                                  end) ps)).
Proof.
  induction ps as [|p ps IH]; cbn [forallb render flat_map].
  - intros _. split; [constructor | reflexivity].
  - intros H. apply andb_prop in H. destruct H as [P H].
    specialize (IH H).
    destruct p as [s | f | ]; [ | | discriminate].
    + cbn [app]. rewrite <- IH.
      destruct (render ro (entry_kwargs e) ps); cbn; tauto.
    + cbn [app]. rewrite Forall_cons_iff, <- IH.
      rewrite <- (render_field_plain ro e f P).
      destruct (render_field ro (entry_kwargs e) f); cbn [Py.bind is_ok].
      * destruct (render ro (entry_kwargs e) ps); cbn; tauto.
      * split; [discriminate | intros [X _]; discriminate].
Qed.

Lemma get_integer_Raise (s : string) :
  forall acc e, get_integer acc s = Raise e -> e = ValueError.
Proof.
  induction s as [|c s IH]; intros acc e; cbn [get_integer]; [discriminate | ].
  destruct (digit_val c) as [d|]; [ | discriminate].
  destruct ((PY_SSIZE_T_MAX - d) / 10 <? acc).
  - intros H. now injection H as <-.
  - apply IH.
Qed.

Lemma get_arg_Raise (kw : kwargs) (name : string) (e : exn) :
  get_arg kw name = Raise e ->
  e = IndexError \/ e = ValueError \/
  (e = KeyError name /\ lookup kw name = None).
Proof.
  unfold get_arg. destruct (String.eqb name EmptyString).
  - intros H. injection H as <-. now left.
  - destruct (get_integer 0 name) as [[n|]|x] eqn:G; cbn [Py.bind].
    + intros H. injection H as <-. now left.
    + destruct (lookup kw name); [discriminate | ].
      intros H. injection H as <-. right. right. now split.
    + intros H. injection H as <-. right. left.
      exact (get_integer_Raise _ _ _ G).
Qed.

(** Which exception a plain template raises. *)
Lemma render_plain_Raise (ro : kwargs -> pyval -> field -> result string)
      (kw : kwargs) (ps : list piece) (e : exn) :
  forallb plain ps = true ->
  render ro kw ps = Raise e ->
  e = IndexError \/ e = ValueError \/
  exists name,
    e = KeyError name /\ lookup kw name = None /\
    In name (flat_map (fun p => match p with
                                | Markup f => [field_name f]
                                | _ => []
                                end) ps).
Proof.
  induction ps as [|p ps IH]; cbn [forallb render flat_map]; [discriminate | ].
  intros H. apply andb_prop in H. destruct H as [P H].
  specialize (IH H).
  assert (Later : render ro kw ps = Raise e ->
                  forall names,
                    e = IndexError \/ e = ValueError \/
                    exists name,
                      e = KeyError name /\ lookup kw name = None /\
                      In name (names ++
                               flat_map (fun p => match p with
                                                  | Markup f => [field_name f]
                                                  | _ => []
                                                  end) ps)).
  { intros R names. destruct (IH R) as [E | [E | (name & E & L & I)]]; auto.
    right. right. exists name. repeat split; auto.
    apply in_or_app. now right. }
  destruct p as [s | f | ]; [ | | discriminate].
  - destruct (render ro kw ps) as [r|x] eqn:R; cbn [Py.bind]; [discriminate | ].
    intros E. injection E as ->. exact (Later eq_refl []).
  - cbn [plain] in P.
    apply andb_prop in P. destruct P as [P Rest].
    apply andb_prop in P. destruct P as [C S].
    apply String.eqb_eq in Rest, S.
    pose proof (field_name_split_plain _ Rest) as F.
    unfold render_field.
    destruct (field_name_split (field_name f)) as [first rest].
    cbn [fst snd] in *. subst first rest.
    destruct (conversion f); [discriminate | ]. rewrite S. cbn [String.eqb].
    destruct (get_arg kw (field_name f)) as [v|x] eqn:G; cbn [Py.bind].
    + destruct (render ro kw ps) as [r|x] eqn:R; cbn [Py.bind];
        [discriminate | ].
      intros E. injection E as ->. exact (Later eq_refl [field_name f]).
    + intros E. injection E as ->.
      destruct (get_arg_Raise _ _ _ G) as [E | [E | [E L]]]; auto.
      right. right. exists (field_name f). repeat split; auto.
      now left.
Qed.

(** C7, as stated, fails twice.  A template whose only placeholder is a
    known one can fail: a conversion that is none of [r], [s], [a] raises
    [ValueError].  And the exception of an unknown placeholder is not held
    within its entry or feed: nothing catches it, the run ends there,
    feed ["B"] is never fetched and nothing is saved. *)
Lemma template_error_ends_run :
  field_names "{title!x}" = ["title"%string] /\
  format (@render_other Demo.world) "{title!x}"
         (entry_kwargs (Demo.entry "A1" 10 0)) = Raise ValueError /\
  cfg_feeds Demo.unknown_field = [mkfeed "A" "{foo}"; mkfeed "B" "{title}"] /\
  @main Demo.world Demo.live Demo.unknown_field
  = mkrun [EvFetch "A"; EvEntry (Demo.entry "A1" 10 0)]
          Demo.unknown_field (Crash (KeyError "foo")).
Proof.
  split; [vm_compute; reflexivity | ].
  split; [vm_compute; reflexivity | ].
  split; vm_compute; reflexivity.
Qed.

(** A configuration whose second feed names a placeholder no entry has. *)
Definition unknown_field_later : ConfigFile :=
  Demo.config_file [mkfeed "B" "{title}"; mkfeed "A" "{foo}"] None None.

Lemma compose_Raise {ext : Externals} (config : Config) (feed : Feed)
      (entry : Entry) (x : exn) :
  compose config feed entry = Raise x <->
  format render_other (feed_template feed) (entry_kwargs entry) = Raise x.
Proof.
  unfold compose.
  destruct (format render_other (feed_template feed) (entry_kwargs entry));
    cbn [Py.bind]; split; congruence.
Qed.

(** C7, amended.  For a template with balanced braces whose fields are bare
    names, composing fails if and only if the template refers to a name
    outside the known placeholders; with known names only it never fails.
    The exception is [KeyError] with the unknown name, or [IndexError] or
    [ValueError] for a name that is empty or a number.  The exception is
    not caught.  In every run the feeds are fetched in the order of the
    configuration and every entry gone through belongs to the feed fetched
    last: when its status can be composed, the status is shown next; when
    it cannot, nothing follows, neither entry nor feed, the run ends there
    with that exception and saves nothing. *)
Theorem template_errors :
  forall ext : Externals,
    (forall (template : string) (entry : Entry),
        plain_template template ->
        (is_ok (format render_other template (entry_kwargs entry)) = true
         <-> Forall (fun name => In name known_fields)
                    (field_names template))) /\
    (forall (template : string) (entry : Entry) (e : exn),
        plain_template template ->
        format render_other template (entry_kwargs entry) = Raise e ->
        e = IndexError \/ e = ValueError \/
        exists name, e = KeyError name /\ In name (field_names template) /\
                     ~ In name known_fields) /\
    (forall (config : Config) (feed : Feed) (entry : Entry) (e : exn),
        compose config feed entry = Raise e <->
        format render_other (feed_template feed) (entry_kwargs entry)
        = Raise e) /\
    (forall (args : Args) (file : ConfigFile) (config : Config),
        read_config file = Ok config ->
        (exists done rest,
            cfg_feeds config = done ++ rest /\
            fetches (events (main args file)) = map feed_url done) /\
        (forall pre entry post,
            events (main args file) = pre ++ EvEntry entry :: post ->
            exists feed,
              current_feed (cfg_feeds config) pre = Some feed /\
              match compose config feed entry with
              | Ok s => exists ev post', post = ev :: post' /\ shows s ev
              | Raise e =>
                  post = [] /\
                  outcome (main args file) = Crash e /\
                  file_after (main args file) = file /\
                  saves (events (main args file)) = []
              end)) /\
    (forall (args : Args) (file : ConfigFile) (e : exn),
        outcome (main args file) = Crash e ->
        file_after (main args file) = file /\
        saves (events (main args file)) = []).
Proof.
  intros ext. split; [ | split; [ | split; [ | split]]].
  - intros template entry P. apply render_plain. exact P.
  - intros template entry e P R.
    destruct (render_plain_Raise _ _ _ _ P R) as [E | [E | (name & E & L & I)]];
      auto.
    right. right. exists name. repeat split; auto.
    intros K. apply (lookup_known entry) in K. destruct K as [v K].
    congruence.
  - intros config feed entry e. apply compose_Raise.
  - intros args file config RC. split.
    + destruct (main_fetches args file config RC) as (done & rest & E & F & _).
      now exists done, rest.
    + intros pre entry post E.
      destruct (main_follows args file config RC pre entry post E)
        as (feed & Cf & M).
      exists feed. split; [exact Cf | ].
      destruct (compose config feed entry) as [s|e]; [exact M | ].
      destruct M as [-> O]. split; [reflexivity | ]. split; [exact O | ].
      exact (main_Crash args file e O).
  - intros args file e H. exact (main_Crash args file e H).
Qed.


(** The default template of [setup] is plain, and so are the templates of
    the examples. *)
Example plain_default_template :
  plain_template ("{title}" +++ String (ascii_of_nat 10) "{link}") /\
  plain_template "{foo}" /\ plain_template "{title}".
Proof. repeat split. Qed.

Lemma template_errors_witness :
  let run := @main Demo.world Demo.live unknown_field_later in
  let config := set_updated unknown_field_later min_utc in
  let pre := [ EvFetch "B";
               EvEntry (Demo.entry "B1" 10 20);
               EvPost (Demo.unlisted "B1") (Ok tt); EvSleep;
               EvEntry (Demo.entry "B2" 10 30);
               EvPost (Demo.unlisted "B2") (Ok tt); EvSleep;
               EvFetch "A" ] in
  (is_ok (format (@render_other Demo.world) "{title}"
                 (entry_kwargs (Demo.entry "A1" 10 0))) = true
   <-> Forall (fun name => In name known_fields) (field_names "{title}")) /\
  @read_config Demo.world unknown_field_later = Ok config /\
  events run = pre ++ [EvEntry (Demo.entry "A1" 10 0)] /\
  current_feed (cfg_feeds config) pre = Some (mkfeed "A" "{foo}") /\
  @compose Demo.world config (mkfeed "A" "{foo}") (Demo.entry "A1" 10 0)
  = Raise (KeyError "foo") /\
  outcome run = Crash (KeyError "foo") /\
  file_after run = unknown_field_later /\
  saves (events run) = [].
Proof.
  intros run config pre.
  destruct (template_errors Demo.world) as (A & _ & _ & B & _).
  split; [apply A; reflexivity | ].
  assert (RC : @read_config Demo.world unknown_field_later = Ok config)
    by reflexivity.
  assert (E : events run = pre ++ [EvEntry (Demo.entry "A1" 10 0)])
    by (vm_compute; reflexivity).
  split; [exact RC | ]. split; [exact E | ].
  destruct (proj2 (B Demo.live unknown_field_later config RC)
                  pre (Demo.entry "A1" 10 0) [] E) as (feed & Cf & M).
  assert (F : current_feed (cfg_feeds config) pre = Some (mkfeed "A" "{foo}"))
    by reflexivity.
  rewrite F in Cf. injection Cf as <-.
  assert (C : @compose Demo.world config (mkfeed "A" "{foo}")
                       (Demo.entry "A1" 10 0) = Raise (KeyError "foo"))
    by reflexivity.
  rewrite C in M. destruct M as (_ & O & FA & S).
  now repeat split.
Defined.

(** ** C8: writing the watermark and reading it back *)

(** C8. Writing a watermark into the configuration, as the ISO-8601 string
    [isoformat] gives, and reading the configuration back yields the
    timestamp that was written, every field of it, microseconds and offset
    included; the other keys are as they were.  This holds for every
    [datetime] value, the timezone-aware ones in particular, granted that
    dateutil reads an ISO-8601 string for what it says. *)
Theorem watermark_round_trip :
  forall (ext : Externals) (config : Config) (w : datetime),
    reads_iso_8601 ext ->
    valid_datetime w ->
    cfg_updated (save_config config w) = Some (isoformat w) /\
    iso_parse (isoformat w) = Some w /\
    read_config (save_config config w) = Ok (set_updated config w) /\
    cfg_updated (set_updated config w) = w.
Proof.
  intros ext config w R V. repeat split.
  - now apply iso_parse_isoformat.
  - now apply read_saved.
Qed.

Lemma watermark_round_trip_witness :
  let w := mkdt 2024 2 29 23 59 58 123456 (Some (-330)) in
  let config := set_updated Demo.two_feeds min_utc in
  reads_iso_8601 Demo.world /\
  valid_datetime w /\
  isoformat w = "2024-02-29T23:59:58.123456-05:30"%string /\
  cfg_updated (save_config config w) = Some (isoformat w) /\
  iso_parse (isoformat w) = Some w /\
  @read_config Demo.world (save_config config w) = Ok (set_updated config w) /\
  cfg_updated (set_updated config w) = w.
Proof.
  intros w config.
  split; [exact demo_reads_iso_8601 | ].
  split; [reflexivity | ].
  split; [reflexivity | ].
  apply (watermark_round_trip Demo.world config w).
  - exact demo_reads_iso_8601.
  - reflexivity.
Defined.

(** ** C10: after a refused post, the next run *)




(* ================================================================== *)
(** * Beyond the claims                                                 *)
(* ================================================================== *)

(** The rest of the file goes through the program once more, function by
    function, for what the claims leave out: [cleanup], [get_entry],
    [get_feed], the composition of a status, the runs of [main] seen as a
    whole and from one run to the next, and the interactive [yes_no] and
    [setup]. *)

(* ================================================================== *)
(** * [cleanup], once more                                              *)
(* ================================================================== *)

(** ** Substrings *)

(** [s.startswith(prefix)] *)
Fixpoint startswith (prefix s : string) : bool :=
  match prefix with
  | EmptyString => true
  | String p prefix' =>
      match s with
      | EmptyString => false
      | String x s' => Ascii.eqb x p && startswith prefix' s'
      end
  end.

(** [sub in s] *)
Fixpoint contains (sub s : string) : bool :=
  startswith sub s ||
  match s with
  | EmptyString => false
  | String _ s' => contains sub s'
  end.

Definition first_char (s : string) : option ascii :=
  match s with
  | EmptyString => None
  | String c _ => Some c
  end.

Fixpoint last_char (s : string) : option ascii :=
  match s with
  | EmptyString => None
  | String c EmptyString => Some c
  | String _ s' => last_char s'
  end.

Definition not_space (c : option ascii) : bool :=
  match c with
  | Some c => negb (isspace c)
  | None => true
  end.

(** What [cleanup] rules out. *)
Definition nbsp1 : string := String nbsp EmptyString.
Definition space2 : string := String space (String space EmptyString).
Definition space_newline : string := String space (String newline EmptyString).
Definition newline2 : string := String newline (String newline EmptyString).
Definition newline3 : string := String newline newline2.

(** Text as [cleanup] leaves it: no non-breaking space, no two spaces in a
    row, no space at the end of a line, no three newlines in a row (at most
    one empty line), and no whitespace at either end. *)
Definition tidy (s : string) : bool :=
  negb (contains nbsp1 s) && negb (contains space2 s)
  && negb (contains space_newline s) && negb (contains newline3 s)
  && not_space (first_char s) && not_space (last_char s).

Fixpoint all_chars (P : ascii -> bool) (s : string) : bool :=
  match s with
  | EmptyString => true
  | String c s' => P c && all_chars P s'
  end.

Definition other_than (a : ascii) (x : ascii) : bool := negb (Ascii.eqb x a).

Lemma contains_cons (p : string) (x : ascii) (s : string) :
  contains p (String x s) = startswith p (String x s) || contains p s.
Proof. reflexivity. Qed.

Lemma startswith_app (p s t : string) :
  startswith p s = true -> startswith p (s +++ t) = true.
Proof.
  revert s. induction p as [|c p IH]; intros s; cbn [startswith];
    [reflexivity | ].
  destruct s as [|x s]; [discriminate | ]. cbn [String.append].
  intros H. apply andb_prop in H. destruct H as [-> H]. now apply IH.
Qed.

Lemma contains_app_l (p s t : string) :
  contains p s = true -> contains p (s +++ t) = true.
Proof.
  induction s as [|x s IH]; cbn [contains String.append].
  - rewrite orb_false_r. intros H.
    pose proof (startswith_app p EmptyString t H) as H'.
    cbn [String.append] in H'.
    destruct t; cbn [contains]; now rewrite H'.
  - intros H. apply orb_prop in H. destruct H as [H | H].
    + pose proof (startswith_app p (String x s) t H) as H'.
      cbn [String.append] in H'. now rewrite H'.
    + rewrite (IH H). apply orb_true_r.
Qed.

Lemma contains_app_r (p s t : string) :
  contains p t = true -> contains p (s +++ t) = true.
Proof.
  intros H. induction s as [|x s IH]; cbn [String.append]; [exact H | ].
  rewrite contains_cons, IH. apply orb_true_r.
Qed.

Lemma contains_app_false (p s t : string) :
  contains p (s +++ t) = false ->
  contains p s = false /\ contains p t = false.
Proof.
  intros H. split.
  - destruct (contains p s) eqn:E; [ | reflexivity].
    now rewrite (contains_app_l p s t E) in H.
  - destruct (contains p t) eqn:E; [ | reflexivity].
    now rewrite (contains_app_r p s t E) in H.
Qed.

Lemma contains_tail (p : string) (x : ascii) (s : string) :
  contains p (String x s) = false -> contains p s = false.
Proof.
  rewrite contains_cons. intros H. now apply orb_false_elim in H.
Qed.

(** A pattern cannot start where its first character does not occur. *)
Lemma contains_absent (a : ascii) (p pre s : string) :
  all_chars (other_than a) pre = true ->
  contains (String a p) (pre +++ s) = contains (String a p) s.
Proof.
  induction pre as [|y pre IH]; cbn [all_chars String.append];
    [reflexivity | ].
  intros H. apply andb_prop in H. destruct H as [Y H].
  rewrite contains_cons, (IH H). cbn [startswith].
  unfold other_than in Y. apply negb_true_iff in Y. now rewrite Y.
Qed.

Lemma contains_absent_all (a : ascii) (p s : string) :
  all_chars (other_than a) s = true -> contains (String a p) s = false.
Proof.
  intros H. rewrite <- (append_nil_r s), (contains_absent a p s _ H).
  reflexivity.
Qed.

Lemma contains_char (c : ascii) (s : string) :
  contains (String c EmptyString) s = negb (all_chars (other_than c) s).
Proof.
  induction s as [|x s IH]; [reflexivity | ].
  rewrite contains_cons, IH. cbn [startswith all_chars]. unfold other_than.
  rewrite andb_true_r, negb_andb, negb_involutive. reflexivity.
Qed.

Lemma all_chars_app (P : ascii -> bool) (s t : string) :
  all_chars P (s +++ t) = all_chars P s && all_chars P t.
Proof.
  induction s as [|x s IH]; cbn [all_chars String.append]; [reflexivity | ].
  now rewrite IH, andb_assoc.
Qed.

Lemma all_chars_repeat (P : ascii -> bool) (c : ascii) (n : nat) :
  P c = true -> all_chars P (repeat_char c n) = true.
Proof.
  intros H. induction n as [|n IH]; cbn [repeat_char all_chars];
    [reflexivity | ].
  now rewrite H, IH.
Qed.

Lemma repeat_char_shift (c : ascii) (n : nat) (s : string) :
  repeat_char c n +++ String c s = String c (repeat_char c n +++ s).
Proof.
  induction n as [|n IH]; cbn [repeat_char String.append]; [reflexivity | ].
  now rewrite IH.
Qed.

(** ** The substitutions, one at a time *)

(** What [sub_runs] writes for the run it has just read. *)
Definition flush (c : ascii) (least : nat) (replacement : string) (run : nat)
  : string :=
  match run with
  | O => EmptyString
  | S _ => if (least <=? run)%nat then replacement else repeat_char c run
  end.

Lemma sub_runs_eq (c : ascii) (least : nat) (replacement : string)
      (run : nat) (text : string) :
  sub_runs c least replacement run text
  = match text with
    | EmptyString => flush c least replacement run
    | String x text' =>
        if Ascii.eqb x c then sub_runs c least replacement (S run) text'
        else flush c least replacement run
             +++ String x (sub_runs c least replacement O text')
    end.
Proof. destruct text; reflexivity. Qed.

Lemma all_chars_flush (P : ascii -> bool) (c : ascii) (least : nat)
      (replacement : string) (run : nat) :
  all_chars P replacement = true ->
  (P c = true \/ least = 1%nat) ->
  all_chars P (flush c least replacement run) = true.
Proof.
  intros R H. destruct run as [|run]; [reflexivity | ]. cbn [flush].
  destruct H as [H | ->]; [ | exact R].
  destruct (least <=? S run)%nat; [exact R | now apply all_chars_repeat].
Qed.

(** [sub_runs] writes the characters it reads, or the replacement. *)
Lemma all_chars_sub_runs (P : ascii -> bool) (c : ascii) (least : nat)
      (replacement text : string) :
  all_chars P replacement = true ->
  (P c = true \/ least = 1%nat) ->
  (forall x, Ascii.eqb x c = false -> In x (list_ascii_of_string text) ->
             P x = true) ->
  forall run, all_chars P (sub_runs c least replacement run text) = true.
Proof.
  intros R H. induction text as [|x text IH]; intros T run;
    rewrite sub_runs_eq.
  - now apply all_chars_flush.
  - assert (T' : forall y, Ascii.eqb y c = false ->
                           In y (list_ascii_of_string text) -> P y = true).
    { intros y Y I. apply T; [exact Y | now right]. }
    destruct (Ascii.eqb x c) eqn:X; [now apply IH | ].
    rewrite all_chars_app. cbn [all_chars].
    rewrite (all_chars_flush P c least replacement run R H), (IH T' O).
    rewrite (T x X (or_introl eq_refl)). reflexivity.
Qed.

Lemma all_chars_In (P : ascii -> bool) (s : string) :
  all_chars P s = true ->
  forall x, In x (list_ascii_of_string s) -> P x = true.
Proof.
  induction s as [|c s IH]; cbn [all_chars list_ascii_of_string];
    [easy | ].
  intros H x [<- | I]; apply andb_prop in H; destruct H as [C H]; auto.
Qed.

Lemma all_chars_spaces_newline (P : ascii -> bool) (text : string) :
  P space = true -> all_chars P text = true ->
  forall run, all_chars P (sub_spaces_newline run text) = true.
Proof.
  intros S. induction text as [|x text IH]; intros T run;
    cbn [sub_spaces_newline].
  - now apply all_chars_repeat.
  - cbn [all_chars] in T. apply andb_prop in T. destruct T as [X T].
    destruct (Ascii.eqb x space); [now apply IH | ].
    destruct (Ascii.eqb x newline).
    + cbn [all_chars]. now rewrite X, IH.
    + rewrite all_chars_app. cbn [all_chars].
      now rewrite (all_chars_repeat P space run S), X, IH.
Qed.

(** [lstrip] keeps an end of the text, [rstrip] a beginning. *)
Lemma lstrip_suffix (text : string) : exists pre, text = pre +++ lstrip text.
Proof.
  induction text as [|c text [pre IH]]; cbn [lstrip].
  - exists EmptyString. reflexivity.
  - destruct (isspace c).
    + exists (String c pre). cbn [String.append]. now rewrite <- IH.
    + exists EmptyString. reflexivity.
Qed.

Lemma rstrip_prefix (text : string) : exists post, text = rstrip text +++ post.
Proof.
  induction text as [|c text [post IH]]; cbn [rstrip].
  - exists EmptyString. reflexivity.
  - destruct (rstrip text) as [|y rest] eqn:R.
    + destruct (isspace c).
      * exists (String c text). reflexivity.
      * exists text. reflexivity.
    + exists post. rewrite IH at 1. reflexivity.
Qed.

Lemma strip_inside (text : string) :
  exists pre post, text = pre +++ strip text +++ post.
Proof.
  unfold strip. destruct (lstrip_suffix text) as [pre E].
  destruct (rstrip_prefix (lstrip text)) as [post E'].
  exists pre, post. now rewrite <- E', <- E.
Qed.

Lemma contains_strip (p text : string) :
  contains p text = false -> contains p (strip text) = false.
Proof.
  destruct (strip_inside text) as (pre & post & E). intros H.
  rewrite E in H. apply contains_app_false in H. destruct H as [_ H].
  apply contains_app_false in H. tauto.
Qed.

Lemma first_char_lstrip (text : string) :
  not_space (first_char (lstrip text)) = true.
Proof.
  induction text as [|c text IH]; cbn [lstrip]; [reflexivity | ].
  destruct (isspace c) eqn:C; [exact IH | ]. cbn. now rewrite C.
Qed.

Lemma first_char_rstrip (text : string) :
  not_space (first_char text) = true ->
  not_space (first_char (rstrip text)) = true.
Proof.
  destruct text as [|c text]; [reflexivity | ]. cbn [first_char rstrip].
  intros H. destruct (rstrip text).
  - cbn [not_space] in H. apply negb_true_iff in H. rewrite H.
    exact (f_equal negb H).
  - exact H.
Qed.

Lemma last_char_rstrip (text : string) :
  not_space (last_char (rstrip text)) = true.
Proof.
  induction text as [|c text IH]; cbn [rstrip]; [reflexivity | ].
  destruct (rstrip text) as [|y rest].
  - destruct (isspace c) eqn:C; [reflexivity | ]. cbn. now rewrite C.
  - exact IH.
Qed.

Definition head_is (b : ascii) (s : string) : bool :=
  match s with
  | EmptyString => false
  | String y _ => Ascii.eqb y b
  end.

Definition pattern2 (a b : ascii) : string := String a (String b EmptyString).

Lemma contains_pair_cons (a b x : ascii) (s : string) :
  contains (pattern2 a b) (String x s)
  = (Ascii.eqb x a && head_is b s) || contains (pattern2 a b) s.
Proof.
  unfold pattern2. rewrite contains_cons. cbn [startswith].
  destruct s; cbn [head_is]; [reflexivity | now rewrite andb_true_r].
Qed.

Lemma contains_newline3_cons (x : ascii) (s : string) :
  contains newline3 (String x s)
  = (Ascii.eqb x newline && startswith newline2 s) || contains newline3 s.
Proof. reflexivity. Qed.

Lemma space_not_newline : Ascii.eqb space newline = false.
Proof. reflexivity. Qed.

Section CleanupSteps.

Let space1 : string := String space EmptyString.

(** After [re.sub('\xa0+', ' ', text)] no non-breaking space is left. *)
Lemma nbsp_replaced (text : string) :
  all_chars (other_than nbsp) (sub_runs nbsp 1 space1 O text) = true.
Proof.
  apply all_chars_sub_runs; [reflexivity | now right | ].
  intros x X _. unfold other_than. now rewrite X.
Qed.

(** After [re.sub('  +', ' ', text)] no two spaces are left in a row. *)
Lemma spaces_squeezed (text : string) :
  forall run, contains space2 (sub_runs space 2 space1 run text) = false.
Proof.
  change space2 with (pattern2 space space).
  induction text as [|x text IH]; intros run; rewrite sub_runs_eq.
  - destruct run as [|[|run]]; reflexivity.
  - destruct (Ascii.eqb x space) eqn:X; [apply IH | ].
    destruct run as [|[|run]]; cbn [flush Nat.leb repeat_char String.append];
      unfold space1; cbn [String.append];
      rewrite !contains_pair_cons; cbn [head_is]; rewrite X, IH;
      now rewrite ?andb_false_r.
Qed.

Lemma spaces_then (run : nat) (s : string) :
  head_is newline s = false ->
  contains space_newline (repeat_char space run +++ s)
  = contains space_newline s.
Proof.
  change space_newline with (pattern2 space newline). intros H.
  induction run as [|run IH]; cbn [repeat_char String.append];
    [reflexivity | ].
  rewrite contains_pair_cons, IH.
  replace (head_is newline (repeat_char space run +++ s)) with false;
    [now rewrite andb_false_r | ].
  destruct run; cbn [repeat_char String.append head_is]; [now rewrite H | ].
  now rewrite space_not_newline.
Qed.

(** After [re.sub(' +\n', '\n', text)] no space is left before a newline. *)
Lemma line_ends_trimmed (text : string) :
  forall run, contains space_newline (sub_spaces_newline run text) = false.
Proof.
  induction text as [|x text IH]; intros run; cbn [sub_spaces_newline].
  - rewrite <- (append_nil_r (repeat_char space run)).
    now rewrite spaces_then.
  - destruct (Ascii.eqb x space) eqn:X; [apply IH | ].
    destruct (Ascii.eqb x newline) eqn:N.
    + change space_newline with (pattern2 space newline).
      rewrite contains_pair_cons, X. apply IH.
    + rewrite spaces_then by (cbn [head_is]; exact N).
      change space_newline with (pattern2 space newline).
      rewrite contains_pair_cons, X. apply IH.
Qed.

(** ... and it brings no two spaces together. *)
Lemma line_ends_keep_squeezed (text : string) :
  forall run,
    (run <= 1)%nat ->
    contains space2 (repeat_char space run +++ text) = false ->
    contains space2 (sub_spaces_newline run text) = false.
Proof.
  change space2 with (pattern2 space space).
  induction text as [|x text IH]; intros run R H; cbn [sub_spaces_newline].
  - now rewrite append_nil_r in H.
  - destruct (Ascii.eqb x space) eqn:X.
    + apply Ascii.eqb_eq in X. subst x.
      destruct run as [|[|run]]; [ | | lia].
      * apply IH; [lia | exact H].
      * cbn [repeat_char String.append] in H.
        rewrite contains_pair_cons in H. cbn [head_is] in H.
        now rewrite Ascii.eqb_refl in H.
    + assert (T : contains (pattern2 space space) text = false).
      { apply contains_app_false in H. destruct H as [_ H].
        now apply contains_tail in H. }
      destruct (Ascii.eqb x newline) eqn:N.
      * rewrite contains_pair_cons, X. apply (IH O); [lia | exact T].
      * destruct run as [|[|run]]; [ | | lia];
          cbn [repeat_char String.append];
          rewrite !contains_pair_cons; cbn [head_is];
          rewrite X, (IH O) by (lia || exact T);
          now rewrite ?andb_false_r.
Qed.

Lemma flush_newlines (run : nat) :
  all_chars (other_than space) (flush newline 3 newline2 run) = true.
Proof.
  apply all_chars_flush; [reflexivity | now left].
Qed.

Lemma head_flush_newlines (b : ascii) (run : nat) (s t : string) :
  head_is b (flush newline 3 newline2 (S run) +++ s)
  = head_is b (repeat_char newline (S run) +++ t).
Proof.
  cbn [flush]. destruct (3 <=? S run)%nat; reflexivity.
Qed.

(** After [re.sub('\n\n\n+', '\n\n', text)] no three newlines are left in
    a row. *)
Lemma newlines_squeezed (text : string) :
  forall run, contains newline3 (sub_runs newline 3 newline2 run text) = false.
Proof.
  induction text as [|x text IH]; intros run; rewrite sub_runs_eq.
  - destruct run as [|[|[|run]]]; reflexivity.
  - destruct (Ascii.eqb x newline) eqn:X; [apply IH | ].
    destruct run as [|[|[|run]]];
      cbn [flush Nat.leb repeat_char String.append];
      unfold newline2; cbn [String.append];
      rewrite !contains_newline3_cons; unfold newline2; cbn [startswith];
      rewrite X, IH; now rewrite ?andb_false_r.
Qed.

(** ... and it brings no space before a space or a newline. *)
Lemma newlines_keep (b : ascii) (text : string) :
  forall run,
    contains (pattern2 space b) (repeat_char newline run +++ text) = false ->
    contains (pattern2 space b) (sub_runs newline 3 newline2 run text)
    = false /\
    (head_is b (sub_runs newline 3 newline2 run text) = true ->
     head_is b (repeat_char newline run +++ text) = true).
Proof.
  induction text as [|x text IH]; intros run H; rewrite sub_runs_eq.
  - split.
    + apply contains_absent_all, flush_newlines.
    + destruct run as [|run]; [discriminate | ].
      rewrite <- (append_nil_r (flush newline 3 newline2 (S run))).
      now rewrite (head_flush_newlines b run EmptyString EmptyString).
  - destruct (Ascii.eqb x newline) eqn:X.
    + apply Ascii.eqb_eq in X. subst x.
      rewrite repeat_char_shift in *. now apply (IH (S run)).
    + assert (T : contains (pattern2 space b) (String x text) = false).
      { apply contains_app_false in H. tauto. }
      rewrite contains_pair_cons in T. apply orb_false_elim in T.
      destruct T as [T1 T2].
      destruct (IH O T2) as [I1 I2]. cbn [repeat_char String.append] in I2.
      split.
      * unfold pattern2. rewrite contains_absent by apply flush_newlines.
        fold (pattern2 space b). rewrite contains_pair_cons, I1, orb_false_r.
        destruct (Ascii.eqb x space); [ | reflexivity].
        destruct (head_is b (sub_runs newline 3 newline2 O text)) eqn:Hd;
          [ | reflexivity].
        now rewrite (I2 eq_refl) in T1.
      * destruct run as [|run]; [now cbn | ].
        now rewrite (head_flush_newlines b run _ (String x text)).
Qed.

(** ** Text that the substitutions leave as it is *)

Lemma sub_runs_absent (c : ascii) (least : nat) (replacement text : string) :
  all_chars (other_than c) text = true ->
  sub_runs c least replacement O text = text.
Proof.
  induction text as [|x text IH]; [reflexivity | ].
  cbn [all_chars]. intros H. apply andb_prop in H. destruct H as [X H].
  rewrite sub_runs_eq. unfold other_than in X. apply negb_true_iff in X.
  rewrite X, (IH H). reflexivity.
Qed.

Lemma spaces_squeezed_fixed (text : string) :
  forall run,
    (run <= 1)%nat ->
    contains space2 (repeat_char space run +++ text) = false ->
    sub_runs space 2 space1 run text = repeat_char space run +++ text.
Proof.
  change space2 with (pattern2 space space).
  induction text as [|x text IH]; intros run R H; rewrite sub_runs_eq.
  - destruct run as [|[|run]]; [reflexivity | reflexivity | lia].
  - destruct (Ascii.eqb x space) eqn:X.
    + apply Ascii.eqb_eq in X. subst x.
      destruct run as [|[|run]]; [ | | lia].
      * now apply (IH 1%nat).
      * cbn [repeat_char String.append] in H.
        rewrite contains_pair_cons in H. cbn [head_is] in H.
        now rewrite Ascii.eqb_refl in H.
    + assert (T : contains (pattern2 space space) text = false).
      { apply contains_app_false in H. destruct H as [_ H].
        now apply contains_tail in H. }
      rewrite (IH O) by (lia || exact T).
      destruct run as [|[|run]]; [reflexivity | reflexivity | lia].
Qed.

Lemma spaces_newline_found (run : nat) (s : string) :
  contains space_newline (repeat_char space (S run) +++ String newline s)
  = true.
Proof.
  change space_newline with (pattern2 space newline).
  induction run as [|run IH].
  - cbn [repeat_char String.append]. rewrite contains_pair_cons.
    cbn [head_is]. now rewrite !Ascii.eqb_refl.
  - change (repeat_char space (S (S run)) +++ String newline s)
      with (String space (repeat_char space (S run) +++ String newline s)).
    rewrite contains_pair_cons, IH. apply orb_true_r.
Qed.

Lemma line_ends_fixed (text : string) :
  forall run,
    contains space_newline (repeat_char space run +++ text) = false ->
    sub_spaces_newline run text = repeat_char space run +++ text.
Proof.
  induction text as [|x text IH]; intros run H; cbn [sub_spaces_newline].
  - now rewrite append_nil_r.
  - destruct (Ascii.eqb x space) eqn:X.
    + apply Ascii.eqb_eq in X. subst x.
      rewrite repeat_char_shift in *. now apply (IH (S run)).
    + assert (T : contains space_newline text = false).
      { apply contains_app_false in H. destruct H as [_ H].
        now apply contains_tail in H. }
      rewrite (IH O T). cbn [repeat_char String.append].
      destruct (Ascii.eqb x newline) eqn:N; [ | reflexivity].
      apply Ascii.eqb_eq in N. subst x.
      destruct run as [|run]; [reflexivity | ].
      now rewrite spaces_newline_found in H.
Qed.

Lemma newlines_squeezed_fixed (text : string) :
  forall run,
    contains newline3 (repeat_char newline run +++ text) = false ->
    sub_runs newline 3 newline2 run text = repeat_char newline run +++ text.
Proof.
  assert (Long : forall run s,
             contains newline3 (repeat_char newline (3 + run) +++ s) = true).
  { intros run s. cbn [Nat.add repeat_char String.append].
    rewrite contains_newline3_cons. unfold newline2. cbn [startswith].
    now rewrite !Ascii.eqb_refl. }
  induction text as [|x text IH]; intros run H; rewrite sub_runs_eq.
  - destruct run as [|[|[|run]]]; try reflexivity.
    now rewrite (Long run) in H.
  - destruct (Ascii.eqb x newline) eqn:X.
    + apply Ascii.eqb_eq in X. subst x.
      rewrite repeat_char_shift in *. now apply (IH (S run)).
    + assert (T : contains newline3 text = false).
      { apply contains_app_false in H. destruct H as [_ H].
        now apply contains_tail in H. }
      rewrite (IH O T). cbn [repeat_char String.append].
      destruct run as [|[|[|run]]]; try reflexivity.
      now rewrite (Long run) in H.
Qed.

Lemma lstrip_fixed (text : string) :
  not_space (first_char text) = true -> lstrip text = text.
Proof.
  destruct text as [|c text]; [reflexivity | ].
  cbn [first_char not_space lstrip].
  intros H. apply negb_true_iff in H. now rewrite H.
Qed.

Lemma rstrip_fixed (text : string) :
  not_space (last_char text) = true -> rstrip text = text.
Proof.
  induction text as [|c text IH]; [reflexivity | ].
  destruct text as [|y text].
  - cbn [last_char not_space rstrip]. intros H. apply negb_true_iff in H.
    now rewrite H.
  - intros H. change (last_char (String c (String y text)))
      with (last_char (String y text)) in H.
    change (rstrip (String c (String y text)))
      with (match rstrip (String y text) with
            | EmptyString =>
                if isspace c then EmptyString else String c EmptyString
            | rest => String c rest
            end).
    now rewrite (IH H).
Qed.

End CleanupSteps.

Section CleanupFacts.

Context {ext : Externals}.

Lemma cleanup_is_tidy (text : string) : tidy (cleanup text) = true.
Proof.
  unfold cleanup.
  set (t1 := sub_runs nbsp 1 (String space EmptyString) O (html_get_text text)).
  set (t2 := sub_runs space 2 (String space EmptyString) O t1).
  set (t3 := sub_spaces_newline O t2).
  set (t4 := sub_runs newline 3 (String newline (String newline EmptyString))
                      O t3).
  assert (A1 : all_chars (other_than nbsp) t1 = true) by apply nbsp_replaced.
  assert (A2 : all_chars (other_than nbsp) t2 = true).
  { apply all_chars_sub_runs; [reflexivity | now left | ].
    intros x _. now apply all_chars_In. }
  assert (A3 : all_chars (other_than nbsp) t3 = true).
  { apply all_chars_spaces_newline; [reflexivity | exact A2]. }
  assert (A4 : all_chars (other_than nbsp) t4 = true).
  { apply all_chars_sub_runs; [reflexivity | now left | ].
    intros x _. now apply all_chars_In. }
  assert (B2 : contains space2 t2 = false) by apply spaces_squeezed.
  assert (B3 : contains space2 t3 = false).
  { apply line_ends_keep_squeezed; [lia | exact B2]. }
  assert (B4 : contains space2 t4 = false).
  { now apply (newlines_keep space t3 O). }
  assert (C3 : contains space_newline t3 = false) by apply line_ends_trimmed.
  assert (C4 : contains space_newline t4 = false).
  { now apply (newlines_keep newline t3 O). }
  assert (D4 : contains newline3 t4 = false) by apply newlines_squeezed.
  unfold tidy.
  rewrite (contains_strip nbsp1 t4), (contains_strip space2 t4 B4),
    (contains_strip space_newline t4 C4), (contains_strip newline3 t4 D4).
  - unfold strip. rewrite last_char_rstrip.
    now rewrite (first_char_rstrip _ (first_char_lstrip t4)).
  - unfold nbsp1. now rewrite contains_char, A4.
Qed.

Lemma tidy_unchanged (text : string) :
  html_get_text text = text -> tidy text = true -> cleanup text = text.
Proof.
  intros G T. unfold tidy in T.
  repeat (apply andb_prop in T; destruct T as [T ?]).
  repeat match goal with
         | H : negb _ = true |- _ => apply negb_true_iff in H
         end.
  unfold cleanup. rewrite G.
  rewrite (sub_runs_absent nbsp 1 _ text).
  - rewrite (spaces_squeezed_fixed text O) by (lia || assumption).
    cbn [repeat_char String.append].
    rewrite (line_ends_fixed text O) by assumption.
    cbn [repeat_char String.append].
    change (String newline (String newline EmptyString)) with newline2.
    rewrite (newlines_squeezed_fixed text O) by assumption.
    cbn [repeat_char String.append].
    unfold strip. rewrite (lstrip_fixed text) by assumption.
    now apply rstrip_fixed.
  - unfold nbsp1 in T. rewrite contains_char in T.
    now apply negb_false_iff in T.
Qed.

End CleanupFacts.

(** X1. Whatever the text, [cleanup] returns it tidy: without a
    non-breaking space, without two spaces in a row, without a space at the
    end of a line, without three newlines in a row, and without whitespace
    at either end. *)
Theorem cleanup_tidy :
  forall (ext : Externals) (text : string),
    contains nbsp1 (cleanup text) = false /\
    contains space2 (cleanup text) = false /\
    contains space_newline (cleanup text) = false /\
    contains newline3 (cleanup text) = false /\
    not_space (first_char (cleanup text)) = true /\
    not_space (last_char (cleanup text)) = true.
Proof.
  intros ext text. pose proof (cleanup_is_tidy text) as T. unfold tidy in T.
  repeat (apply andb_prop in T; destruct T as [T ?]).
  repeat match goal with
         | H : negb _ = true |- _ => apply negb_true_iff in H
         end.
  repeat split; assumption.
Qed.

(** X2. On text that holds no markup (BeautifulSoup gives it back as it
    is), [cleanup] changes nothing exactly when the text is tidy already;
    so cleaning twice gives what cleaning once gives. *)
Theorem cleanup_fixed_point :
  forall (ext : Externals) (text : string),
    (html_get_text text = text ->
     (cleanup text = text <-> tidy text = true)) /\
    (html_get_text (cleanup text) = cleanup text ->
     cleanup (cleanup text) = cleanup text).
Proof.
  intros ext text. split.
  - intros G. split.
    + intros <-. apply cleanup_is_tidy.
    + now apply tidy_unchanged.
  - intros G. apply tidy_unchanged; [exact G | apply cleanup_is_tidy].
Qed.

Lemma cleanup_fixed_point_witness :
  let text :=
    (" a  b " +++ String newline (" c" +++ String nbsp "d "))%string in
  @html_get_text Demo.world text = text /\
  @cleanup Demo.world text = ("a b" +++ String newline " c d")%string /\
  tidy text = false /\
  @cleanup Demo.world (@cleanup Demo.world text) = @cleanup Demo.world text.
Proof.
  intros text. split; [reflexivity | ]. split; [reflexivity | ].
  split; [reflexivity | ].
  apply (proj2 (cleanup_fixed_point Demo.world text)). reflexivity.
Defined.

(** ** What [cleanup] leaves alone *)

(** The text without its whitespace. *)
Fixpoint solid (s : string) : string :=
  match s with
  | EmptyString => EmptyString
  | String c s' => if isspace c then solid s' else String c (solid s')
  end.

Lemma solid_app (s t : string) : solid (s +++ t) = solid s +++ solid t.
Proof.
  induction s as [|c s IH]; cbn [solid String.append]; [reflexivity | ].
  destruct (isspace c); [exact IH | ]. cbn [String.append]. now rewrite IH.
Qed.

Lemma solid_spaces (s : string) :
  all_chars isspace s = true -> solid s = EmptyString.
Proof.
  induction s as [|c s IH]; cbn [all_chars solid]; [reflexivity | ].
  intros H. apply andb_prop in H. destruct H as [-> H]. now apply IH.
Qed.

Lemma string_length_app (s t : string) :
  String.length (s +++ t) = (String.length s + String.length t)%nat.
Proof.
  induction s as [|c s IH]; cbn [String.length String.append]; [reflexivity | ].
  now rewrite IH.
Qed.

Lemma length_repeat_char (c : ascii) (n : nat) :
  String.length (repeat_char c n) = n.
Proof.
  induction n as [|n IH]; cbn [repeat_char String.length]; [reflexivity | ].
  now rewrite IH.
Qed.

Lemma length_flush (c : ascii) (least : nat) (replacement : string)
      (run : nat) :
  (String.length replacement <= least)%nat ->
  (String.length (flush c least replacement run) <= run)%nat.
Proof.
  intros R. destruct run as [|run]; cbn [flush String.length]; [lia | ].
  destruct (least <=? S run)%nat eqn:L.
  - apply Nat.leb_le in L. lia.
  - rewrite length_repeat_char. lia.
Qed.

Section Whitespace.

Variable c : ascii.
Variable least : nat.
Variable replacement : string.
Hypothesis c_space : isspace c = true.
Hypothesis replacement_space : all_chars isspace replacement = true.
Hypothesis replacement_short : (String.length replacement <= least)%nat.

(** [sub_runs] writes whitespace for whitespace, and no more of it. *)
Lemma sub_runs_solid (text : string) :
  forall run, solid (sub_runs c least replacement run text) = solid text.
Proof.
  assert (F : forall run, solid (flush c least replacement run) = EmptyString).
  { intros run. apply solid_spaces, all_chars_flush; auto. }
  induction text as [|x text IH]; intros run; rewrite sub_runs_eq.
  - apply F.
  - destruct (Ascii.eqb x c) eqn:X.
    + apply Ascii.eqb_eq in X. subst x. cbn [solid]. rewrite c_space.
      apply IH.
    + rewrite solid_app, F. cbn [String.append solid]. now rewrite (IH O).
Qed.

Lemma sub_runs_length (text : string) :
  forall run,
    (String.length (sub_runs c least replacement run text)
     <= run + String.length text)%nat.
Proof.
  induction text as [|x text IH]; intros run; rewrite sub_runs_eq.
  - pose proof (length_flush c least replacement run replacement_short).
    cbn [String.length]. lia.
  - destruct (Ascii.eqb x c).
    + specialize (IH (S run)). cbn [String.length]. lia.
    + rewrite string_length_app. cbn [String.length].
      pose proof (length_flush c least replacement run replacement_short).
      specialize (IH O). lia.
Qed.

End Whitespace.

Lemma sub_spaces_newline_solid (text : string) :
  forall run, solid (sub_spaces_newline run text) = solid text.
Proof.
  assert (F : forall run, solid (repeat_char space run) = EmptyString).
  { intros run. apply solid_spaces. now apply all_chars_repeat. }
  induction text as [|x text IH]; intros run; cbn [sub_spaces_newline].
  - apply F.
  - destruct (Ascii.eqb x space) eqn:X.
    + apply Ascii.eqb_eq in X. subst x. apply IH.
    + destruct (Ascii.eqb x newline) eqn:N.
      * cbn [solid]. now rewrite (IH O).
      * rewrite solid_app, F. cbn [String.append solid]. now rewrite (IH O).
Qed.

Lemma sub_spaces_newline_length (text : string) :
  forall run,
    (String.length (sub_spaces_newline run text)
     <= run + String.length text)%nat.
Proof.
  induction text as [|x text IH]; intros run; cbn [sub_spaces_newline].
  - rewrite length_repeat_char. lia.
  - destruct (Ascii.eqb x space).
    + specialize (IH (S run)). cbn [String.length]. lia.
    + specialize (IH O). destruct (Ascii.eqb x newline).
      * cbn [String.length]. lia.
      * rewrite string_length_app, length_repeat_char. cbn [String.length]. lia.
Qed.

Lemma lstrip_solid (text : string) : solid (lstrip text) = solid text.
Proof.
  induction text as [|x text IH]; cbn [lstrip]; [reflexivity | ].
  destruct (isspace x) eqn:X; [ | reflexivity].
  cbn [solid]. now rewrite X.
Qed.

Lemma rstrip_solid (text : string) : solid (rstrip text) = solid text.
Proof.
  induction text as [|x text IH]; cbn [rstrip]; [reflexivity | ].
  destruct (rstrip text) as [|y rest].
  - cbn [solid] in IH |- *. rewrite <- IH.
    destruct (isspace x) eqn:X; cbn [solid]; now rewrite ?X.
  - cbn [solid] in IH |- *. now rewrite <- IH.
Qed.

Lemma strip_length (text : string) :
  (String.length (strip text) <= String.length text)%nat.
Proof.
  destruct (strip_inside text) as (pre & post & E).
  rewrite E at 2. rewrite !string_length_app. lia.
Qed.

(** X21. [cleanup] changes whitespace only: what is left of the text when
    all whitespace is taken out is what is left of the text BeautifulSoup
    extracted, character for character; and the result is never longer
    than the extracted text. *)
Theorem cleanup_whitespace_only :
  forall (ext : Externals) (text : string),
    solid (cleanup text) = solid (html_get_text text) /\
    (String.length (cleanup text) <= String.length (html_get_text text))%nat.
Proof.
  intros ext text. unfold cleanup. split.
  - unfold strip. rewrite rstrip_solid, lstrip_solid.
    rewrite (sub_runs_solid newline 3); try reflexivity.
    rewrite sub_spaces_newline_solid.
    rewrite (sub_runs_solid space 2); try reflexivity.
    now rewrite (sub_runs_solid nbsp 1).
  - eapply Nat.le_trans; [apply strip_length | ].
    eapply Nat.le_trans; [apply (sub_runs_length newline 3); cbn; lia | ].
    eapply Nat.le_trans; [apply sub_spaces_newline_length | ].
    eapply Nat.le_trans; [apply (sub_runs_length space 2); cbn; lia | ].
    eapply Nat.le_trans; [apply (sub_runs_length nbsp 1); cbn; lia | ].
    lia.
Qed.

(* ================================================================== *)
(** * [get_entry], once more                                            *)
(* ================================================================== *)

(** The hashtag made of a tag's term. *)
Definition tag_token (t : string) : string :=
  "#" +++ remove_char "-" (remove_char "." (replace_char " " "_" t)).

(** [s.split(sep)] for a separator of one character. *)
Fixpoint split_on (sep : ascii) (s : string) : list string :=
  match s with
  | EmptyString => [EmptyString]
  | String c s' =>
      if Ascii.eqb c sep then EmptyString :: split_on sep s'
      else
        match split_on sep s' with
        | [] => [String c EmptyString]
        | word :: words => String c word :: words
        end
  end.

(** The characters a hashtag never holds. *)
Definition token_char (c : ascii) : bool :=
  other_than " " c && other_than "." c && other_than "-" c.

Lemma all_chars_remove (P : ascii -> bool) (old : ascii) (s : string) :
  all_chars P s = true -> all_chars P (remove_char old s) = true.
Proof.
  induction s as [|c s IH]; cbn [remove_char all_chars]; [reflexivity | ].
  intros H. apply andb_prop in H. destruct H as [C H].
  destruct (Ascii.eqb c old); [now apply IH | ].
  cbn [all_chars]. now rewrite C, IH.
Qed.

Lemma remove_char_absent (old : ascii) (s : string) :
  all_chars (other_than old) (remove_char old s) = true.
Proof.
  induction s as [|c s IH]; cbn [remove_char]; [reflexivity | ].
  destruct (Ascii.eqb c old) eqn:C; [exact IH | ].
  cbn [all_chars]. unfold other_than at 1. now rewrite C, IH.
Qed.

Lemma replace_char_absent (old new : ascii) (s : string) :
  Ascii.eqb new old = false ->
  all_chars (other_than old) (replace_char old new s) = true.
Proof.
  intros N. induction s as [|c s IH]; cbn [replace_char all_chars];
    [reflexivity | ].
  rewrite IH, andb_true_r. unfold other_than.
  destruct (Ascii.eqb c old) eqn:C; [now rewrite N | now rewrite C].
Qed.

Lemma all_chars_and (P Q : ascii -> bool) (s : string) :
  all_chars (fun c => P c && Q c) s = all_chars P s && all_chars Q s.
Proof.
  induction s as [|c s IH]; cbn [all_chars]; [reflexivity | ].
  rewrite IH. destruct (P c), (Q c), (all_chars P s); reflexivity.
Qed.

Lemma tag_token_chars (t : string) :
  exists word, tag_token t = String "#" word /\
               all_chars token_char (tag_token t) = true.
Proof.
  unfold tag_token. eexists. split; [reflexivity | ].
  cbn [String.append all_chars]. unfold token_char at 1. cbn [andb].
  set (body := remove_char "-" (remove_char "." (replace_char " " "_" t))).
  assert (A : all_chars (other_than " ") body = true).
  { unfold body. apply all_chars_remove, all_chars_remove.
    now apply replace_char_absent. }
  assert (B : all_chars (other_than ".") body = true).
  { unfold body. apply all_chars_remove, remove_char_absent. }
  assert (C : all_chars (other_than "-") body = true).
  { unfold body. apply remove_char_absent. }
  unfold token_char.
  rewrite (all_chars_and (fun c => other_than " " c && other_than "." c)).
  rewrite (all_chars_and (other_than " ")).
  now rewrite A, B, C.
Qed.

Lemma split_on_word (sep : ascii) (word rest : string) :
  all_chars (other_than sep) word = true ->
  split_on sep (word +++ String sep rest) = word :: split_on sep rest.
Proof.
  induction word as [|c word IH]; cbn [all_chars String.append split_on].
  - intros _. now rewrite Ascii.eqb_refl.
  - intros H. apply andb_prop in H. destruct H as [C H].
    unfold other_than in C. apply negb_true_iff in C.
    now rewrite C, (IH H).
Qed.

Lemma split_on_last (sep : ascii) (word : string) :
  all_chars (other_than sep) word = true -> split_on sep word = [word].
Proof.
  induction word as [|c word IH]; cbn [all_chars split_on]; [reflexivity | ].
  intros H. apply andb_prop in H. destruct H as [C H].
  unfold other_than in C. apply negb_true_iff in C.
  now rewrite C, (IH H).
Qed.

(** Splitting undoes joining, for words that do not hold the separator. *)
Lemma split_on_join (sep : ascii) (words : list string) :
  words <> [] ->
  Forall (fun word => all_chars (other_than sep) word = true) words ->
  split_on sep (join (String sep EmptyString) words) = words.
Proof.
  induction words as [|word words IH]; [congruence | ]. intros _ F.
  inversion F as [|? ? W F']; subst.
  destruct words as [|word' words].
  - cbn [join]. now apply split_on_last.
  - change (join (String sep EmptyString) (word :: word' :: words))
      with (word +++
            String sep (join (String sep EmptyString) (word' :: words))).
    rewrite (split_on_word sep word _ W).
    rewrite IH; [reflexivity | congruence | exact F'].
Qed.

Section EntryFacts.

Context {ext : Externals}.

(** The entry [get_entry] builds of a raw entry that has what it asks for. *)
Definition entry_of (r : RawEntry) (terms : list string) (l t : string)
                    (d : datetime) : Entry :=
  mkentry (get (raw_id r) l) l (cleanup t)
          (cleanup (get (raw_summary r) EmptyString))
          match raw_content r with
          | Some (block :: _) => cleanup (get (value block) EmptyString)
          | _ => EmptyString
          end
          (join " " (map tag_token terms)) d.

Lemma mapM_hashtag (tags : list Tag) (tokens : list string) :
  mapM hashtag tags = Ok tokens <->
  exists terms, map term tags = map Some terms /\
                tokens = map tag_token terms.
Proof.
  rewrite mapM_Forall2. split.
  - induction 1 as [|tag token tags tokens H _ (terms & E1 & E2)].
    + exists []. split; reflexivity.
    + unfold hashtag in H. bind_inv H. injection H as <-.
      unfold getattr in E. destruct (term tag) as [t|] eqn:T;
        [ | discriminate].
      injection E as <-. exists (t :: terms). cbn [map].
      rewrite T, E1, E2. split; reflexivity.
  - intros (terms & E1 & ->). revert tags E1.
    induction terms as [|t terms IH]; intros [|tag tags] E1;
      try discriminate E1; constructor.
    + cbn [map] in E1. injection E1 as T _.
      unfold hashtag. now rewrite T.
    + apply IH. cbn [map] in E1. now injection E1.
Qed.

Lemma mapM_hashtag_Raise (tags : list Tag) (x : exn) :
  mapM hashtag tags = Raise x ->
  x = AttributeError /\ exists tag, In tag tags /\ term tag = None.
Proof.
  induction tags as [|tag tags IH]; cbn [mapM]; [discriminate | ].
  unfold hashtag at 1. destruct (term tag) as [t|] eqn:T; cbn [getattr Py.bind].
  - destruct (mapM hashtag tags) as [tokens|y]; cbn [Py.bind];
      [discriminate | ].
    intros H. injection H as ->. destruct (IH eq_refl) as (-> & tag' & I & N).
    split; [reflexivity | ]. exists tag'. split; [now right | exact N].
  - intros H. injection H as <-. split; [reflexivity | ].
    exists tag. split; [now left | exact T].
Qed.

Lemma get_entry_Ok (r : RawEntry) (e : Entry) :
  get_entry r = Ok e <->
  exists terms l t d,
    map term (get (raw_tags r) []) = map Some terms /\
    raw_link r = Some l /\ raw_title r = Some t /\
    parsed_updated r = Ok d /\
    e = entry_of r terms l t d.
Proof.
  unfold get_entry, entry_of. split.
  - intros H. bind_inv H. apply mapM_hashtag in E.
    destruct E as (terms & E1 & ->).
    destruct (raw_link r) as [l|]; [ | destruct (raw_id r); discriminate].
    destruct (raw_title r) as [t|]; [ | destruct (raw_id r); discriminate].
    destruct (parsed_updated r) as [d|x];
      [ | destruct (raw_id r); discriminate].
    exists terms, l, t, d. repeat split; try assumption.
    destruct (raw_id r); cbn in H; now injection H as <-.
  - intros (terms & l & t & d & E1 & -> & -> & -> & ->).
    assert (M : mapM hashtag (get (raw_tags r) []) = Ok (map tag_token terms)).
    { apply mapM_hashtag. now exists terms. }
    rewrite M. destruct (raw_id r); reflexivity.
Qed.

End EntryFacts.

(** What [get_entry] asks of an entry before it reads the date: every tag
    has a term, and the lookups of [link] and [title] find something. *)
Definition has_fields (r : RawEntry) : Prop :=
  Forall (fun tag => term tag <> None) (get (raw_tags r) []) /\
  raw_link r <> None /\ raw_title r <> None.

Section EntryErrors.

Context {ext : Externals}.

Lemma terms_found (tags : list Tag) :
  Forall (fun tag => term tag <> None) tags <->
  exists terms, map term tags = map Some terms.
Proof.
  split.
  - induction 1 as [|tag tags H _ (terms & E)]; [now exists [] | ].
    destruct (term tag) as [t|] eqn:T; [ | congruence].
    exists (t :: terms). cbn [map]. now rewrite T, E.
  - intros (terms & E). revert terms E.
    induction tags as [|tag tags IH]; intros terms E; [constructor | ].
    destruct terms as [|t terms]; [discriminate E | ].
    cbn [map] in E. injection E as T E. constructor; [congruence | eauto].
Qed.

(** [get_entry], by what it finds. *)
Lemma get_entry_cases (r : RawEntry) :
  (has_fields r /\
   exists terms l t,
     raw_link r = Some l /\
     get_entry r = (d <- parsed_updated r ;; Ok (entry_of r terms l t d))) \/
  (~ has_fields r /\ get_entry r = Raise AttributeError).
Proof.
  unfold has_fields.
  destruct (mapM hashtag (get (raw_tags r) [])) as [tokens|y] eqn:M.
  - pose proof M as M'. apply mapM_hashtag in M'.
    destruct M' as (terms & E & ->).
    assert (T : Forall (fun tag => term tag <> None) (get (raw_tags r) []))
      by (apply terms_found; eauto).
    destruct (raw_link r) as [l|] eqn:L.
    + destruct (raw_title r) as [t|] eqn:Ti.
      * left. split; [repeat split; [exact T | discriminate | discriminate] | ].
        exists terms, l, t. split; [reflexivity | ].
        unfold get_entry, entry_of. rewrite M, L, Ti. cbn [Py.bind getattr].
        now destruct (raw_id r).
      * right. split; [tauto | ].
        unfold get_entry. rewrite M, L, Ti. cbn [Py.bind getattr].
        now destruct (raw_id r).
    + right. split; [tauto | ].
      unfold get_entry. rewrite M, L. cbn [Py.bind getattr].
      now destruct (raw_id r).
  - destruct (mapM_hashtag_Raise _ _ M) as (-> & tag & I & N). right. split.
    + intros (T & _). rewrite Forall_forall in T. now apply (T tag).
    + unfold get_entry. now rewrite M.
Qed.

End EntryErrors.

(** X3. When [get_entry] returns, and what it raises.  It returns exactly
    when every tag has a term, the lookups of [link] and [title] find
    something, and [entry['updated']] finds a string that dateutil reads;
    an id, a summary, a content and tags are not needed.  Its url is then
    the id, or the link when the lookup of the id finds nothing, and its
    [updated] the date read.  Otherwise the first thing that fails decides:
    [AttributeError] for a tag whose term is [None] and for a link or a
    title that is not found (a link also when there is an id), before the
    date is looked at; then [KeyError] when [entry['updated']] finds
    nothing, and the exception of dateutil when it cannot read the
    string. *)
Theorem get_entry_outcome :
  forall (ext : Externals) (r : RawEntry),
    (is_ok (get_entry r) = true
     <-> has_fields r /\ is_ok (parsed_updated r) = true) /\
    (forall e,
        get_entry r = Ok e ->
        raw_link r = Some (link e) /\
        url e = get (raw_id r) (link e) /\
        parsed_updated r = Ok (updated e)) /\
    (forall x,
        get_entry r = Raise x <->
        (~ has_fields r /\ x = AttributeError) \/
        (has_fields r /\ parsed_updated r = Raise x)) /\
    (forall x,
        parsed_updated r = Raise x <->
        (raw_updated r = None /\ x = KeyError "updated") \/
        (exists text, raw_updated r = Some text /\
                      dateutil_parse text = Raise x)).
Proof.
  intros ext r.
  destruct (get_entry_cases r) as [(H & terms & l & t & L & ->) | (H & ->)].
  - split; [ | split; [ | split]].
    + destruct (parsed_updated r); cbn; tauto.
    + intros e E. destruct (parsed_updated r) as [d|x]; [ | discriminate].
      cbn [Py.bind] in E. injection E as <-. now repeat split.
    + intros x. destruct (parsed_updated r) as [d|y]; cbn [Py.bind]; split.
      * discriminate.
      * intros [[N _] | [_ E]]; [contradiction | discriminate].
      * intros E. injection E as <-. right. now split.
      * intros [[N _] | [_ E]]; [contradiction | now injection E as <-].
    + intros x. unfold parsed_updated.
      destruct (raw_updated r) as [text|]; cbn [getitem Py.bind]; split.
      * intros E. right. now exists text.
      * intros [[N _] | (text' & E & D)]; [discriminate | ].
        now injection E as <-.
      * intros E. injection E as <-. now left.
      * intros [[_ ->] | (text' & E & _)]; [reflexivity | discriminate].
  - split; [ | split; [ | split]].
    + cbn. split; [discriminate | tauto].
    + discriminate.
    + intros x; split.
      * intros E. injection E as <-. now left.
      * intros [[_ ->] | [N _]]; [reflexivity | contradiction].
    + intros x. unfold parsed_updated.
      destruct (raw_updated r) as [text|]; cbn [getitem Py.bind]; split.
      * intros E. right. now exists text.
      * intros [[N _] | (text' & E & D)]; [discriminate | ].
        now injection E as <-.
      * intros E. injection E as <-. now left.
      * intros [[_ ->] | (text' & E & _)]; [reflexivity | discriminate].
Qed.

Lemma get_entry_outcome_witness :
  let r := mkraw (Some "urn:1"%string) None (Some "t"%string) None None None
                 None None in
  ~ has_fields r /\
  @get_entry Demo.world r = Raise AttributeError /\
  @parsed_updated Demo.world r = Raise (KeyError "updated").
Proof.
  intros r.
  assert (N : ~ has_fields r) by (intros (_ & L & _); now apply L).
  split; [exact N | ]. split.
  - apply (proj1 (proj2 (proj2 (get_entry_outcome Demo.world r)))).
    left. now split.
  - apply (proj2 (proj2 (proj2 (get_entry_outcome Demo.world r)))).
    left. now split.
Defined.

(** X4. The hashtags of an entry are one word per tag of the feed entry, in
    the order of the feed: each starts with [#] and holds no space, period
    or hyphen, so that splitting the string at the spaces gives back one
    hashtag per tag.  An entry without tags has the empty string. *)
Theorem hashtags_one_per_tag :
  forall (ext : Externals) (r : RawEntry) (e : Entry),
    get_entry r = Ok e ->
    exists terms,
      map term (get (raw_tags r) []) = map Some terms /\
      hashtags e = join " " (map tag_token terms) /\
      Forall (fun token =>
                (exists word, token = String "#" word) /\
                all_chars token_char token = true)
             (map tag_token terms) /\
      (terms = [] -> hashtags e = EmptyString) /\
      (terms <> [] -> split_on " " (hashtags e) = map tag_token terms).
Proof.
  intros ext r e H. apply get_entry_Ok in H.
  destruct H as (terms & l & t & d & E1 & _ & _ & _ & ->).
  exists terms. cbn [entry_of hashtags].
  assert (F : Forall (fun token =>
                        (exists word, token = String "#" word) /\
                        all_chars token_char token = true)
                     (map tag_token terms)).
  { rewrite Forall_forall. intros token I. apply in_map_iff in I.
    destruct I as (term & <- & _).
    destruct (tag_token_chars term) as (word & E & C). eauto. }
  repeat split; try assumption.
  - now intros ->.
  - intros N. apply split_on_join.
    + destruct terms; [congruence | discriminate].
    + eapply Forall_impl; [ | exact F]. intros token [_ C].
      unfold token_char in C.
      rewrite (all_chars_and (fun c => other_than " " c && other_than "." c)),
        (all_chars_and (other_than " ")) in C.
      apply andb_prop in C. destruct C as [C _]. apply andb_prop in C. tauto.
Qed.

Lemma hashtags_one_per_tag_witness :
  let r := mkraw None (Some "http://x/1"%string) (Some "t"%string) None None
                 (Some [mktag (Some "Free Software"%string);
                        mktag (Some "e-mail v2.0"%string)])
                 (Some "2024-01-01T10:00:00+00:00"%string) None in
  exists e terms,
    @get_entry Demo.world r = Ok e /\
    hashtags e = "#Free_Software #email_v20"%string /\
    map term (get (raw_tags r) []) = map Some terms /\
    hashtags e = join " " (map tag_token terms) /\
    Forall (fun token =>
              (exists word, token = String "#" word) /\
              all_chars token_char token = true)
           (map tag_token terms) /\
    (terms = [] -> hashtags e = EmptyString) /\
    (terms <> [] -> split_on " " (hashtags e) = map tag_token terms).
Proof.
  intros r.
  destruct (@get_entry Demo.world r) as [e|x] eqn:G; [ | discriminate G].
  destruct (hashtags_one_per_tag Demo.world r e G) as (terms & H).
  exists e, terms. split; [reflexivity | ]. split; [ | exact H].
  vm_compute in G. injection G as <-. reflexivity.
Defined.

(** X5. The title, the summary and the content of every entry that
    [get_entry] returns are tidy: each is what [cleanup] returned, or the
    empty string. *)
Theorem entry_text_tidy :
  forall (ext : Externals) (r : RawEntry) (e : Entry),
    get_entry r = Ok e ->
    tidy (title e) = true /\ tidy (summary e) = true /\
    tidy (content e) = true.
Proof.
  intros ext r e H. apply get_entry_Ok in H.
  destruct H as (terms & l & t & d & _ & _ & _ & _ & ->).
  cbn [entry_of title summary content]. repeat split.
  - apply cleanup_is_tidy.
  - apply cleanup_is_tidy.
  - destruct (raw_content r) as [[|block blocks]|];
      [reflexivity | apply cleanup_is_tidy | reflexivity].
Qed.

Lemma entry_text_tidy_witness :
  tidy (title (Demo.entry "A1" 10 0)) = true /\
  tidy (summary (Demo.entry "A1" 10 0)) = true /\
  tidy (content (Demo.entry "A1" 10 0)) = true.
Proof.
  apply (entry_text_tidy Demo.world Demo.a1). reflexivity.
Defined.

(* ================================================================== *)
(** * [get_feed], once more                                             *)
(* ================================================================== *)

(** ** Sorting and filtering commute *)

Section SortFilter.

Context {A K : Type}.
Variable key : A -> K.
Variable ltb : K -> K -> bool.
Variable good : A -> Prop.
Hypothesis ltb_asym :
  forall x y, good x -> good y ->
              ltb (key x) (key y) = true -> ltb (key y) (key x) = false.
Hypothesis le_trans :
  forall x y z, good x -> good y -> good z ->
                key_le key ltb x y -> key_le key ltb y z -> key_le key ltb x z.

Lemma insert_first (x : A) (l : list A) :
  Forall (key_le key ltb x) l -> Py.insert key ltb x l = x :: l.
Proof.
  destruct l as [|y l]; [reflexivity | ]. intros F.
  inversion F as [|? ? Y _]; subst. cbn [Py.insert].
  unfold key_le in Y. now rewrite Y.
Qed.

Lemma insert_filter (q : A -> bool) (x : A) (l : list A) :
  good x -> Forall good l -> StronglySorted (key_le key ltb) l ->
  filter q (Py.insert key ltb x l)
  = if q x then Py.insert key ltb x (filter q l) else filter q l.
Proof.
  intros Gx. induction l as [|y l IH]; intros G S.
  - cbn. now destruct (q x).
  - inversion G as [|? ? Gy Gl]; subst.
    inversion S as [|? ? S' Fy]; subst.
    cbn [Py.insert]. destruct (ltb (key y) (key x)) eqn:E.
    + cbn [filter]. rewrite (IH Gl S').
      destruct (q y), (q x); try reflexivity.
      cbn [Py.insert]. now rewrite E.
    + change (filter q (x :: y :: l))
        with (if q x then x :: filter q (y :: l) else filter q (y :: l)).
      destruct (q x); [ | reflexivity].
      symmetry. apply insert_first.
      rewrite Forall_forall in *. intros z Hz. apply filter_In in Hz.
      destruct Hz as [[<- | Hz] _]; [exact E | ].
      apply (le_trans x y z); auto.
Qed.

Lemma sort_filter (q : A -> bool) (l : list A) :
  Forall good l ->
  filter q (Py.sort key ltb l) = Py.sort key ltb (filter q l).
Proof.
  induction l as [|x l IH]; intros G; [reflexivity | ].
  inversion G as [|? ? Gx Gl]; subst. cbn [Py.sort filter].
  rewrite insert_filter.
  - rewrite (IH Gl). now destruct (q x).
  - exact Gx.
  - now apply sort_Forall.
  - now apply (sort_sorted key ltb good ltb_asym le_trans).
Qed.

End SortFilter.

Lemma sort_short {A K : Type} (key : A -> K) (ltb : K -> K -> bool)
      (l : list A) :
  (List.length l < 2)%nat -> Py.sort key ltb l = l.
Proof.
  destruct l as [|x [|y l]]; cbn [List.length];
    [reflexivity | reflexivity | lia].
Qed.

Lemma filter_length_le {A : Type} (q : A -> bool) (l : list A) :
  (List.length (filter q l) <= List.length l)%nat.
Proof.
  induction l as [|x l IH]; cbn [filter List.length]; [lia | ].
  destruct (q x); cbn [List.length]; lia.
Qed.

Lemma Forall_filter {A : Type} (P : A -> Prop) (q : A -> bool) (l : list A) :
  Forall P l -> Forall P (filter q l).
Proof.
  rewrite !Forall_forall. intros H x I. apply filter_In in I. now apply H.
Qed.

Lemma filter_filter {A : Type} (p q : A -> bool) (l : list A) :
  (forall x, In x l -> q x = true -> p x = true) ->
  filter q (filter p l) = filter q l.
Proof.
  induction l as [|x l IH]; intros H; cbn [filter]; [reflexivity | ].
  assert (H' : forall y, In y l -> q y = true -> p y = true).
  { intros y I. apply H. now right. }
  destruct (p x) eqn:P; cbn [filter]; rewrite (IH H'); [reflexivity | ].
  destruct (q x) eqn:Q; [ | reflexivity].
  rewrite (H x (or_introl eq_refl) Q) in P. discriminate.
Qed.

Lemma Forall2_filter {A B : Type} (R : A -> B -> Prop)
      (p : A -> bool) (q : B -> bool) (l : list A) (l' : list B) :
  Forall2 R l l' ->
  (forall x y, R x y -> p x = q y) ->
  Forall2 R (filter p l) (filter q l').
Proof.
  intros F H. induction F as [|x y l l' Rxy _ IH]; cbn [filter];
    [constructor | ].
  rewrite (H x y Rxy). destruct (q y); [now constructor | exact IH].
Qed.

Section FeedFacts.

Context {ext : Externals}.

(** The entries of the feed that pass the filter, in the order of the
    feed. *)
Definition kept (feed_url : string) (last_update : option datetime)
  : list RawEntry :=
  match last_update with
  | Some w => filter (is_newer w) (feedparser_parse feed_url)
  | None => feedparser_parse feed_url
  end.

(** The sort can compare the keys: the lookup [e.updated_parsed] finds
    something for every entry, and what it finds is not [None] unless there
    is nothing to compare. *)
Definition sortable (l : list RawEntry) : Prop :=
  Forall (fun r => updated_parsed r <> None) l /\
  ((List.length l < 2)%nat \/ Forall has_key l).

Lemma sort_key_Ok (l : list RawEntry) :
  Forall (fun r => updated_parsed r <> None) l ->
  mapM sort_key l = Ok (map key_of l).
Proof.
  induction 1 as [|r l H _ IH]; cbn [mapM map]; [reflexivity | ].
  rewrite IH. unfold sort_key, key_of.
  destruct (updated_parsed r); [reflexivity | congruence].
Qed.

Lemma sort_entries_returns (l l' : list RawEntry) :
  sort_entries l = Ok l' <-> l' = Py.sort key_of key_ltb l /\ sortable l.
Proof.
  split.
  - intros H. destruct (sort_entries_Ok l l' H) as [-> K].
    split; [reflexivity | ]. split; [ | exact K].
    unfold sort_entries in H. bind_inv H. apply mapM_Forall2 in E.
    clear - E. induction E as [|r k l ks Hr _ IH]; constructor; [ | exact IH].
    unfold sort_key, getattr in Hr.
    destruct (updated_parsed r); [discriminate | discriminate Hr].
  - intros (-> & A & K). unfold sort_entries.
    rewrite (sort_key_Ok l A). cbn [Py.bind].
    replace ((2 <=? List.length l)%nat && existsb is_None (map key_of l))
      with false; [reflexivity | ].
    symmetry. apply andb_false_iff. destruct K as [K | K].
    + left. now apply Nat.leb_gt.
    + right. clear - K. induction K as [|r l [k Hk] _ IH]; [reflexivity | ].
      cbn [map existsb]. now rewrite Hk, IH.
Qed.

Lemma comparable_newer (w : datetime) (l : list RawEntry) :
  Forall (comparable w) l -> filterM (newer w) l = Ok (filter (is_newer w) l).
Proof.
  intros C.
  assert (T : Forall (fun e => exists b, newer w e = Ok b) l).
  { eapply Forall_impl; [ | exact C]. intros r (d & Hd & Aw).
    unfold newer. rewrite Hd. cbn [Py.bind].
    rewrite (gt_comparable d w Aw). eauto. }
  rewrite (filterM_total _ _ T). now rewrite (holds_newer w l T).
Qed.

Lemma get_feed_iff (feed_url : string) (last_update : option datetime)
      (items : list (result Entry)) :
  get_feed feed_url last_update = Ok items <->
  items = map get_entry (Py.sort key_of key_ltb (kept feed_url last_update)) /\
  match last_update with
  | Some w => Forall (comparable w) (feedparser_parse feed_url)
  | None => True
  end /\
  sortable (kept feed_url last_update).
Proof.
  unfold get_feed, kept. split.
  - intros H. bind_inv H. bind_inv H. injection H as <-.
    apply sort_entries_returns in E0. destruct E0 as [-> K].
    destruct last_update as [w|].
    + apply filterM_filter in E. destruct E as [-> F].
      rewrite holds_newer in * by assumption.
      split; [reflexivity | split; [ | exact K]].
      rewrite Forall_forall in *. intros e He.
      destruct (F e He) as [b Hb]. now apply newer_Ok in Hb.
    + injection E as <-. split; [reflexivity | split; [exact I | exact K]].
  - intros (-> & C & K).
    assert (S : sort_entries
                  match last_update with
                  | Some w => filter (is_newer w) (feedparser_parse feed_url)
                  | None => feedparser_parse feed_url
                  end
                = Ok (Py.sort key_of key_ltb
                        match last_update with
                        | Some w =>
                            filter (is_newer w) (feedparser_parse feed_url)
                        | None => feedparser_parse feed_url
                        end)).
    { apply sort_entries_returns. now split. }
    destruct last_update as [w|].
    + rewrite (comparable_newer w _ C). cbn [Py.bind]. now rewrite S.
    + cbn [Py.bind]. now rewrite S.
Qed.

Lemma fetch_iff (feed_url : string) (last_update : option datetime)
      (out : list Entry) :
  fetch feed_url last_update = Ok out <->
  Forall2 (fun r e => get_entry r = Ok e)
          (Py.sort key_of key_ltb (kept feed_url last_update)) out /\
  match last_update with
  | Some w => Forall (comparable w) (feedparser_parse feed_url)
  | None => True
  end /\
  sortable (kept feed_url last_update).
Proof.
  unfold fetch. split.
  - intros H. bind_inv H. apply get_feed_iff in E. destruct E as (-> & C & K).
    rewrite mapM_id_map in H. apply mapM_Forall2 in H.
    split; [exact H | split; [exact C | exact K]].
  - intros (F & C & K).
    assert (G : get_feed feed_url last_update
                = Ok (map get_entry
                        (Py.sort key_of key_ltb (kept feed_url last_update)))).
    { apply get_feed_iff. split; [reflexivity | split; assumption]. }
    rewrite G. cbn [Py.bind]. rewrite mapM_id_map. now apply mapM_Forall2.
Qed.

Lemma sortable_filter (q : RawEntry -> bool) (l : list RawEntry) :
  sortable l -> sortable (filter q l).
Proof.
  intros [A K]. split; [now apply Forall_filter | ].
  destruct K as [K | K]; [left | right; now apply Forall_filter].
  pose proof (filter_length_le q l). lia.
Qed.

Lemma sort_filter_entries (q : RawEntry -> bool) (l : list RawEntry) :
  sortable l ->
  filter q (Py.sort key_of key_ltb l) = Py.sort key_of key_ltb (filter q l).
Proof.
  intros [_ [K | K]].
  - rewrite (sort_short key_of key_ltb l K). symmetry. apply sort_short.
    pose proof (filter_length_le q l). lia.
  - now apply (sort_filter key_of key_ltb has_key key_ltb_asym key_le_trans).
Qed.

End FeedFacts.

(** X6. [get_feed] returns, rather than raises, exactly when, for every
    entry of the feed, the old ones too, [entry['updated']] finds a string
    that dateutil reads as a date aware of its timezone as the watermark
    is, and when the sort can compare the entries it keeps: for each of
    them [e.updated_parsed] finds something, and not [None] unless fewer
    than two are kept.  (Both lookups are answered by feedparser, which
    falls back on the published date.)  Without a watermark only the second
    condition is asked.  What it returns is [get_entry] of the kept
    entries, sorted. *)
Theorem get_feed_returns :
  forall (ext : Externals) (feed_url : string) (last_update : option datetime),
    (is_ok (get_feed feed_url last_update) = true <->
     match last_update with
     | Some w => Forall (comparable w) (feedparser_parse feed_url)
     | None => True
     end /\
     sortable (kept feed_url last_update)) /\
    (forall items,
        get_feed feed_url last_update = Ok items ->
        items = map get_entry
                    (Py.sort key_of key_ltb (kept feed_url last_update))).
Proof.
  intros ext feed_url last_update. split.
  - split.
    + destruct (get_feed feed_url last_update) as [items|x] eqn:G;
        [ | discriminate].
      intros _. apply get_feed_iff in G. tauto.
    + intros [C K].
      assert (G : get_feed feed_url last_update
                  = Ok (map get_entry
                          (Py.sort key_of key_ltb (kept feed_url last_update)))).
      { apply get_feed_iff. split; [reflexivity | split; assumption]. }
      now rewrite G.
  - intros items G. apply get_feed_iff in G. tauto.
Qed.

Lemma get_feed_returns_witness :
  is_ok (@get_feed Demo.world "A" (Some min_utc)) = true /\
  Forall (@comparable Demo.world min_utc) (@feedparser_parse Demo.world "A") /\
  sortable (@kept Demo.world "A" (Some min_utc)) /\
  is_ok (@get_feed Broken.world "N" (Some min_utc)) = false.
Proof.
  assert (G : is_ok (@get_feed Demo.world "A" (Some min_utc)) = true)
    by (vm_compute; reflexivity).
  split; [exact G | ].
  destruct (proj1 (proj1 (get_feed_returns Demo.world "A" (Some min_utc))) G)
    as [C K].
  split; [exact C | ]. split; [exact K | ]. vm_compute. reflexivity.
Defined.

(** X7. Fetching with a later watermark returns what is left of the earlier
    fetch: when the fetch with watermark [w] returns, the fetch with a
    watermark [w'] that is not before [w] returns too, and gives the same
    entries in the same order, less those not newer than [w']. *)
Theorem fetch_later_watermark :
  forall (ext : Externals) (feed_url : string) (w w' : datetime)
         (out : list Entry),
    fetch feed_url (Some w) = Ok out ->
    aware w' = aware w ->
    dt_le w w' ->
    fetch feed_url (Some w')
    = Ok (filter (fun e => utc_micros w' <? utc_micros (updated e)) out).
Proof.
  intros ext feed_url w w' out H Aw Le.
  apply fetch_iff in H. destruct H as (F & C & K).
  apply fetch_iff. cbn [kept] in *.
  assert (E : filter (is_newer w') (feedparser_parse feed_url)
              = filter (is_newer w')
                       (filter (is_newer w) (feedparser_parse feed_url))).
  { symmetry. apply filter_filter. intros r _. unfold is_newer.
    destruct (parsed_updated r); [ | discriminate].
    rewrite !Z.ltb_lt. unfold dt_le in Le. lia. }
  repeat split.
  - rewrite E, <- (sort_filter_entries _ _ K).
    apply (Forall2_filter _ _ _ _ _ F).
    intros r e G. apply get_entry_updated in G. unfold is_newer.
    now rewrite G.
  - eapply Forall_impl; [ | exact C]. intros r (d & Hd & Ad).
    exists d. split; [exact Hd | congruence].
  - rewrite E. apply Forall_filter. apply K.
  - rewrite E. now apply sortable_filter.
Qed.

Lemma fetch_later_watermark_witness :
  @fetch Demo.world "A" (Some min_utc)
  = Ok [Demo.entry "A1" 10 0; Demo.entry "A2" 10 5] /\
  aware (Demo.at_time 10 2) = aware min_utc /\
  dt_le min_utc (Demo.at_time 10 2) /\
  @fetch Demo.world "A" (Some (Demo.at_time 10 2)) = Ok [Demo.entry "A2" 10 5].
Proof.
  assert (F : @fetch Demo.world "A" (Some min_utc)
              = Ok [Demo.entry "A1" 10 0; Demo.entry "A2" 10 5])
    by (vm_compute; reflexivity).
  assert (L : dt_le min_utc (Demo.at_time 10 2))
    by (unfold dt_le; vm_compute; discriminate).
  split; [exact F | ]. split; [reflexivity | ]. split; [exact L | ].
  exact (fetch_later_watermark Demo.world "A" min_utc (Demo.at_time 10 2) _
                               F eq_refl L).
Defined.

Lemma filterM_Raise {A : Type} (p : A -> result bool) (pre post : list A)
      (x : A) (e : exn) :
  Forall (fun y => exists b, p y = Ok b) pre ->
  p x = Raise e ->
  filterM p (pre ++ x :: post) = Raise e.
Proof.
  intros F X. induction F as [|y pre [b Hb] _ IH]; cbn [app filterM].
  - now rewrite X.
  - now rewrite Hb, IH.
Qed.

(** X8. A feed that mixes dates with and without timezone cannot be
    fetched: when the entries before one have dates that can be compared
    with the watermark and that one has a date which dateutil reads but
    which is aware of its timezone where the watermark is not, or the other
    way round, [get_feed] raises [TypeError].  With the watermark of a
    configuration that has none yet, which is aware, any entry whose date
    names no timezone does that. *)
Theorem mixed_timezones_raise :
  forall (ext : Externals) (feed_url : string) (w : datetime)
         (before after : list RawEntry) (r : RawEntry) (d : datetime),
    feedparser_parse feed_url = before ++ r :: after ->
    Forall (comparable w) before ->
    parsed_updated r = Ok d ->
    aware d <> aware w ->
    get_feed feed_url (Some w) = Raise TypeError /\
    fetch feed_url (Some w) = Raise TypeError.
Proof.
  intros ext feed_url w before after r d E C P N.
  assert (G : get_feed feed_url (Some w) = Raise TypeError).
  { unfold get_feed. rewrite E.
    rewrite (filterM_Raise (newer w) before after r TypeError);
      [reflexivity | | ].
    - eapply Forall_impl; [ | exact C]. intros y (dy & Hy & Ay).
      unfold newer. rewrite Hy. cbn [Py.bind].
      rewrite (gt_comparable dy w Ay). eauto.
    - unfold newer. rewrite P. cbn [Py.bind]. unfold Datetime.gt.
      destruct (Bool.eqb (aware d) (aware w)) eqn:B; [ | reflexivity].
      apply Bool.eqb_prop in B. contradiction. }
  split; [exact G | ]. unfold fetch. now rewrite G.
Qed.

Lemma mixed_timezones_raise_witness :
  @get_feed Broken.world "N" (Some min_utc) = Raise TypeError /\
  @fetch Broken.world "N" (Some min_utc) = Raise TypeError.
Proof.
  apply (mixed_timezones_raise Broken.world "N" min_utc [] []
           (Demo.entry_at "N1" "2024-01-01T10:00:00" 10 0)
           (mkdt 2024 1 1 10 0 0 0 None)).
  - reflexivity.
  - constructor.
  - reflexivity.
  - discriminate.
Defined.

(* ================================================================== *)
(** * Composing a status                                                *)
(* ================================================================== *)

(** The template [setup] gives the feed it configures. *)
Definition default_template : string :=
  "{title}" +++ String newline "{link}".

(** Text with its braces doubled, as a template must spell text that is
    not a placeholder. *)
Fixpoint escape_braces (s : string) : string :=
  match s with
  | EmptyString => EmptyString
  | String c s' =>
      if ch c "{" || ch c "}" then String c (String c (escape_braces s'))
      else String c (escape_braces s')
  end.

Lemma take_length_min (n : nat) (s : string) :
  String.length (take n s) = Nat.min n (String.length s).
Proof.
  revert s. induction n as [|n IH]; intros s; cbn [take]; [reflexivity | ].
  destruct s as [|c s]; cbn [String.length]; [reflexivity | ].
  now rewrite IH.
Qed.

Lemma take_all (n : nat) (s : string) :
  (String.length s <= n)%nat -> take n s = s.
Proof.
  revert s. induction n as [|n IH]; intros s; destruct s as [|c s];
    cbn [take String.length]; intros H; try reflexivity; [lia | ].
  rewrite IH; [reflexivity | lia].
Qed.

Lemma slice_to_length (s : string) (n : Z) :
  Z.of_nat (String.length (slice_to s n))
  = if 0 <=? n then Z.min n (Z.of_nat (String.length s))
    else Z.max 0 (Z.of_nat (String.length s) + n).
Proof.
  unfold slice_to. destruct (0 <=? n) eqn:E; rewrite take_length_min.
  - apply Z.leb_le in E. lia.
  - apply Z.leb_gt in E. lia.
Qed.

Lemma snoc_append (acc : string) (c : ascii) (s : string) :
  snoc acc c +++ s = acc +++ String c s.
Proof.
  unfold snoc. now rewrite append_assoc.
Qed.

Lemma render_escaped (ro : kwargs -> pyval -> field -> result string)
      (kw : kwargs) (text : string) :
  forall acc,
    render ro kw (scan (Lit acc) (escape_braces text)) = Ok (acc +++ text).
Proof.
  induction text as [|c text IH]; intros acc; cbn [escape_braces].
  - cbn. now rewrite !append_nil_r.
  - destruct (ch c "{") eqn:O.
    + cbn [orb scan]. rewrite O. cbn [render].
      rewrite (IH EmptyString). cbn [Py.bind String.append].
      now rewrite snoc_append.
    + destruct (ch c "}") eqn:C.
      * cbn [orb scan]. rewrite O, C. cbn [render].
        rewrite (IH EmptyString). cbn [Py.bind String.append].
        now rewrite snoc_append.
      * cbn [orb scan]. rewrite O, C, IH. now rewrite snoc_append.
Qed.

(** X9. The length of a status, exactly: with a limit that is not negative
    it is the length of the formatted template or the limit, whichever is
    smaller, so a limit of 0 posts the empty status; a negative limit takes
    that many characters off the end. *)
Theorem status_length :
  forall (ext : Externals) (config : Config) (feed : Feed) (entry : Entry)
         (s : Status) (text : string),
    compose config feed entry = Ok s ->
    format render_other (feed_template feed) (entry_kwargs entry) = Ok text ->
    let limit := get (cfg_max_chars config) 500 in
    let len := Z.of_nat (String.length text) in
    Z.of_nat (String.length (status s))
    = (if 0 <=? limit then Z.min limit len else Z.max 0 (len + limit)) /\
    (limit = 0 -> status s = EmptyString) /\
    (len <= limit -> status s = text).
Proof.
  intros ext config feed entry s text C F limit len.
  apply compose_Ok in C. destruct C as (text' & F' & ->).
  rewrite F in F'. injection F' as <-. cbn [status]. fold limit.
  split; [apply slice_to_length | ]. split.
  - intros ->. reflexivity.
  - intros L. unfold slice_to. unfold len in L.
    destruct (0 <=? limit) eqn:E.
    + apply take_all. lia.
    + apply Z.leb_gt in E. lia.
Qed.

Lemma status_length_witness :
  let config := set_updated (Demo.config_file [] (Some (-1)) None) min_utc in
  let feed := mkfeed "A" "{title} {link}" in
  let entry := Demo.entry "A1" 10 0 in
  let text := "A1 http://x/A1"%string in
  let s := Demo.unlisted "A1 http://x/A"%string in
  @compose Demo.world config feed entry = Ok s /\
  format (@render_other Demo.world) (feed_template feed) (entry_kwargs entry)
  = Ok text /\
  Z.of_nat (String.length (status s)) = 13 /\
  Z.of_nat (String.length (status s))
  = (if 0 <=? get (cfg_max_chars config) 500
     then Z.min (get (cfg_max_chars config) 500) (Z.of_nat (String.length text))
     else Z.max 0 (Z.of_nat (String.length text)
                   + get (cfg_max_chars config) 500)).
Proof.
  intros config feed entry text s.
  split; [reflexivity | ]. split; [reflexivity | ]. split; [reflexivity | ].
  apply (status_length Demo.world config feed entry s text); reflexivity.
Defined.

Lemma compose_default_template {ext : Externals} (config : Config)
      (feed : Feed) (entry : Entry) :
  feed_template feed = default_template ->
  compose config feed entry
  = Ok (mkstatus (slice_to (title entry +++ String newline (link entry))
                           (get (cfg_max_chars config) 500))
                 (cfg_visibility config)).
Proof.
  intros T. unfold compose, format. rewrite T.
  replace (scan (Lit EmptyString) default_template)
    with [Literal EmptyString;
          Markup (mkfield "title" None EmptyString);
          Literal (String newline EmptyString);
          Markup (mkfield "link" None EmptyString);
          Literal EmptyString] by (vm_compute; reflexivity).
  cbn [render].
  replace (render_field render_other (entry_kwargs entry)
                        (mkfield "title" None EmptyString))
    with (Ok (title entry)) by reflexivity.
  replace (render_field render_other (entry_kwargs entry)
                        (mkfield "link" None EmptyString))
    with (Ok (link entry)) by reflexivity.
  cbn [Py.bind String.append]. now rewrite append_nil_r.
Qed.

(** X10. With the template that [setup] writes, the status of any entry is
    its title, a newline and its link, cut at the limit; when the
    configuration sets no limit and the text has at most 500 characters it
    is the whole text. *)
Theorem default_template_status :
  forall (ext : Externals) (config : Config) (feed : Feed) (entry : Entry),
    feed_template feed = default_template ->
    let text := title entry +++ String newline (link entry) in
    compose config feed entry
    = Ok (mkstatus (slice_to text (get (cfg_max_chars config) 500))
                   (cfg_visibility config)) /\
    (cfg_max_chars config = None ->
     (String.length text <= 500)%nat ->
     compose config feed entry = Ok (mkstatus text (cfg_visibility config))).
Proof.
  intros ext config feed entry T text.
  rewrite (compose_default_template config feed entry T). fold text.
  split; [reflexivity | ].
  intros -> L. cbn [get]. unfold slice_to. cbn [Z.leb].
  rewrite take_all; [reflexivity | ].
  change (Z.to_nat 500) with 500%nat. exact L.
Qed.

Lemma default_template_status_witness :
  let config := set_updated (Demo.config_file [] None None) min_utc in
  let feed := mkfeed "A" default_template in
  let entry := Demo.entry "A1" 10 0 in
  feed_template feed = default_template /\
  @compose Demo.world config feed entry
  = Ok (Demo.unlisted ("A1" +++ String newline "http://x/A1")).
Proof.
  intros config feed entry. split; [reflexivity | ].
  apply (proj2 (default_template_status Demo.world config feed entry eq_refl));
    [reflexivity | vm_compute; lia].
Defined.

(** X11. A template that spells a text with its braces doubled, and has
    no placeholder, formats to that text, whatever the entry: text without
    braces is posted as it is. *)
Theorem format_escaped :
  forall (ext : Externals) (text : string) (entry : Entry),
    format render_other (escape_braces text) (entry_kwargs entry) = Ok text /\
    (all_chars (fun c => negb (ch c "{" || ch c "}")) text = true ->
     format render_other text (entry_kwargs entry) = Ok text).
Proof.
  intros ext text entry.
  assert (E : forall t, format render_other (escape_braces t)
                               (entry_kwargs entry) = Ok t).
  { intros t. unfold format. now rewrite render_escaped. }
  split; [apply E | ]. intros P.
  replace text with (escape_braces text) at 1; [apply E | ].
  clear E. induction text as [|c text IH]; [reflexivity | ].
  cbn [all_chars] in P. apply andb_prop in P. destruct P as [C P].
  apply negb_true_iff in C. cbn [escape_braces]. now rewrite C, (IH P).
Qed.

Lemma format_escaped_witness :
  all_chars (fun c => negb (ch c "{" || ch c "}")) "a new post" = true /\
  format (@render_other Demo.world) "a new post"
         (entry_kwargs (Demo.entry "A1" 10 0)) = Ok "a new post"%string /\
  format (@render_other Demo.world) "{{title}}"
         (entry_kwargs (Demo.entry "A1" 10 0)) = Ok "{title}"%string.
Proof.
  split; [reflexivity | ]. split.
  - apply (proj2 (format_escaped Demo.world "a new post"
                                 (Demo.entry "A1" 10 0))).
    reflexivity.
  - exact (proj1 (format_escaped Demo.world "{title}" (Demo.entry "A1" 10 0))).
Defined.

(* ================================================================== *)
(** * The runs of [main]                                                *)
(* ================================================================== *)


(** ** What holds of the events of every run *)

Section TraceInvariant.

Context {ext : Externals}.

Variable args : Args.
Variable config : Config.

(** A property of lists of events that holds of the empty list, of a
    fetch, of what one turn of the inner loop does for the feeds in
    [ok_feed], and that goes through concatenation. *)
Variable P : list Event -> Prop.
Variable ok_feed : Feed -> Prop.
Hypothesis P_nil : P [].
Hypothesis P_app : forall a b, P a -> P b -> P (a ++ b).
Hypothesis P_fetch : forall u, P [EvFetch u].
Hypothesis P_body :
  forall feed entry st st' c,
    ok_feed feed ->
    body args config feed entry st = (st', c) ->
    exists evs, trace st' = trace st ++ evs /\ P evs.

Lemma for_entries_invariant (feed : Feed) (items : list (result Entry)) :
  ok_feed feed ->
  forall st st' r,
    for_entries args config feed items st = (st', r) ->
    exists evs, trace st' = trace st ++ evs /\ P evs.
Proof.
  intros F. induction items as [|item items IH]; intros st st' r H;
    cbn [for_entries] in H.
  - injection H as <- <-. exists []. now rewrite app_nil_r.
  - destruct item as [entry|e].
    + destruct (body args config feed entry st) as [st1 c] eqn:B.
      apply (P_body _ _ _ _ _ F) in B. destruct B as (evs & T & Q).
      destruct c as [ | | e].
      * destruct (IH _ _ _ H) as (evs' & T' & Q').
        exists (evs ++ evs'). rewrite T', T, <- app_assoc. auto.
      * injection H as <- <-. eauto.
      * injection H as <- <-. eauto.
    + injection H as <- <-. exists []. now rewrite app_nil_r.
Qed.

Lemma for_feeds_invariant (feeds : list Feed) :
  Forall ok_feed feeds ->
  forall st st' r,
    for_feeds args config feeds st = (st', r) ->
    exists evs, trace st' = trace st ++ evs /\ P evs.
Proof.
  induction 1 as [|feed feeds F _ IH]; intros st st' r H;
    cbn [for_feeds] in H.
  - injection H as <- <-. exists []. now rewrite app_nil_r.
  - destruct (for_feed args config feed st) as [st1 r1] eqn:E.
    assert (Q1 : exists evs, trace st1 = trace st ++ evs /\ P evs).
    { unfold for_feed in E.
      destruct (get_feed (feed_url feed) (Some (cfg_updated config)))
        as [items|e].
      - apply (for_entries_invariant _ _ F) in E. destruct E as (evs & T & Q).
        cbn in T. rewrite <- app_assoc in T.
        eexists. split; [exact T | ]. apply P_app; [apply P_fetch | exact Q].
      - injection E as <- <-. cbn. eexists. split; [reflexivity | ].
        apply P_fetch. }
    destruct Q1 as (evs & T & Q).
    destruct r1 as [e|].
    + injection H as <- <-. eauto.
    + destruct (IH _ _ _ H) as (evs' & T' & Q').
      exists (evs ++ evs'). rewrite T', T, <- app_assoc. auto.
Qed.

Lemma main_invariant (file : ConfigFile) :
  read_config file = Ok config ->
  Forall ok_feed (cfg_feeds config) ->
  (forall saved, P [EvSave saved]) ->
  P (events (main args file)).
Proof.
  intros RC F S. unfold main. rewrite RC.
  destruct (for_feeds args config (cfg_feeds config)
                      (mkstate false (cfg_updated config) []))
    as [st r] eqn:E.
  apply (for_feeds_invariant _ F) in E. destruct E as (evs & T & Q).
  cbn in T. subst evs.
  destruct r as [e|]; [exact Q | ].
  destruct (dry_run args); [exact Q | ]. cbn [events]. now apply P_app.
Qed.

End TraceInvariant.

(** ** Sleeping after a post *)

(** Every accepted post is followed at once by a sleep, and no sleep
    stands anywhere else. *)
Fixpoint paced (evs : list Event) : bool :=
  match evs with
  | [] => true
  | EvPost _ (Ok _) :: evs' =>
      match evs' with
      | EvSleep :: evs'' => paced evs''
      | _ => false
      end
  | EvSleep :: _ => false
  | _ :: evs' => paced evs'
  end.

Definition is_accepted (ev : Event) : bool :=
  match ev with EvPost _ (Ok _) => true | _ => false end.

Definition is_sleep (ev : Event) : bool :=
  match ev with EvSleep => true | _ => false end.

Lemma paced_eq (ev : Event) (evs : list Event) :
  paced (ev :: evs)
  = match ev with
    | EvPost _ (Ok _) =>
        match evs with
        | EvSleep :: evs' => paced evs'
        | _ => false
        end
    | EvSleep => false
    | _ => paced evs
    end.
Proof. destruct ev as [ | | | s [[]|x] | | ]; reflexivity. Qed.

Lemma paced_app (a b : list Event) :
  paced a = true -> paced b = true -> paced (a ++ b) = true.
Proof.
  intros A B. revert A.
  induction a as [a IH]
    using (well_founded_induction
             (Wf_nat.well_founded_ltof _ (@List.length Event))).
  destruct a as [|ev a]; [intros _; exact B | ].
  cbn [app]. rewrite !paced_eq.
  destruct ev as [ | | | s [[]|x] | | ];
    try (apply IH; unfold Wf_nat.ltof; cbn [List.length]; lia);
    try discriminate.
  destruct a as [|[ | | | | | ] a]; try discriminate. cbn [app].
  apply IH. unfold Wf_nat.ltof. cbn [List.length]. lia.
Qed.

Lemma paced_count (evs : list Event) :
  paced evs = true ->
  List.length (filter is_sleep evs) = List.length (filter is_accepted evs).
Proof.
  induction evs as [evs IH]
    using (well_founded_induction
             (Wf_nat.well_founded_ltof _ (@List.length Event))).
  destruct evs as [|ev evs]; [reflexivity | ]. rewrite paced_eq.
  destruct ev as [ | | | s [[]|x] | | ]; try discriminate;
    try (intros H; cbn [filter is_sleep is_accepted]; apply IH;
         [unfold Wf_nat.ltof; cbn [List.length]; lia | exact H]).
  destruct evs as [|[ | | | | | ] evs]; try discriminate.
  intros H. cbn [filter is_sleep is_accepted List.length]. f_equal.
  apply IH; [unfold Wf_nat.ltof; cbn [List.length]; lia | exact H].
Qed.

(** ** The statuses of a run *)

Section StatusFacts.

Context {ext : Externals}.

Lemma body_paced (args : Args) (config : Config) (feed : Feed) (entry : Entry)
      (st st' : State) (c : Control) :
  body args config feed entry st = (st', c) ->
  exists evs, trace st' = trace st ++ evs /\ paced evs = true.
Proof.
  intros B. apply body_spec in B. destruct c as [ | | e].
  - destruct B as (s & _ & _ & _ & T). eexists. split; [exact T | ].
    now destruct (dry_run args).
  - destruct B as (s & _ & _ & _ & _ & T). eexists. split; [exact T | ].
    reflexivity.
  - destruct B as (_ & [(_ & T) | [(_ & T) | (s & _ & _ & _ & T)]]);
      eexists; (split; [exact T | reflexivity]).
Qed.

(** With a server that accepts every post, no post fails. *)
Definition no_failed_post (ev : Event) : bool :=
  match ev with
  | EvPost _ (Raise _) => false
  | _ => true
  end.

Lemma body_accepted (args : Args) (config : Config) (feed : Feed)
      (entry : Entry) (st st' : State) (c : Control) :
  (forall history s, status_post history s = Ok tt) ->
  body args config feed entry st = (st', c) ->
  exists evs, trace st' = trace st ++ evs /\
              forallb no_failed_post evs = true.
Proof.
  intros A. unfold body, log. cbn [newest_post has_error trace].
  destruct (Datetime.max (newest_post st) (updated entry)) as [m|e0].
  - destruct (compose config feed entry) as [s|e0].
    + destruct (dry_run args).
      * intros H. injection H as <- <-. cbn [trace].
        rewrite <- app_assoc. eexists. split; reflexivity.
      * cbn [newest_post has_error trace]. rewrite A.
        intros H. injection H as <- <-. cbn [trace].
        rewrite <- !app_assoc. eexists. split; reflexivity.
    + intros H. injection H as <- <-. cbn [trace].
      eexists. split; reflexivity.
  - intros H. injection H as <- <-. cbn [trace].
    eexists. split; reflexivity.
Qed.

Lemma no_failed_post_failure (evs : list Event) :
  forallb no_failed_post evs = true -> existsb is_failure evs = false.
Proof.
  induction evs as [|ev evs IH]; cbn [forallb existsb]; [reflexivity | ].
  intros H. apply andb_prop in H. destruct H as [E H]. rewrite (IH H).
  destruct ev as [ | | | s [[]|x] | | ]; try reflexivity. discriminate.
Qed.

Lemma posts_app (t1 t2 : list Event) :
  posts (t1 ++ t2) = posts t1 ++ posts t2.
Proof. apply flat_map_app. Qed.

(** The statuses of a feed whose posts were all attempted. *)
Lemma entries_trace_statuses (config : Config) (feed : Feed)
      (items : list (result Entry)) (evs : list Event) :
  entries_trace false config feed items evs false ->
  items = map Ok (entries_of evs) /\
  mapM (compose config feed) (entries_of evs) = Ok (map fst (posts evs)).
Proof.
  intros R. split.
  - destruct (entries_trace_prefix _ _ _ _ _ _ R) as (rest & E & N).
    now rewrite (N eq_refl), app_nil_r in E.
  - apply entries_trace_posts in R. apply mapM_Forall2.
    induction R as [|e p es ps H _ IH]; cbn [map]; now constructor.
Qed.

Lemma feeds_trace_live_statuses (config : Config) (feeds : list Feed)
      (evs : list Event) (failed : bool) :
  feeds_trace false config feeds evs failed ->
  failed = false ->
  exists per_feed,
    mapM (statuses_of config) feeds = Ok per_feed /\
    List.concat per_feed = map fst (posts evs).
Proof.
  induction 1 as [ | feed feeds items evs failed evs' failed' G R _ IH];
    intros N.
  - exists []. split; reflexivity.
  - apply orb_false_elim in N. destruct N as [-> ->].
    destruct (IH eq_refl) as (per & M & C).
    destruct (entries_trace_statuses _ _ _ _ R) as [EI CO].
    exists (map fst (posts evs) :: per). split.
    + cbn [mapM]. unfold statuses_of at 1, fetch.
      rewrite G. cbn [Py.bind]. rewrite EI, mapM_id_Ok. cbn [Py.bind].
      rewrite CO. cbn [Py.bind]. now rewrite M.
    + cbn [List.concat]. rewrite C.
      change (EvFetch (feed_url feed) :: evs ++ evs')
        with ([EvFetch (feed_url feed)] ++ evs ++ evs').
      rewrite !posts_app, !map_app. reflexivity.
Qed.

Lemma statuses_no_exception (args : Args) (config : Config)
      (per_feed : list (list Status)) :
  mapM (statuses_of config) (cfg_feeds config) = Ok per_feed ->
  (forall history s, status_post history s = Ok tt) ->
  no_exception args config.
Proof.
  intros M A. split; [ | intros _ history s; left; apply A].
  apply mapM_Forall2 in M. intros feed I.
  clear A. induction M as [|f ss feeds per H _ IH]; [destruct I | ].
  destruct I as [<- | I]; [ | now apply IH].
  unfold statuses_of in H. bind_inv H. exists a. split; [exact E | ].
  apply mapM_Forall2 in H. clear - H.
  induction H as [|e s es ss C _ IH]; constructor; [now rewrite C | exact IH].
Qed.

(** The loop over the feeds, feed by feed. *)
Lemma for_feeds_app (args : Args) (config : Config) (done rest : list Feed) :
  forall st,
    for_feeds args config (done ++ rest) st
    = match for_feeds args config done st with
      | (st1, None) => for_feeds args config rest st1
      | stopped => stopped
      end.
Proof.
  induction done as [|feed done IH]; intros st; cbn [app for_feeds];
    [reflexivity | ].
  destruct (for_feed args config feed st) as [st1 [e|]]; [reflexivity | ].
  apply IH.
Qed.

Lemma for_feeds_nothing_new (args : Args) (config : Config)
      (feeds : list Feed) :
  (forall feed, In feed feeds ->
                fetch (feed_url feed) (Some (cfg_updated config)) = Ok []) ->
  forall st,
    for_feeds args config feeds st
    = (mkstate (has_error st) (newest_post st)
               (trace st ++ map EvFetch (map feed_url feeds)), None).
Proof.
  induction feeds as [|feed feeds IH]; intros F st; cbn [for_feeds map].
  - rewrite app_nil_r. now destruct st.
  - assert (G : get_feed (feed_url feed) (Some (cfg_updated config)) = Ok []).
    { specialize (F feed (or_introl eq_refl)). unfold fetch in F.
      bind_inv F. apply mapM_id_inv in F. now subst a. }
    unfold for_feed. rewrite G. cbn [for_entries].
    rewrite IH by (intros f I; apply F; now right).
    unfold log. cbn [has_error newest_post trace].
    now rewrite <- app_assoc.
Qed.

End StatusFacts.

(** X12. In every run, however it ends, each accepted post is followed at
    once by one sleep, and there is no other sleep: no sleep after a refused
    post, none in a dry run, and as many sleeps as accepted posts. *)
Theorem sleep_after_each_post :
  forall (ext : Externals) (args : Args) (file : ConfigFile),
    paced (events (main args file)) = true /\
    List.length (filter is_sleep (events (main args file)))
    = List.length (filter is_accepted (events (main args file))).
Proof.
  intros ext args file.
  assert (P : paced (events (main args file)) = true).
  { destruct (read_config file) as [config|e] eqn:RC.
    - apply (main_invariant args config (fun evs => paced evs = true)
                            (fun _ => True)); auto.
      + apply paced_app.
      + intros feed entry st st' c _. apply body_paced.
      + rewrite Forall_forall. auto.
    - unfold main. now rewrite RC. }
  split; [exact P | now apply paced_count].
Qed.

(** ** Where the statuses come from *)

(** The statuses a run shows, printed or posted. *)
Definition shown (evs : list Event) : list Status :=
  flat_map (fun ev => match ev with
                      | EvPost s _ | EvPprint s => [s]
                      | _ => []
                      end) evs.

Lemma shown_app (t1 t2 : list Event) : shown (t1 ++ t2) = shown t1 ++ shown t2.
Proof. apply flat_map_app. Qed.

Lemma In_shown (s : Status) (evs : list Event) :
  In s (map fst (posts evs)) \/ In s (pprints evs) -> In s (shown evs).
Proof.
  unfold posts, pprints, shown.
  induction evs as [|ev evs IH]; cbn [flat_map map]; [tauto | ].
  rewrite map_app, !in_app_iff.
  intros [[H | H] | [H | H]]; try (right; apply IH; tauto);
    left; destruct ev; cbn in H |- *; tauto.
Qed.

Section Yielded.

Context {ext : Externals}.

(** A status composed, with the template of [feed], for one of the entries
    in [seen] that is among [items]. *)
Definition composed_for (config : Config) (feed : Feed)
           (items : list (result Entry)) (seen : list Entry) (s : Status)
  : Prop :=
  exists entry,
    In (Ok entry) items /\ In entry seen /\ compose config feed entry = Ok s.

(** An entry that the fetch of one of the feeds yields; and a status
    composed for such an entry among those in [seen]. *)
Definition yielded (config : Config) (feeds : list Feed) (e : Entry) : Prop :=
  exists feed items,
    In feed feeds /\
    get_feed (feed_url feed) (Some (cfg_updated config)) = Ok items /\
    In (Ok e) items.

Definition composed_of (config : Config) (feeds : list Feed)
           (seen : list Entry) (s : Status) : Prop :=
  exists feed items,
    In feed feeds /\
    get_feed (feed_url feed) (Some (cfg_updated config)) = Ok items /\
    composed_for config feed items seen s.

Lemma composed_for_incl (config : Config) (feed : Feed)
      (items items' : list (result Entry)) (seen seen' : list Entry)
      (s : Status) :
  incl items items' -> incl seen seen' ->
  composed_for config feed items seen s ->
  composed_for config feed items' seen' s.
Proof.
  intros I S (e & Ie & Is & C). exists e.
  split; [now apply I | split; [now apply S | exact C]].
Qed.

Lemma yielded_incl (config : Config) (feeds feeds' : list Feed) (e : Entry) :
  incl feeds feeds' -> yielded config feeds e -> yielded config feeds' e.
Proof.
  intros F (f & items & I & G & Ie). exists f, items.
  split; [now apply F | now split].
Qed.

Lemma composed_of_incl (config : Config) (feeds feeds' : list Feed)
      (seen seen' : list Entry) (s : Status) :
  incl feeds feeds' -> incl seen seen' ->
  composed_of config feeds seen s -> composed_of config feeds' seen' s.
Proof.
  intros F S (f & items & I & G & C). exists f, items.
  split; [now apply F | split; [exact G | ]].
  eapply composed_for_incl; [apply incl_refl | exact S | exact C].
Qed.

Lemma entries_trace_yielded (dry : bool) (config : Config) (feed : Feed)
      (items : list (result Entry)) (evs : list Event) (failed : bool) :
  entries_trace dry config feed items evs failed ->
  Forall (fun e => In (Ok e) items) (entries_of evs) /\
  Forall (composed_for config feed items (entries_of evs)) (shown evs).
Proof.
  intros R.
  assert (E : Forall (fun e => In (Ok e) items) (entries_of evs)).
  { destruct (entries_trace_prefix _ _ _ _ _ _ R) as (rest & -> & _).
    rewrite Forall_forall. intros e I. apply in_or_app. left.
    now apply in_map. }
  split; [exact E | ]. clear E.
  unfold entries_of, shown.
  induction R as [ | entry items s evs failed D C R IH
                   | entry items s evs failed D C R IH
                   | entry items s D C ]; cbn [flat_map app].
  - constructor.
  - constructor.
    + exists entry. repeat split; try (now left). exact C.
    + eapply Forall_impl; [ | exact IH]. intros s'.
      apply composed_for_incl; apply incl_tl, incl_refl.
  - constructor.
    + exists entry. repeat split; try (now left). exact C.
    + eapply Forall_impl; [ | exact IH]. intros s'.
      apply composed_for_incl; apply incl_tl, incl_refl.
  - repeat constructor. exists entry. repeat split; try (now left). exact C.
Qed.

Lemma feeds_trace_yielded (dry : bool) (config : Config) (feeds : list Feed)
      (evs : list Event) (failed : bool) :
  feeds_trace dry config feeds evs failed ->
  Forall (yielded config feeds) (entries_of evs) /\
  Forall (composed_of config feeds (entries_of evs)) (shown evs).
Proof.
  induction 1 as [ | feed feeds items evs failed evs' failed' G R _ [IH1 IH2]].
  - split; constructor.
  - change (EvFetch (feed_url feed) :: evs ++ evs')
      with ([EvFetch (feed_url feed)] ++ evs ++ evs').
    rewrite !entries_of_app, !shown_app. cbn [entries_of shown flat_map app].
    destruct (entries_trace_yielded _ _ _ _ _ _ R) as [E S].
    split; apply Forall_app; split.
    + eapply Forall_impl; [ | exact E]. intros e I.
      exists feed, items. split; [now left | now split].
    + eapply Forall_impl; [ | exact IH1]. intros e.
      apply yielded_incl, incl_tl, incl_refl.
    + eapply Forall_impl; [ | exact S]. intros s C.
      exists feed, items. split; [now left | split; [exact G | ]].
      eapply composed_for_incl; [apply incl_refl | | exact C].
      apply incl_appl, incl_refl.
    + eapply Forall_impl; [ | exact IH2]. intros s.
      apply composed_of_incl; [apply incl_tl, incl_refl | ].
      apply incl_appr, incl_refl.
Qed.

Lemma entries_raise_yielded (dry : bool) (config : Config) (feed : Feed)
      (items : list (result Entry)) (evs : list Event) (x : exn) :
  entries_raise dry config feed items evs x ->
  Forall (fun e => In (Ok e) items) (entries_of evs) /\
  Forall (composed_for config feed items (entries_of evs)) (shown evs).
Proof.
  intros (done & rest & evs0 & last & -> & R & L & ->).
  rewrite entries_of_app, shown_app.
  destruct (entries_trace_yielded _ _ _ _ _ _ R) as [E S].
  split; apply Forall_app; split.
  - eapply Forall_impl; [ | exact E]. intros e I.
    apply in_or_app. now left.
  - destruct L; repeat constructor; apply in_or_app; right; now left.
  - eapply Forall_impl; [ | exact S]. intros s.
    apply composed_for_incl; apply incl_appl, incl_refl.
  - destruct L as [ | | entry rest s x D C N]; repeat constructor.
    exists entry. split; [apply in_or_app; right; now left | ].
    split; [apply in_or_app; right; now left | exact C].
Qed.

Lemma feeds_raise_yielded (dry : bool) (config : Config) (feeds : list Feed)
      (evs : list Event) (x : exn) :
  feeds_raise dry config feeds evs x ->
  Forall (yielded config feeds) (entries_of evs) /\
  Forall (composed_of config feeds (entries_of evs)) (shown evs).
Proof.
  intros (done & feed & rest & evs0 & failed & evs1 & -> & R & -> & L).
  change (evs0 ++ EvFetch (feed_url feed) :: evs1)
    with (evs0 ++ [EvFetch (feed_url feed)] ++ evs1).
  rewrite !entries_of_app, !shown_app. cbn [entries_of shown flat_map app].
  destruct (feeds_trace_yielded _ _ _ _ _ R) as [E S].
  assert (I : In feed (done ++ feed :: rest))
    by (apply in_or_app; right; now left).
  assert (A : Forall (yielded config (done ++ feed :: rest)) (entries_of evs0)).
  { eapply Forall_impl; [ | exact E]. intros e.
    apply yielded_incl, incl_appl, incl_refl. }
  assert (B : Forall (composed_of config (done ++ feed :: rest)
                                  (entries_of evs0 ++ entries_of evs1))
                     (shown evs0)).
  { eapply Forall_impl; [ | exact S]. intros s.
    apply composed_of_incl; apply incl_appl, incl_refl. }
  destruct (get_feed (feed_url feed) (Some (cfg_updated config)))
    as [items|e] eqn:G.
  - destruct (entries_raise_yielded _ _ _ _ _ _ L) as [E1 S1].
    split; apply Forall_app; split; try assumption.
    + eapply Forall_impl; [ | exact E1]. intros e Ie.
      exists feed, items. now repeat split.
    + eapply Forall_impl; [ | exact S1]. intros s C.
      exists feed, items. split; [exact I | split; [exact G | ]].
      eapply composed_for_incl; [apply incl_refl | | exact C].
      apply incl_appr, incl_refl.
  - destruct L as [_ ->]. split; apply Forall_app; split;
      try assumption; constructor.
Qed.

(** In every run, however it ends. *)
Lemma main_yielded (args : Args) (file : ConfigFile) (config : Config) :
  read_config file = Ok config ->
  Forall (yielded config (cfg_feeds config))
         (entries_of (events (main args file))) /\
  Forall (composed_of config (cfg_feeds config)
                      (entries_of (events (main args file))))
         (shown (events (main args file))).
Proof.
  intros RC. destruct (outcome (main args file)) as [code|x] eqn:O.
  - apply main_Exit in O.
    destruct O as (config' & evs & failed & RC' & R & _ & Ev).
    rewrite RC in RC'. injection RC' as <-.
    pose proof (feeds_trace_yielded _ _ _ _ _ R) as [E S].
    destruct (dry_run args); destruct Ev as [-> _]; [now split | ].
    rewrite entries_of_app, shown_app. cbn. now rewrite !app_nil_r.
  - apply main_Crash_trace in O.
    destruct O as [_ [[RC' _] | (config' & RC' & R)]]; [congruence | ].
    rewrite RC in RC'. injection RC' as <-.
    exact (feeds_raise_yielded _ _ _ _ _ R).
Qed.

Lemma yielded_is_newer (config : Config) (feeds : list Feed) (e : Entry) :
  yielded config feeds e -> dt_lt (cfg_updated config) (updated e).
Proof.
  intros (feed & items & _ & G & I). exact (proj1 (yielded_newer _ _ _ e G I)).
Qed.

End Yielded.

(** X13. Every status that a run posts or prints, however the run ends, was
    composed, with the template of its feed, for an entry the run went
    through, one that the fetch of a configured feed yielded; it carries
    the visibility of the configuration and, when the limit is not
    negative, is no longer than the limit. *)
Theorem statuses_composed :
  forall (ext : Externals) (args : Args) (file : ConfigFile) (config : Config),
    read_config file = Ok config ->
    forall s,
      (In s (map fst (posts (events (main args file)))) \/
       In s (pprints (events (main args file)))) ->
      (exists feed items entry,
          In feed (cfg_feeds config) /\
          get_feed (feed_url feed) (Some (cfg_updated config)) = Ok items /\
          In (Ok entry) items /\
          In entry (entries_of (events (main args file))) /\
          compose config feed entry = Ok s) /\
      visibility s = cfg_visibility config /\
      (0 <= get (cfg_max_chars config) 500 ->
       Z.of_nat (String.length (status s)) <= get (cfg_max_chars config) 500).
Proof.
  intros ext args file config RC s I. apply In_shown in I.
  destruct (main_yielded args file config RC) as [_ S].
  rewrite Forall_forall in S.
  destruct (S s I) as (feed & items & I' & G & entry & Ie & Is & C).
  split; [now exists feed, items, entry | ].
  apply compose_Ok in C. destruct C as (text & _ & ->).
  cbn [visibility status]. split; [reflexivity | ].
  intros L. unfold slice_to.
  apply Z.leb_le in L. rewrite L. apply Z.leb_le in L.
  pose proof (take_length (Z.to_nat (get (cfg_max_chars config) 500)) text).
  lia.
Qed.

Lemma statuses_composed_witness :
  let run := @main Demo.world Demo.live Demo.two_feeds in
  let config := set_updated Demo.two_feeds min_utc in
  @read_config Demo.world Demo.two_feeds = Ok config /\
  In (Demo.unlisted "B2") (map fst (posts (events run))) /\
  (exists feed items entry,
      In feed (cfg_feeds config) /\
      @get_feed Demo.world (feed_url feed) (Some (cfg_updated config))
      = Ok items /\
      In (Ok entry) items /\
      In entry (entries_of (events run)) /\
      @compose Demo.world config feed entry = Ok (Demo.unlisted "B2")) /\
  visibility (Demo.unlisted "B2") = cfg_visibility config /\
  (0 <= get (cfg_max_chars config) 500 ->
   Z.of_nat (String.length (status (Demo.unlisted "B2")))
   <= get (cfg_max_chars config) 500).
Proof.
  intros run config.
  assert (I : In (Demo.unlisted "B2") (map fst (posts (events run))))
    by (vm_compute; tauto).
  split; [reflexivity | ]. split; [exact I | ].
  apply (statuses_composed Demo.world Demo.live Demo.two_feeds config eq_refl).
  left. exact I.
Defined.

(** X14. A dry run shows what the live run would post: when the server
    accepts every post and the dry run reaches its end, the live run of the
    same configuration reaches its end with exit code 0, and the statuses
    it posts are those the dry run prints, in the same order. *)
Theorem dry_run_previews_live_run :
  forall (ext : Externals) (verbose1 verbose2 : bool) (file : ConfigFile)
         (code : Z),
    (forall history s, status_post history s = Ok tt) ->
    outcome (main (mkargs true verbose1) file) = Exit code ->
    outcome (main (mkargs false verbose2) file) = Exit 0 /\
    map fst (posts (events (main (mkargs false verbose2) file)))
    = pprints (events (main (mkargs true verbose1) file)) /\
    Forall (fun p => snd p = Ok tt)
           (posts (events (main (mkargs false verbose2) file))).
Proof.
  intros ext v1 v2 file code A D.
  apply main_Exit in D. cbn [dry_run] in D.
  destruct D as (config & evs & failed & RC & R & _ & Ev & _).
  destruct (feeds_trace_statuses _ _ _ _ R) as (per & M & C).
  rewrite Ev, <- C.
  pose proof (statuses_no_exception (mkargs false v2) config per M A) as NE.
  destruct (main_completes _ file config RC NE) as [code' L].
  assert (Q : forallb no_failed_post (events (main (mkargs false v2) file))
              = true).
  { apply (main_invariant (mkargs false v2) config
                          (fun evs => forallb no_failed_post evs = true)
                          (fun _ => True)); auto.
    - intros a b Ha Hb. now rewrite forallb_app, Ha, Hb.
    - intros feed entry st st' c _. now apply body_accepted.
    - rewrite Forall_forall. auto. }
  pose proof (main_Exit _ _ _ L) as L'. cbn [dry_run] in L'.
  destruct L' as (config' & evs' & failed' & RC' & R' & Cd & Ev' & _).
  rewrite RC in RC'. injection RC' as <-.
  rewrite Ev' in Q |- *. rewrite forallb_app in Q. apply andb_prop in Q.
  destruct Q as [Q _].
  pose proof (feeds_trace_failed _ _ _ _ _ R') as Fl.
  rewrite (no_failed_post_failure _ Q) in Fl. subst failed'.
  destruct (feeds_trace_live_statuses _ _ _ _ R' eq_refl) as (per' & M' & C').
  rewrite M in M'. injection M' as <-.
  split; [ | split].
  - rewrite L, Cd. reflexivity.
  - rewrite posts_app, map_app, app_nil_r. symmetry. exact C'.
  - rewrite posts_app, app_nil_r. clear - Q.
    induction evs' as [|ev evs IH]; [constructor | ].
    cbn [forallb] in Q. apply andb_prop in Q. destruct Q as [E Q].
    unfold posts in *. cbn [flat_map].
    destruct ev as [ | | | s [[]|x] | | ]; cbn [app]; try (now apply IH).
    + constructor; [reflexivity | now apply IH].
    + discriminate.
Qed.


Lemma dry_run_previews_live_run_witness :
  let dry := @main Accepting.world Demo.dry Demo.two_feeds in
  let live := @main Accepting.world Demo.live Demo.two_feeds in
  (forall history s, @status_post Accepting.world history s = Ok tt) /\
  outcome dry = Exit 0 /\
  pprints (events dry)
  = [Demo.unlisted "A1"; Demo.unlisted "A2";
     Demo.unlisted "B1"; Demo.unlisted "B2"] /\
  outcome live = Exit 0 /\
  map fst (posts (events live)) = pprints (events dry) /\
  Forall (fun p => snd p = Ok tt) (posts (events live)).
Proof.
  intros dry live.
  assert (D : outcome dry = Exit 0) by (vm_compute; reflexivity).
  split; [reflexivity | ]. split; [exact D | ].
  split; [vm_compute; reflexivity | ].
  exact (dry_run_previews_live_run Accepting.world false false Demo.two_feeds 0
                                   (fun _ _ => eq_refl) D).
Defined.

(** ** From one run to the next *)

Section RunAgain.

Context {ext : Externals}.

Lemma set_updated_same (config : Config) :
  set_updated config (cfg_updated config) = config.
Proof. now destruct config. Qed.

Lemma body_no_fetch (args : Args) (config : Config) (feed : Feed)
      (entry : Entry) (st st' : State) (c : Control) :
  body args config feed entry st = (st', c) ->
  exists evs, trace st' = trace st ++ evs /\ fetches evs = [].
Proof.
  intros B. apply body_spec in B. destruct c as [ | | e].
  - destruct B as (s & _ & _ & _ & T). eexists. split; [exact T | ].
    now destruct (dry_run args).
  - destruct B as (s & _ & _ & _ & _ & T). eexists. split; [exact T | ].
    reflexivity.
  - destruct B as (_ & [(_ & T) | [(_ & T) | (s & _ & _ & _ & T)]]);
      eexists; (split; [exact T | reflexivity]).
Qed.

Lemma fetches_app (t1 t2 : list Event) :
  fetches (t1 ++ t2) = fetches t1 ++ fetches t2.
Proof. apply flat_map_app. Qed.

Lemma for_feed_fetches (args : Args) (config : Config) (feed : Feed)
      (st st' : State) (r : option exn) :
  for_feed args config feed st = (st', r) ->
  fetches (trace st') = fetches (trace st) ++ [feed_url feed].
Proof.
  unfold for_feed.
  destruct (get_feed (feed_url feed) (Some (cfg_updated config)))
    as [items|e].
  - intros H.
    apply (for_entries_invariant args config (fun evs => fetches evs = [])
             (fun _ => True)) in H; auto.
    + destruct H as (evs & -> & Q). cbn [log trace].
      now rewrite !fetches_app, Q, app_nil_r.
    + intros a b Ha Hb. now rewrite fetches_app, Ha, Hb.
    + intros f e s s' c _. apply body_no_fetch.
  - intros H. injection H as <- <-. cbn [log trace].
    now rewrite fetches_app.
Qed.

End RunAgain.

(** X15. From one run to the next.  After a live run that reached its end,
    the next run reads the watermark the first one persisted and, whatever
    the feeds and the server are by then and however it ends, goes only
    through entries whose [updated] is strictly after that watermark, while
    the first run went only through entries whose [updated] is not: every
    entry of the second run is strictly newer than every entry of the
    first.  Entries are told apart by [updated] alone: an item to which the
    feed gives a later date is gone through again.  When the second run is
    live and reaches its end, the watermark it persists is not before the
    first; otherwise it leaves the file as it found it. *)
Theorem next_run_only_newer :
  forall (ext1 ext2 : Externals) (args1 args2 : Args) (file : ConfigFile)
         (code1 : Z),
    parses_valid ext1 ->
    reads_iso_8601 ext2 ->
    dry_run args1 = false ->
    outcome (@main ext1 args1 file) = Exit code1 ->
    let run1 := @main ext1 args1 file in
    let run2 := @main ext2 args2 (file_after run1) in
    exists (config : Config) (w : datetime),
      @read_config ext1 file = Ok config /\
      cfg_updated (file_after run1) = Some (isoformat w) /\
      @read_config ext2 (file_after run1) = Ok (set_updated config w) /\
      dt_le (cfg_updated config) w /\
      Forall (fun e => dt_le (updated e) w) (entries_of (events run1)) /\
      Forall (fun e => dt_lt w (updated e)) (entries_of (events run2)) /\
      (forall e1 e2,
          In e1 (entries_of (events run1)) ->
          In e2 (entries_of (events run2)) ->
          dt_lt (updated e1) (updated e2)) /\
      (forall code2,
          dry_run args2 = false ->
          outcome run2 = Exit code2 ->
          exists w', cfg_updated (file_after run2) = Some (isoformat w') /\
                     dt_le w w') /\
      (dry_run args2 = true \/ (exists x, outcome run2 = Crash x) ->
       file_after run2 = file_after run1).
Proof.
  intros ext1 ext2 args1 args2 file code1 PV RI D H1 run1 run2.
  apply main_Exit in H1. rewrite D in H1.
  destruct H1 as (config1 & evs1 & failed1 & RC1 & R1 & _ & Ev1 & FA1).
  set (w := newest (cfg_updated config1) (entries_of evs1)) in *.
  assert (V : valid_datetime w).
  { apply newest_valid.
    - exact (@read_config_valid ext1 file config1 PV RC1).
    - exact (@feeds_trace_valid ext1 _ _ _ _ _ PV R1). }
  pose proof (@read_saved ext2 config1 w RI V) as RS.
  assert (E1 : entries_of (events run1) = entries_of evs1).
  { unfold run1. rewrite Ev1, entries_of_app. cbn. apply app_nil_r. }
  destruct (newest_upper (cfg_updated config1) (entries_of evs1)) as [U0 U].
  fold w in U0, U. fold run1 in FA1.
  assert (N : Forall (fun e => dt_lt w (updated e)) (entries_of (events run2))).
  { unfold run2. rewrite FA1.
    destruct (@main_yielded ext2 args2 _ _ RS) as [Y _].
    eapply Forall_impl; [ | exact Y]. intros e Ye.
    exact (@yielded_is_newer ext2 _ _ _ Ye). }
  exists config1, w. rewrite E1.
  split; [exact RC1 | ]. split; [now rewrite FA1 | ].
  split; [now rewrite FA1 | ]. split; [exact U0 | ]. split; [exact U | ].
  split; [exact N | ]. split; [ | split].
  - intros e1 e2 I1 I2. rewrite Forall_forall in U, N.
    specialize (U e1 I1). specialize (N e2 I2).
    unfold dt_le, dt_lt in *. lia.
  - intros code2 D2 H2. apply main_Exit in H2.
    fold run1 in H2. rewrite FA1, RS, D2 in H2.
    destruct H2 as (config2 & evs2 & failed2 & RC2 & R2 & _ & _ & FA2).
    injection RC2 as <-.
    exists (newest w (entries_of evs2)). split.
    + unfold run2. rewrite FA1, FA2. reflexivity.
    + apply newest_upper.
  - intros [D2 | [x H2]].
    + apply (@main_dry ext2 args2 (file_after run1) D2).
    + apply (@main_Crash ext2 args2 (file_after run1) x H2).
Qed.

(** The post of A1 is refused and the run stops there; the next run, with
    a server that accepts, goes through A2 only. *)
Lemma next_run_only_newer_witness :
  let file := Demo.config_file [mkfeed "A" "{title}"] None None in
  let run1 := @main Demo.world Demo.live file in
  let run2 := @main Accepting.world Demo.live (file_after run1) in
  outcome run1 = Exit 1 /\
  entries_of (events run1) = [Demo.entry "A1" 10 0] /\
  entries_of (events run2) = [Demo.entry "A2" 10 5] /\
  exists (config : Config) (w : datetime),
    @read_config Demo.world file = Ok config /\
    cfg_updated (file_after run1) = Some (isoformat w) /\
    @read_config Accepting.world (file_after run1)
    = Ok (set_updated config w) /\
    dt_le (cfg_updated config) w /\
    Forall (fun e => dt_le (updated e) w) (entries_of (events run1)) /\
    Forall (fun e => dt_lt w (updated e)) (entries_of (events run2)) /\
    (forall e1 e2,
        In e1 (entries_of (events run1)) ->
        In e2 (entries_of (events run2)) ->
        dt_lt (updated e1) (updated e2)) /\
    (forall code2,
        dry_run Demo.live = false ->
        outcome run2 = Exit code2 ->
        exists w', cfg_updated (file_after run2) = Some (isoformat w') /\
                   dt_le w w') /\
    (dry_run Demo.live = true \/ (exists x, outcome run2 = Crash x) ->
     file_after run2 = file_after run1).
Proof.
  intros file run1 run2.
  assert (H1 : outcome run1 = Exit 1) by (vm_compute; reflexivity).
  split; [exact H1 | ].
  split; [vm_compute; reflexivity | ]. split; [vm_compute; reflexivity | ].
  exact (next_run_only_newer Demo.world Accepting.world Demo.live Demo.live
           file 1 demo_parses_valid demo_reads_iso_8601 eq_refl H1).
Defined.

(** X16. A live run that finds nothing new in any feed fetches every feed,
    posts nothing, writes the watermark back as it read it and exits with
    code 0; a configuration without [updated] so gets the earliest
    timestamp there is.  Run again on the file it wrote, it does the
    same. *)
Theorem nothing_new_run :
  forall (ext : Externals) (args : Args) (file : ConfigFile) (config : Config),
    read_config file = Ok config ->
    dry_run args = false ->
    (forall feed, In feed (cfg_feeds config) ->
                  fetch (feed_url feed) (Some (cfg_updated config)) = Ok []) ->
    let saved := save_config config (cfg_updated config) in
    main args file
    = mkrun (map EvFetch (map feed_url (cfg_feeds config)) ++ [EvSave saved])
            saved (Exit 0) /\
    (cfg_updated file = None ->
     cfg_updated saved = Some "0001-01-01T00:00:00+00:00"%string) /\
    (reads_iso_8601 ext -> valid_datetime (cfg_updated config) ->
     main args saved = main args file).
Proof.
  intros ext args file config RC D F saved.
  assert (M : forall f, read_config f = Ok config ->
                        main args f
                        = mkrun (map EvFetch (map feed_url (cfg_feeds config))
                                 ++ [EvSave saved]) saved (Exit 0)).
  { intros f RCf. unfold main. rewrite RCf.
    rewrite (for_feeds_nothing_new args config (cfg_feeds config) F).
    cbn [has_error newest_post trace app]. now rewrite D. }
  split; [now apply M | ]. split.
  - intros N. unfold read_config in RC. rewrite N in RC. injection RC as <-.
    reflexivity.
  - intros RI V. rewrite (M file RC). apply M.
    unfold saved. rewrite (read_saved config _ RI V).
    now rewrite set_updated_same.
Qed.

Lemma nothing_new_run_witness :
  let file := Demo.config_file [mkfeed "A" "{title}"] None
                               (Some "2024-01-01T10:05:00+00:00"%string) in
  let config := set_updated file (Demo.at_time 10 5) in
  @read_config Demo.world file = Ok config /\
  dry_run Demo.live = false /\
  @main Demo.world Demo.live file
  = mkrun [EvFetch "A"; EvSave file] file (Exit 0).
Proof.
  intros file config. split; [reflexivity | ]. split; [reflexivity | ].
  refine (proj1 (nothing_new_run Demo.world Demo.live file config
                                 eq_refl eq_refl _)).
  intros feed [<- | []]. vm_compute. reflexivity.
Defined.

(** X17. An exception that [main] does not catch ends the whole run, not
    only the feed it comes from: when the feeds before went through and
    the loop over one feed ends on an exception (the feed cannot be
    fetched, an entry cannot be built, compared or composed, or the server
    fails otherwise than by [MastodonError]), no later feed is fetched and
    the configuration file stays as it was, whatever was posted before. *)
Theorem exception_ends_run :
  forall (ext : Externals) (args : Args) (file : ConfigFile) (config : Config)
         (done rest : list Feed) (feed : Feed) (st st' : State) (x : exn),
    read_config file = Ok config ->
    cfg_feeds config = done ++ feed :: rest ->
    for_feeds args config done (mkstate false (cfg_updated config) [])
    = (st, None) ->
    for_feed args config feed st = (st', Some x) ->
    main args file = mkrun (trace st') file (Crash x) /\
    fetches (events (main args file)) = map feed_url done ++ [feed_url feed] /\
    saves (events (main args file)) = [] /\
    exists evs, trace st' = trace st ++ EvFetch (feed_url feed) :: evs.
Proof.
  intros ext args file config done rest feed st st' x RC FS Fd Ff.
  assert (M : main args file = mkrun (trace st') file (Crash x)).
  { unfold main. rewrite RC, FS, for_feeds_app, Fd.
    cbn [for_feeds]. now rewrite Ff. }
  split; [exact M | ]. split; [ | split].
  - rewrite M. cbn [events]. rewrite (for_feed_fetches _ _ _ _ _ _ Ff).
    apply for_feeds_None in Fd. destruct Fd as (evs & failed & R & T & _).
    cbn in T. subst evs.
    now rewrite (proj1 (feeds_trace_fetches _ _ _ _ _ R)).
  - apply (main_Crash args file x). now rewrite M.
  - unfold for_feed in Ff.
    destruct (get_feed (feed_url feed) (Some (cfg_updated config)))
      as [items|e].
    + apply for_entries_quiet in Ff. destruct Ff as (evs & T & _).
      cbn [log trace] in T. rewrite <- app_assoc in T. now exists evs.
    + injection Ff as <- _. now exists [].
Qed.

Lemma exception_ends_run_witness :
  @main Broken.world Demo.live Broken.three_feeds
  = mkrun [EvFetch "B";
           EvEntry (Demo.entry "B1" 10 20);
           EvPost (Demo.unlisted "B1") (Ok tt); EvSleep;
           EvEntry (Demo.entry "B2" 10 30);
           EvPost (Demo.unlisted "B2") (Ok tt); EvSleep;
           EvFetch "N"]
          Broken.three_feeds (Crash TypeError).
Proof.
  refine (proj1 (exception_ends_run Broken.world Demo.live Broken.three_feeds
                   (set_updated Broken.three_feeds min_utc)
                   [mkfeed "B" "{title}"] [mkfeed "A" "{title}"]
                   (mkfeed "N" "{title}")
                   (mkstate false (Demo.at_time 10 30)
                            [EvFetch "B";
                             EvEntry (Demo.entry "B1" 10 20);
                             EvPost (Demo.unlisted "B1") (Ok tt); EvSleep;
                             EvEntry (Demo.entry "B2" 10 30);
                             EvPost (Demo.unlisted "B2") (Ok tt); EvSleep])
                   (mkstate false (Demo.at_time 10 30)
                            [EvFetch "B";
                             EvEntry (Demo.entry "B1" 10 20);
                             EvPost (Demo.unlisted "B1") (Ok tt); EvSleep;
                             EvEntry (Demo.entry "B2" 10 30);
                             EvPost (Demo.unlisted "B2") (Ok tt); EvSleep;
                             EvFetch "N"])
                   TypeError eq_refl eq_refl _ _));
    vm_compute; reflexivity.
Defined.

Lemma read_config_Ok {ext : Externals} (file : ConfigFile) (config : Config) :
  read_config file = Ok config -> exists d, config = set_updated file d.
Proof.
  unfold read_config. destruct (cfg_updated file) as [text|].
  - intros H. bind_inv H. injection H as <-. eauto.
  - intros H. injection H as <-. eauto.
Qed.

(** X18. No run touches a key of the configuration other than [updated]:
    the file is left as it was, or holds the same dict with a new value
    under [updated], an ISO-8601 string. *)
Theorem run_keeps_configuration :
  forall (ext : Externals) (args : Args) (file : ConfigFile),
    let after := file_after (main args file) in
    (after = file \/
     exists w, after = set_updated file (Some (isoformat w))) /\
    cfg_url after = cfg_url file /\
    cfg_access_token after = cfg_access_token file /\
    cfg_feeds after = cfg_feeds file /\
    cfg_max_chars after = cfg_max_chars file /\
    cfg_visibility after = cfg_visibility file /\
    cfg_other after = cfg_other file.
Proof.
  intros ext args file after.
  assert (H : after = file \/
              exists w, after = set_updated file (Some (isoformat w))).
  { unfold after, main.
    destruct (read_config file) as [config|e] eqn:RC; [ | now left].
    destruct (for_feeds args config (cfg_feeds config)
                        (mkstate false (cfg_updated config) []))
      as [st [e|]]; [now left | ].
    destruct (dry_run args); [now left | ]. right.
    apply read_config_Ok in RC. destruct RC as [d ->].
    exists (newest_post st). reflexivity. }
  split; [exact H | ].
  destruct H as [-> | [w ->]]; repeat split; reflexivity.
Qed.

(* ================================================================== *)
(** * [yes_no] and [setup]                                              *)
(* ================================================================== *)

(** [c.lower()], for the code points below 256: the ASCII capitals and the
    Latin-1 capitals (the multiplication sign is none) go 32 up. *)
Definition lower_char (c : ascii) : ascii :=
  let n := nat_of_ascii c in
  if ((65 <=? n) && (n <=? 90)
      || (192 <=? n) && (n <=? 222) && negb (n =? 215))%nat
  then ascii_of_nat (n + 32)
  else c.

(** [s.lower()] *)
Fixpoint lower (s : string) : string :=
  match s with
  | EmptyString => EmptyString
  | String c s' => String (lower_char c) (lower s')
  end.

(** The terminal: the lines the user is still to type, and what the program
    has written so far. *)
Record Console : Type := mkconsole {
  stdin : list string;
  stdout : list string
}.

(** What can end [setup]: the end of the input, or an exception of the
    Mastodon library. *)
Inductive setup_exn : Type :=
| EOFError
| Raised (e : exn).

Inductive answer (A : Type) : Type :=
| Done (a : A)
| Stopped (x : setup_exn).

Arguments Done {A} a.
Arguments Stopped {A} x.

(** A computation at the terminal. *)
Definition io (A : Type) : Type := Console -> answer A * Console.

Definition io_ret {A : Type} (a : A) : io A := fun c => (Done a, c).

Definition io_bind {A B : Type} (m : io A) (k : A -> io B) : io B :=
  fun c =>
    match m c with
    | (Done a, c') => k a c'
    | (Stopped x, c') => (Stopped x, c')
    end.

Notation "x <~ m ;; k" := (io_bind m (fun x => k))
  (at level 61, m at next level, right associativity).

(** [input(prompt)]: the prompt is written, a line is read. *)
Definition input (prompt : string) : io string :=
  fun c =>
    let c' := mkconsole (List.tl (stdin c)) (stdout c ++ [prompt]) in
    match stdin c with
    | [] => (Stopped EOFError, c')
    | line :: _ => (Done line, c')
    end.

(** [print(line)] *)
Definition print (line : string) : io unit :=
  fun c =>
    (Done tt,
     mkconsole (stdin c) (stdout c ++ [line +++ String newline EmptyString])).

(** A call into the library. *)
Definition call {A : Type} (r : result A) : io A :=
  fun c =>
    match r with
    | Ok a => (Done a, c)
    | Raise e => (Stopped (Raised e), c)
    end.

Definition yes_no (question : string) : io bool :=
  res <~ input (question +++ " [y/n] ") ;;
  io_ret (contains (lower res) "y1").

(** What [setup] calls:
    - [create_app url name] is [Mastodon.create_app] with these, giving the
      client id and secret;
    - [auth_request_url url client_id client_secret] builds the client and
      asks it for the URL to log in at;
    - [log_in url client_id client_secret code] is [m.log_in] of that
      client, giving the access token;
    - [utcnow] is [datetime.now(tz=timezone.utc)], [realpath] and [argv0]
      are [os.path.realpath(config_file)] and [sys.argv[0]]. *)
Class Registration : Type := {
  create_app : string -> string -> result (string * string);
  auth_request_url : string -> string -> string -> result string;
  log_in : string -> string -> string -> string -> result string;
  utcnow : datetime;
  realpath : string;
  argv0 : string
}.

Section Setup.

Context {reg : Registration}.

(** The dict [setup] saves. *)
Definition new_config (url name client_id client_secret access_token
                       feed_url : string) (old_posts : bool) : ConfigFile :=
  mkconfig url access_token [mkfeed feed_url default_template]
           (Some 500) (Some "unlisted"%string)
           [("name", name); ("client_id", client_id);
            ("client_secret", client_secret)]%string
           (if old_posts then None else Some (isoformat utcnow)).

(** [setup]; it returns the configuration file it has written. *)
Definition setup : io ConfigFile :=
  url <~ input "What is your Mastodon Instance URL?: " ;;
  have_app <~ yes_no "Do you have your app credentials already?" ;;
  app <~ (if have_app : bool then
            name <~ input "app name (e.g. feediverse): " ;;
            client_id <~ input "What is your app's client id: " ;;
            client_secret <~ input "What is your client secret: " ;;
            io_ret (name, (client_id, client_secret))
          else
            _ <~ print "Ok, I'll need a few things in order to get your access token" ;;
            name <~ input "app name (e.g. feediverse): " ;;
            ids <~ call (create_app url name) ;;
            io_ret (name, ids)) ;;
  let name := fst app in
  let client_id := fst (snd app) in
  let client_secret := snd (snd app) in
  auth <~ call (auth_request_url url client_id client_secret) ;;
  _ <~ print ("Open the following URL and login: " +++ auth) ;;
  code <~ input "Paste displayed code: " ;;
  access_token <~ call (log_in url client_id client_secret code) ;;
  feed_url <~ input "RSS/Atom feed URL to watch: " ;;
  old_posts <~ yes_no "Shall already existing entries be posted, too?" ;;
  let config := new_config url name client_id client_secret access_token
                           feed_url old_posts in
  _ <~ print "" ;;
  _ <~ print ("Your feediverse configuration has been saved to " +++ realpath) ;;
  _ <~ print "Add a line line this to your crontab to check every 15 minutes:" ;;
  _ <~ print ("*/15 * * * * " +++ argv0) ;;
  _ <~ print "" ;;
  io_ret config.

Context {ext : Externals}.

(** [main] from its beginning: with no configuration file yet, [setup]
    writes one first. *)
Definition program (args : Args) (file : option ConfigFile) : io Run :=
  file' <~ match file with
           | Some file => io_ret file
           | None => setup
           end ;;
  io_ret (main args file').

End Setup.

(** The answers [yes_no] takes for a yes. *)
Definition yes_answers : list string := [""; "y"; "Y"; "1"; "y1"; "Y1"]%string.

Definition says_yes (res : string) : bool := contains (lower res) "y1".

Lemma lower_char_y (a : ascii) :
  Ascii.eqb "y" (lower_char a) = Ascii.eqb a "y" || Ascii.eqb a "Y".
Proof. destruct a as [[] [] [] [] [] [] [] []]; reflexivity. Qed.

Lemma lower_char_1 (a : ascii) :
  Ascii.eqb "1" (lower_char a) = Ascii.eqb a "1".
Proof. destruct a as [[] [] [] [] [] [] [] []]; reflexivity. Qed.

Lemma says_yes_iff (res : string) :
  says_yes res = true <-> In res yes_answers.
Proof.
  unfold says_yes, yes_answers.
  destruct res as [|a [|b [|c res]]]; cbn [lower contains startswith];
    rewrite ?lower_char_y, ?lower_char_1;
    repeat match goal with
           | |- context [Ascii.eqb ?x ?y] =>
               destruct (Ascii.eqb_spec x y); subst
           end;
    try congruence; cbn [orb andb In];
    (split;
     [ intros H; try discriminate H; auto 10
     | intros H; try reflexivity; exfalso;
       repeat (destruct H as [H | H]; [congruence | ]); exact H ]).
Qed.

(** X19. [yes_no] writes the question, reads one line and takes exactly the
    answers [y], [Y], [1], [y1], [Y1] and the empty line for a yes: the
    word [yes] counts as a no, and so does every other line.  At the end of
    the input it stops with [EOFError]. *)
Theorem yes_no_answers :
  forall (question : string) (c : Console),
    (forall res rest,
        stdin c = res :: rest ->
        exists said,
          yes_no question c
          = (Done said, mkconsole rest (stdout c ++ [question +++ " [y/n] "]))
          /\ (said = true <-> In res yes_answers)) /\
    (stdin c = [] -> fst (yes_no question c) = Stopped EOFError).
Proof.
  intros question c. split.
  - intros res rest E. exists (says_yes res). split.
    + unfold yes_no, io_bind, input. rewrite E. reflexivity.
    + apply says_yes_iff.
  - intros E. unfold yes_no, io_bind, input. now rewrite E.
Qed.

Lemma yes_no_answers_witness :
  yes_no "Sure?" (mkconsole ["yes"; "y"]%string [])
  = (Done false, mkconsole ["y"%string] ["Sure? [y/n] "%string]) /\
  yes_no "Sure?" (mkconsole [""; "y"]%string [])
  = (Done true, mkconsole ["y"%string] ["Sure? [y/n] "%string]) /\
  fst (yes_no "Sure?" (mkconsole [] [])) = Stopped EOFError.
Proof.
  split; [reflexivity | ]. split; [reflexivity | ].
  apply (proj2 (yes_no_answers "Sure?" (mkconsole [] []))). reflexivity.
Defined.

Lemma io_bind_Done {A B : Type} (m : io A) (k : A -> io B)
      (c c' : Console) (b : B) :
  io_bind m k c = (Done b, c') ->
  exists a c1, m c = (Done a, c1) /\ k a c1 = (Done b, c').
Proof.
  unfold io_bind. destruct (m c) as [[a|x] c1]; [eauto | discriminate].
Qed.

Lemma input_Done (prompt : string) (c c' : Console) (line : string) :
  input prompt c = (Done line, c') -> stdin c = line :: stdin c'.
Proof.
  unfold input. destruct (stdin c) as [|l rest]; [discriminate | ].
  intros H. injection H as <- <-. reflexivity.
Qed.

Lemma print_Done (line : string) (c c' : Console) (u : unit) :
  print line c = (Done u, c') -> stdin c = stdin c'.
Proof.
  unfold print. intros H. injection H as _ <-. reflexivity.
Qed.

Lemma call_Done {A : Type} (r : result A) (c c' : Console) (a : A) :
  call r c = (Done a, c') -> r = Ok a /\ c = c'.
Proof.
  unfold call. destruct r as [a0|e]; [ | discriminate].
  intros H. injection H as <- <-. now split.
Qed.

Lemma yes_no_Done (question : string) (c c' : Console) (said : bool) :
  yes_no question c = (Done said, c') ->
  exists res, stdin c = res :: stdin c' /\ said = says_yes res.
Proof.
  unfold yes_no. intros H. apply io_bind_Done in H.
  destruct H as (res & c1 & I & H). apply input_Done in I.
  unfold io_ret in H. injection H as <- <-. now exists res.
Qed.

Tactic Notation "io_inv" hyp(H) ident(x) ident(c) :=
  apply io_bind_Done in H; destruct H as (x & c & ? & H); cbn beta zeta in H.

Section SetupFacts.

Context {reg : Registration}.

(** What [setup] has read and called when it returns. *)
Lemma setup_Done (c c' : Console) (file : ConfigFile) :
  setup c = (Done file, c') ->
  exists url have name client_id client_secret code access_token feed_url old,
    stdin c
    = (if says_yes have
       then [url; have; name; client_id; client_secret; code; feed_url; old]
       else [url; have; name; code; feed_url; old]) ++ stdin c' /\
    (says_yes have = false ->
     create_app url name = Ok (client_id, client_secret)) /\
    log_in url client_id client_secret code = Ok access_token /\
    file = new_config url name client_id client_secret access_token feed_url
                      (says_yes old).
Proof.
  unfold setup. intros H.
  io_inv H url c1. io_inv H have_app c2. io_inv H app c3.
  io_inv H auth c4. io_inv H u1 c5. io_inv H code c6. io_inv H token c7.
  io_inv H feed_url c8. io_inv H old_posts c9.
  io_inv H u2 c10. io_inv H u3 c11. io_inv H u4 c12. io_inv H u5 c13.
  io_inv H u6 c14. unfold io_ret in H. injection H as <- <-.
  repeat match goal with
         | E : input _ _ = _ |- _ => apply input_Done in E
         | E : print _ _ = _ |- _ => apply print_Done in E
         | E : call _ _ = _ |- _ => apply call_Done in E; destruct E as [E <-]
         | E : yes_no _ _ = _ |- _ =>
             apply yes_no_Done in E; destruct E as (? & E & ->)
         end.
  match goal with
  | E : stdin c1 = ?have :: _, F : stdin c8 = ?old :: _ |- _ =>
      rename have into have_; rename old into old_
  end.
  destruct (says_yes have_) eqn:Have.
  - match goal with E : io_bind _ _ _ = _ |- _ => rename E into Happ end.
    io_inv Happ name d1. io_inv Happ client_id d2. io_inv Happ client_secret d3.
    unfold io_ret in Happ. injection Happ as <- <-.
    repeat match goal with
           | E : input _ _ = _ |- _ => apply input_Done in E
           end.
    exists url, have_, name, client_id, client_secret, code, token, feed_url,
      old_.
    rewrite Have. cbn [fst snd] in *. repeat split; try congruence.
    cbn [app]. congruence.
  - match goal with E : io_bind _ _ _ = _ |- _ => rename E into Happ end.
    io_inv Happ u0 d1. io_inv Happ name d2. io_inv Happ ids d3.
    unfold io_ret in Happ. injection Happ as <- <-.
    repeat match goal with
           | E : input _ _ = _ |- _ => apply input_Done in E
           | E : print _ _ = _ |- _ => apply print_Done in E
           | E : call _ _ = _ |- _ =>
               apply call_Done in E; destruct E as [E <-]
           end.
    destruct ids as [client_id client_secret].
    exists url, have_, name, client_id, client_secret, code, token, feed_url,
      old_.
    rewrite Have. cbn [fst snd] in *. repeat split; try congruence.
    cbn [app]. congruence.
Qed.

End SetupFacts.

(** X20. A configuration that [setup] has written can be run.  It holds one
    feed, with the template of title and link, the limit 500 and the
    visibility [unlisted]; the status of every entry is its title, a
    newline and its link, cut at 500 characters, and composing never
    fails.  Its watermark depends on the last answer: the moment of the
    setup when old posts are not wanted, the earliest timestamp there is
    when they are; a run that reaches its end goes only through entries
    newer than it. *)
Theorem first_run_after_setup :
  forall (ext : Externals) (reg : Registration) (args : Args)
         (c c' : Console) (run : Run),
    program args None c = (Done run, c') ->
    reads_iso_8601 ext ->
    valid_datetime utcnow ->
    exists (file : ConfigFile) (config : Config) (feed : Feed)
           (asked : list string) (old : string),
      run = main args file /\
      stdin c = asked ++ old :: stdin c' /\
      (List.length asked = 5%nat \/ List.length asked = 7%nat) /\
      read_config file = Ok config /\
      cfg_updated config = (if says_yes old then min_utc else utcnow) /\
      cfg_feeds config = [feed] /\
      feed_template feed = default_template /\
      cfg_max_chars config = Some 500 /\
      cfg_visibility config = Some "unlisted"%string /\
      (forall entry,
          compose config feed entry
          = Ok (mkstatus (take 500 (title entry
                                    +++ String newline (link entry)))
                         (Some "unlisted"%string))) /\
      (forall code,
          outcome run = Exit code ->
          Forall (fun e => dt_lt (cfg_updated config) (updated e))
                 (entries_of (events run))).
Proof.
  intros ext reg args c c' run H RI V.
  unfold program, io_bind, io_ret in H.
  destruct (setup c) as [[file|x] c1] eqn:S; [ | discriminate].
  injection H as <- <-. apply setup_Done in S.
  destruct S as (url & have & name & cid & csec & code & token & feed_url
                 & old & In_ & _ & _ & ->).
  set (file := new_config url name cid csec token feed_url (says_yes old)).
  set (w := if says_yes old then min_utc else utcnow).
  assert (RC : read_config file = Ok (set_updated file w)).
  { unfold read_config, file, new_config, w. cbn [cfg_updated].
    destruct (says_yes old); [reflexivity | ].
    now rewrite (RI _ _ (iso_parse_isoformat utcnow V)). }
  exists file, (set_updated file w), (mkfeed feed_url default_template),
    (if says_yes have then [url; have; name; cid; csec; code; feed_url]
     else [url; have; name; code; feed_url]), old.
  split; [reflexivity | ]. split.
  { rewrite In_. now destruct (says_yes have). }
  split; [destruct (says_yes have); cbn; auto | ].
  split; [exact RC | ].
  repeat (split; [reflexivity | ]). split.
  - intros entry.
    exact (compose_default_template (set_updated file w)
             (mkfeed feed_url default_template) entry eq_refl).
  - intros code0 E. apply main_Exit in E.
    destruct E as (config & evs & failed & RC' & R & _ & X).
    rewrite RC in RC'. injection RC' as <-.
    pose proof (feeds_trace_newer _ _ _ _ _ R) as N.
    destruct (dry_run args).
    + destruct X as [-> _]. exact N.
    + destruct X as [-> _]. rewrite entries_of_app. cbn [entries_of flat_map].
      now rewrite app_nil_r.
Qed.

(** A desk to set feediverse up at: the library registers any app, the
    clock shows 10:02. *)
Module Desk.

#[local] Instance registration : Registration := {|
  create_app := fun _ _ => Ok ("id"%string, "secret"%string);
  auth_request_url := fun url _ _ => Ok (url +++ "/oauth/authorize");
  log_in := fun _ _ _ code => Ok ("token-" +++ code);
  utcnow := Demo.at_time 10 2;
  realpath := "/home/user/.feediverse";
  argv0 := "feediverse"
|}.

(** The user has no app yet, watches feed ["A"] and does not want the old
    posts. *)
Definition console : Console :=
  mkconsole
    ["https://social.example"; "n"; "feediverse"; "1234"; "A"; "n"]%string
    [].

End Desk.

Lemma first_run_after_setup_witness :
  exists (run : Run) (c' : Console),
    @program Desk.registration Demo.world Demo.live None Desk.console
    = (Done run, c') /\
    stdin c' = [] /\
    map fst (posts (events run))
    = [Demo.unlisted ("A2" +++ String newline "http://x/A2")] /\
    exists (file : ConfigFile) (config : Config) (feed : Feed)
           (asked : list string) (old : string),
      run = @main Demo.world Demo.live file /\
      stdin Desk.console = asked ++ old :: stdin c' /\
      (List.length asked = 5%nat \/ List.length asked = 7%nat) /\
      @read_config Demo.world file = Ok config /\
      cfg_updated config
      = (if says_yes old then min_utc else @utcnow Desk.registration) /\
      cfg_feeds config = [feed] /\
      feed_template feed = default_template /\
      cfg_max_chars config = Some 500 /\
      cfg_visibility config = Some "unlisted"%string /\
      (forall entry,
          @compose Demo.world config feed entry
          = Ok (mkstatus (take 500 (title entry
                                    +++ String newline (link entry)))
                         (Some "unlisted"%string))) /\
      (forall code,
          outcome run = Exit code ->
          Forall (fun e => dt_lt (cfg_updated config) (updated e))
                 (entries_of (events run))).
Proof.
  destruct (@program Desk.registration Demo.world Demo.live None Desk.console)
    as [[run|x] c'] eqn:P; [ | vm_compute in P; discriminate P].
  exists run, c'. split; [reflexivity | ].
  pose proof (first_run_after_setup Demo.world Desk.registration Demo.live
                Desk.console c' run P demo_reads_iso_8601 eq_refl) as T.
  vm_compute in P. injection P as <- <-.
  split; [reflexivity | ]. split; [vm_compute; reflexivity | exact T].
Defined.
